(** * A shallow embedding of the poker table engine

    The development follows the Go sources of the repository:
    [hand/card.go] (cards and their text form), the pot ledger
    ([Pot], [Result], side pots and payout), the seat-to-hand maps
    ([Hands]) and the table state machine ([Table], [PlayerState]).

    Conventions.
    - Go's [int] is modelled by [Z]; chip counts and seat numbers stay far
      below [2^63] at a poker table, and the development covers exactly the
      runs in which no chip total leaves that range.  Go's [/] and [%]
      truncate towards zero and are [Z.quot] and [Z.rem].
    - A Go [map[int]T] is a [gmap Z T].  Reading a missing key of a
      [map[int]int] yields [0] ([get]).  A [range] loop over a map is a
      [map_fold]; every such loop of the sources is insensitive to the
      iteration order.
    - A call that can panic or return an [error] returns a [result]. *)

From Stdlib Require Import ZArith List Bool String Ascii Lia.
From stdpp Require Import base option list gmap fin_maps sorting strings.

Local Open Scope Z_scope.
Set Warnings "-clear-no-such-hyp".

(* ===================================================================== *)
(** * Outcomes of calls                                                  *)
(* ===================================================================== *)

(** The error values of the table package ([var ( Err... )]). *)
Inductive error :=
| ErrInvalidBuyin
| ErrSeatOccupied
| ErrInvalidSeat
| ErrAlreadySeated
| ErrInsufficientPlayers
| ErrInvalidBet
| ErrInvalidRaise
| ErrInvalidAction
| ErrOther (msg : string).

(** [Ok] is a normal return, [Err] a returned [error], [Panic] a run-time
    panic (explicit [panic], nil dereference, integer division by zero)
    and [OutOfFuel] marks a loop of the source that was cut by the fuel of
    the model. *)
Inductive result (A : Type) :=
| Ok (a : A)
| Err (e : error)
| Panic
| OutOfFuel.
Arguments Ok {A} a.
Arguments Err {A} e.
Arguments Panic {A}.
Arguments OutOfFuel {A}.

Global Instance result_ret : MRet result := fun A a => Ok a.
Global Instance result_bind : MBind result := fun A B k r =>
  match r with
  | Ok a => k a
  | Err e => Err e
  | Panic => Panic
  | OutOfFuel => OutOfFuel
  end.

(** [m[k]] on a [map[int]int]: the zero value when the key is missing. *)
Definition get (m : gmap Z Z) (k : Z) : Z := default 0 (m !! k).

(* ===================================================================== *)
(** * Go strings and runes                                               *)
(* ===================================================================== *)

(** A Go string is a sequence of bytes; a Rocq [string] is one too, and a
    literal of this (UTF-8) file holds the same bytes as the Go literal.
    [for i, c := range s] decodes one UTF-8 sequence per step: [c] is the
    rune and [i] the index of its first byte; a byte that starts no
    well-formed sequence yields [RuneError] and is one byte wide.
    [string(c)] of a rune is its UTF-8 encoding, and that of [RuneError]
    when [c] is no valid code point. *)
Module gostring.

Definition byte_of (a : ascii) : Z := Z.of_N (N_of_ascii a).
Definition ascii_of (z : Z) : ascii := ascii_of_N (Z.to_N z).

Definition RuneError : Z := 65533.

(** a continuation byte [10xxxxxx] *)
Definition cont (b : Z) : bool := (128 <=? b) && (b <=? 191).

(** [utf8.DecodeRuneInString]: the rune at the head and its width. *)
Definition decodeRune (s : string) : Z * nat :=
  match s with
  | EmptyString => (RuneError, 0%nat)
  | String a0 s1 =>
      let b0 := byte_of a0 in
      if b0 <? 128 then (b0, 1%nat)
      else if b0 <? 194 then (RuneError, 1%nat)
      else if b0 <? 224 then
        match s1 with
        | String a1 _ =>
            let b1 := byte_of a1 in
            if cont b1 then ((b0 - 192) * 64 + (b1 - 128), 2%nat)
            else (RuneError, 1%nat)
        | _ => (RuneError, 1%nat)
        end
      else if b0 <? 240 then
        match s1 with
        | String a1 (String a2 _) =>
            let b1 := byte_of a1 in
            let b2 := byte_of a2 in
            let lo := if b0 =? 224 then 160 else 128 in
            let hi := if b0 =? 237 then 159 else 191 in
            if (lo <=? b1) && (b1 <=? hi) && cont b2
            then ((b0 - 224) * 4096 + (b1 - 128) * 64 + (b2 - 128), 3%nat)
            else (RuneError, 1%nat)
        | _ => (RuneError, 1%nat)
        end
      else if b0 <? 245 then
        match s1 with
        | String a1 (String a2 (String a3 _)) =>
            let b1 := byte_of a1 in
            let b2 := byte_of a2 in
            let b3 := byte_of a3 in
            let lo := if b0 =? 240 then 144 else 128 in
            let hi := if b0 =? 244 then 143 else 191 in
            if (lo <=? b1) && (b1 <=? hi) && cont b2 && cont b3
            then ((b0 - 240) * 262144 + (b1 - 128) * 4096
                  + (b2 - 128) * 64 + (b3 - 128), 4%nat)
            else (RuneError, 1%nat)
        | _ => (RuneError, 1%nat)
        end
      else (RuneError, 1%nat)
  end.

(** The pairs [(i, c)] of [for i, c := range s]; [skip] counts the bytes
    of the current rune that are still to be passed, [i] is the index of
    the head of [s]. *)
Fixpoint rangeFrom (skip : nat) (i : Z) (s : string) : list (Z * Z) :=
  match s with
  | EmptyString => []
  | String _ s' =>
      match skip with
      | S k => rangeFrom k (i + 1) s'
      | O =>
          let '(c, size) := decodeRune s in
          (i, c) :: rangeFrom (size - 1) (i + 1) s'
      end
  end.

Definition range (s : string) : list (Z * Z) := rangeFrom 0 0 s.

Definition str1 (b0 : Z) : string := String (ascii_of b0) EmptyString.

(** [string(c)] for a rune [c] *)
Definition encodeRune (c : Z) : string :=
  if (c <? 0) || (1114111 <? c) || ((55296 <=? c) && (c <=? 57343))
  then String (ascii_of 239) (String (ascii_of 191) (str1 189))
  else if c <? 128 then str1 c
  else if c <? 2048 then
    String (ascii_of (192 + c / 64)) (str1 (128 + c mod 64))
  else if c <? 65536 then
    String (ascii_of (224 + c / 4096))
      (String (ascii_of (128 + (c / 64) mod 64)) (str1 (128 + c mod 64)))
  else
    String (ascii_of (240 + c / 262144))
      (String (ascii_of (128 + (c / 4096) mod 64))
         (String (ascii_of (128 + (c / 64) mod 64)) (str1 (128 + c mod 64)))).

(** [strings.HasPrefix] and [strings.Contains] *)
Fixpoint hasPrefix (s pre : string) : bool :=
  match pre, s with
  | EmptyString, _ => true
  | String a pre', String b s' => Ascii.eqb a b && hasPrefix s' pre'
  | String _ _, EmptyString => false
  end.

Fixpoint Contains (s substr : string) : bool :=
  hasPrefix s substr ||
  match s with
  | EmptyString => false
  | String _ s' => Contains s' substr
  end.

End gostring.

(* ===================================================================== *)
(** * Package hand: cards (hand/card.go)                                 *)
(* ===================================================================== *)

Module hand.

(** [type Rank string] and its constants *)
Definition Rank := string.
Definition Two : Rank := "2".
Definition Three : Rank := "3".
Definition Four : Rank := "4".
Definition Five : Rank := "5".
Definition Six : Rank := "6".
Definition Seven : Rank := "7".
Definition Eight : Rank := "8".
Definition Nine : Rank := "9".
Definition Ten : Rank := "T".
Definition Jack : Rank := "J".
Definition Queen : Rank := "Q".
Definition King : Rank := "K".
Definition Ace : Rank := "A".

Definition allRanks : list Rank :=
  [Two; Three; Four; Five; Six; Seven; Eight; Nine; Ten; Jack; Queen; King;
   Ace].

Definition allAceLowRanks : list Rank :=
  [Ace; Two; Three; Four; Five; Six; Seven; Eight; Nine; Ten; Jack; Queen;
   King].

(** The loop of [indexOf] and [aceLowIndexOf] over a slice of ranks. *)
Fixpoint indexIn (i : Z) (ranks : list Rank) (r : Rank) : Z :=
  match ranks with
  | [] => -1
  | rank :: rest => if String.eqb r rank then i else indexIn (i + 1) rest r
  end.

Definition indexOf (r : Rank) : Z := indexIn 0 allRanks r.
Definition aceLowIndexOf (r : Rank) : Z := indexIn 0 allAceLowRanks r.

(** [Rank.valid] *)
Definition Rank_valid (r : Rank) : bool := negb (indexOf r =? -1).

(** [type Suit string] and its constants *)
Definition Suit := string.
Definition Spades : Suit := "♠".
Definition Hearts : Suit := "♥".
Definition Diamonds : Suit := "♦".
Definition Clubs : Suit := "♣".

Definition allSuits : list Suit := [Spades; Hearts; Diamonds; Clubs].

(** [Suit.valid] *)
Definition Suit_valid (s : Suit) : bool := gostring.Contains "♠♥♦♣" s.

(** [type Card struct { TheRank Rank; TheSuit Suit }] *)
Record Card := mkCard { TheRank : Rank; TheSuit : Suit }.

Global Instance Card_eq_dec : EqDecision Card.
Proof. solve_decision. Defined.

(** [Card.String] and [Card.MarshalText] *)
Definition Card_String (c : Card) : string := TheRank c ++ TheSuit c.
Definition MarshalText (c : Card) : result string := Ok (Card_String c).

(** The message of the error of [UnmarshalText]. *)
Definition errStr : string :=
  "card: serialization should be of the format "
  ++ String (ascii_of_nat 34) ("4♠" ++ String (ascii_of_nat 34) EmptyString).

(** The loop of [Card.UnmarshalText] over the runes of the text; [None]
    is the early [return errors.New(errStr)]. *)
Fixpoint scanText (l : list (Z * Z)) (rank : Rank) (suit : Suit)
  : option (Rank * Suit) :=
  match l with
  | [] => Some (rank, suit)
  | (i, c) :: rest =>
      if (i =? 0) && Rank_valid (gostring.encodeRune c)
      then scanText rest (gostring.encodeRune c) suit
      else if (i =? 1) && Suit_valid (gostring.encodeRune c)
      then scanText rest rank (gostring.encodeRune c)
      else None
  end.

(** [Card.UnmarshalText]: the card after the call, or the error. *)
Definition UnmarshalText (c : Card) (text : string) : result Card :=
  match scanText (gostring.range text) EmptyString EmptyString with
  | None => Err (ErrOther errStr)
  | Some (rank, suit) =>
      if String.eqb rank EmptyString || String.eqb suit EmptyString
      then Err (ErrOther errStr)
      else Ok (mkCard rank suit)
  end.

(** [Cards]: the 52 cards, unshuffled. *)
Definition Cards : list Card :=
  suit ← allSuits; (fun r => mkCard r suit) <$> rev allRanks.

(** [type Sorting]: the sorting modes used by the table package. *)
Inductive Sorting := SortingHigh | SortingLow | SortingOther.

End hand.

(* ===================================================================== *)
(** * The pot ledger                                                     *)
(* ===================================================================== *)

(** [type Pot struct { contributions map[int]int }] *)
Record Pot := mkPot { contributions : gmap Z Z }.

(** [newPot]: zero contributions for the seats [0 .. numOfSeats-1]. *)
Definition newPot (numOfSeats : Z) : Pot :=
  mkPot (list_to_map ((fun i => (i, 0)) <$> seqZ 0 numOfSeats)).

Definition GetContribution (p : Pot) (seat : Z) : Z :=
  get (contributions p) seat.

(** [Pot.Chips] *)
Definition Chips (p : Pot) : Z :=
  map_fold (fun _ c chips => chips + c) 0 (contributions p).

(** [Pot.Outstanding] *)
Definition Pot_Outstanding (p : Pot) (seat : Z) : Z :=
  let most :=
    map_fold (fun _ chips most => if chips >? most then chips else most)
             0 (contributions p) in
  most - get (contributions p) seat.

(** [Pot.contribute]; panics on a negative amount. *)
Definition contribute (p : Pot) (seat chips : Z) : result Pot :=
  if chips <? 0 then Panic
  else Ok (mkPot (<[seat := get (contributions p) seat + chips]>
                    (contributions p))).

(** [Pot.seats] *)
Definition seats (p : Pot) : list Z :=
  map_fold (fun seat _ acc => acc ++ [seat]) [] (contributions p).

(** [Pot.sidePotAmounts]: the distinct non-zero contribution levels in
    ascending order.  The method also deletes the zero entries from the
    receiver; the updated pot is returned with the amounts. *)
Definition sidePotAmounts (p : Pot) : list Z * Pot :=
  let '(amounts, contribs) :=
    map_fold
      (fun seat chips '(amounts, contribs) =>
         if chips =? 0 then (amounts, delete seat contribs)
         else
           let found :=
             foldl (fun found a => found || (a =? chips)) false amounts in
           if negb found then (amounts ++ [chips], contribs)
           else (amounts, contribs))
      ([], contributions p) (contributions p) in
  (merge_sort Z.le amounts, mkPot contribs).

(** The first loop of [Pot.SidePots] for one amount [a] following the
    amount [last] (0 for the first one). *)
Definition bucket (last a : Z) (p : Pot) : Pot :=
  mkPot
    (map_fold
       (fun seat chips side =>
          if (chips >? last) && (chips >=? a) then <[seat := a - last]> side
          else if (chips >? last) && (chips <? a)
               then <[seat := chips - last]> side
               else side)
       ∅ (contributions p)).

Fixpoint buckets (last : Z) (amounts : list Z) (p : Pot) : list Pot :=
  match amounts with
  | [] => []
  | a :: rest => bucket last a p :: buckets a rest p
  end.

(** The test of the second loop: some seat of [pot] has put in, over the
    side pots kept so far and this bucket, exactly its begin chips. *)
Definition hasAllin (playerBeginChips : gmap Z Z) (sidePots : list Pot)
    (pot : Pot) : bool :=
  map_fold
    (fun seat chips hasAllin =>
       let totalChips :=
         foldl (fun total s => total + get (contributions s) seat)
               chips sidePots in
       if totalChips =? get playerBeginChips seat then true else hasAllin)
    false (contributions pot).

(** [sidePots[last].contributions[seat] += chips] for every seat of [pot]. *)
Definition foldInto (prev pot : Pot) : Pot :=
  mkPot
    (map_fold (fun seat chips acc => <[seat := get acc seat + chips]> acc)
              (contributions prev) (contributions pot)).

(** The second loop of [Pot.SidePots], from bucket number [i] on. *)
Fixpoint mergeBuckets (playerBeginChips : gmap Z Z) (i : nat)
    (pots sidePots : list Pot) (lastAllIn : bool) : list Pot :=
  match pots with
  | [] => sidePots
  | pot :: rest =>
      let hasAllin := hasAllin playerBeginChips sidePots pot in
      let sidePots' :=
        if lastAllIn || (lastAllIn && hasAllin) || Nat.eqb i 0
        then sidePots ++ [pot]
        else alter (fun prev => foldInto prev pot)
                   (length sidePots - 1)%nat sidePots in
      mergeBuckets playerBeginChips (S i) rest sidePots' hasAllin
  end.

(** [Pot.SidePots]: the side pots, and the receiver after the call. *)
Definition SidePots (p : Pot) (playerBeginChips : gmap Z Z)
  : list Pot * Pot :=
  let '(amounts, p') := sidePotAmounts p in
  let pots := buckets 0 amounts p' in
  (mergeBuckets playerBeginChips 0 pots [] false, p').

Definition pot_of_list (l : list (Z * Z)) : Pot := mkPot (list_to_map l).


(* ===================================================================== *)
(** * Package table: configuration, players, table                       *)
(* ===================================================================== *)

(** [type Action string] with its constants; every other string is, like
    [Stand], never among the valid actions. *)
Inductive Action := Fold | Check | Call | Bet | Raise | Stand.

Global Instance Action_eq_dec : EqDecision Action.
Proof. solve_decision. Defined.

Definition Action_eqb (a b : Action) : bool := bool_decide (a = b).

(** [type Limit string]; a limit that is neither [PotLimit] nor
    [FixedLimit] is treated by the sources as [NoLimit]. *)
Inductive Limit := NoLimit | PotLimit | FixedLimit.

(** [type Stakes struct] *)
Record Stakes := mkStakes {
  SmallBet : Z;
  BigBet : Z;
  Ante : Z;
  Straddle : bool
}.

(** [type Config struct]; the type [Game] of the variant selector is
    declared in a file that is not among the sources and is a parameter. *)
Record Config {Game : Type} := mkConfig {
  cfgGame : Game;
  cfgLimit : Limit;
  cfgStakes : Stakes;
  NumOfSeats : Z
}.
Arguments Config : clear implicits.
Arguments mkConfig {Game}.

(** What the table reads of a [Player] (an interface of the sources): its
    identifier and profile. *)
Record Player := mkPlayer {
  ID : Z;
  Nickname : string;
  Country : string;
  Hosted : bool;
  PlayDuration : Z
}.

(** Modelled from the spec: the type [HoleCard] (its file is not among the
    sources), "a Card plus a Visibility ∈ {Concealed, Exposed}", and its
    method [ExposedCard], which flips the visibility to [Exposed]. *)
Inductive Visibility := Concealed | Exposed.
Record HoleCard := mkHoleCard {
  hcCard : hand.Card;
  hcVisibility : Visibility
}.
Definition ExposedCard (c : HoleCard) : HoleCard := mkHoleCard (hcCard c) Exposed.

(** [type PlayerState struct] *)
Record PlayerState := mkPlayerState {
  player : Player;
  holeCards : list HoleCard;
  chips : Z;
  beginChips : Z;
  acted : bool;
  out : bool;
  allin : bool;
  canRaise : bool;
  roundPot : Z;
  pot : Z;
  stand : bool;
  straddle : bool
}.

Definition set_holeCards (v : list HoleCard) (s : PlayerState) :=
  mkPlayerState (player s) v (chips s) (beginChips s) (acted s) (out s)
    (allin s) (canRaise s) (roundPot s) (pot s) (stand s) (straddle s).
Definition set_chips (v : Z) (s : PlayerState) :=
  mkPlayerState (player s) (holeCards s) v (beginChips s) (acted s) (out s)
    (allin s) (canRaise s) (roundPot s) (pot s) (stand s) (straddle s).
Definition set_beginChips (v : Z) (s : PlayerState) :=
  mkPlayerState (player s) (holeCards s) (chips s) v (acted s) (out s)
    (allin s) (canRaise s) (roundPot s) (pot s) (stand s) (straddle s).
Definition set_acted (v : bool) (s : PlayerState) :=
  mkPlayerState (player s) (holeCards s) (chips s) (beginChips s) v (out s)
    (allin s) (canRaise s) (roundPot s) (pot s) (stand s) (straddle s).
Definition set_out (v : bool) (s : PlayerState) :=
  mkPlayerState (player s) (holeCards s) (chips s) (beginChips s) (acted s) v
    (allin s) (canRaise s) (roundPot s) (pot s) (stand s) (straddle s).
Definition set_allin (v : bool) (s : PlayerState) :=
  mkPlayerState (player s) (holeCards s) (chips s) (beginChips s) (acted s)
    (out s) v (canRaise s) (roundPot s) (pot s) (stand s) (straddle s).
Definition set_canRaise (v : bool) (s : PlayerState) :=
  mkPlayerState (player s) (holeCards s) (chips s) (beginChips s) (acted s)
    (out s) (allin s) v (roundPot s) (pot s) (stand s) (straddle s).
Definition set_roundPot (v : Z) (s : PlayerState) :=
  mkPlayerState (player s) (holeCards s) (chips s) (beginChips s) (acted s)
    (out s) (allin s) (canRaise s) v (pot s) (stand s) (straddle s).
Definition set_pot (v : Z) (s : PlayerState) :=
  mkPlayerState (player s) (holeCards s) (chips s) (beginChips s) (acted s)
    (out s) (allin s) (canRaise s) (roundPot s) v (stand s) (straddle s).
Definition set_straddle (v : bool) (s : PlayerState) :=
  mkPlayerState (player s) (holeCards s) (chips s) (beginChips s) (acted s)
    (out s) (allin s) (canRaise s) (roundPot s) (pot s) (stand s) v.

(** The round numbers ([preflop] is the first round). *)
Definition preflop : Z := 0.

(** [PlayerState.addToPot]; [deduct] is left out of [roundPot] before the
    flop. *)
Definition PlayerState_addToPot (state : PlayerState) (chips deduct r : Z)
  : PlayerState :=
  let state :=
    if r =? preflop
    then set_roundPot (roundPot state + (chips - deduct)) state
    else set_roundPot (roundPot state + chips) state in
  set_pot (pot state + chips) state.

(** [type StraddleSeat struct]; the category is 1, 2 or 3. *)
Record StraddleSeat := mkStraddleSeat {
  UserId : Z;
  Seat : Z;
  Category : Z;
  Voluntary : bool
}.

Definition Straddle1 : Z := 1.
Definition Straddle2 : Z := 2.
Definition Straddle3 : Z := 3.

(** [type Table struct] (without the dealer, the source of fresh decks,
    and the mutex). *)
Record Table {Game : Type} := mkTable {
  opts : Config Game;
  deck : list hand.Card;
  button : Z;
  smallBetSeat : Z;
  bigBetSeat : Z;
  utgSeat : Z;
  action : Z;
  round : Z;
  minRaise : Z;
  board : list hand.Card;
  players : gmap Z PlayerState;
  tpot : Pot;
  sidePots : list Pot;
  startedHand : bool;
  showdown : bool;
  straddleSeats : list StraddleSeat
}.
Arguments Table : clear implicits.
Arguments mkTable {Game}.

Section table_setters.
Context {Game : Type}.
Implicit Type t : Table Game.

Definition set_deck v t :=
  mkTable (opts t) v (button t) (smallBetSeat t) (bigBetSeat t) (utgSeat t)
    (action t) (round t) (minRaise t) (board t) (players t) (tpot t)
    (sidePots t) (startedHand t) (showdown t) (straddleSeats t).
Definition set_button v t :=
  mkTable (opts t) (deck t) v (smallBetSeat t) (bigBetSeat t) (utgSeat t)
    (action t) (round t) (minRaise t) (board t) (players t) (tpot t)
    (sidePots t) (startedHand t) (showdown t) (straddleSeats t).
Definition set_smallBetSeat v t :=
  mkTable (opts t) (deck t) (button t) v (bigBetSeat t) (utgSeat t)
    (action t) (round t) (minRaise t) (board t) (players t) (tpot t)
    (sidePots t) (startedHand t) (showdown t) (straddleSeats t).
Definition set_bigBetSeat v t :=
  mkTable (opts t) (deck t) (button t) (smallBetSeat t) v (utgSeat t)
    (action t) (round t) (minRaise t) (board t) (players t) (tpot t)
    (sidePots t) (startedHand t) (showdown t) (straddleSeats t).
Definition set_utgSeat v t :=
  mkTable (opts t) (deck t) (button t) (smallBetSeat t) (bigBetSeat t) v
    (action t) (round t) (minRaise t) (board t) (players t) (tpot t)
    (sidePots t) (startedHand t) (showdown t) (straddleSeats t).
Definition set_action v t :=
  mkTable (opts t) (deck t) (button t) (smallBetSeat t) (bigBetSeat t)
    (utgSeat t) v (round t) (minRaise t) (board t) (players t) (tpot t)
    (sidePots t) (startedHand t) (showdown t) (straddleSeats t).
Definition set_round v t :=
  mkTable (opts t) (deck t) (button t) (smallBetSeat t) (bigBetSeat t)
    (utgSeat t) (action t) v (minRaise t) (board t) (players t) (tpot t)
    (sidePots t) (startedHand t) (showdown t) (straddleSeats t).
Definition set_minRaise v t :=
  mkTable (opts t) (deck t) (button t) (smallBetSeat t) (bigBetSeat t)
    (utgSeat t) (action t) (round t) v (board t) (players t) (tpot t)
    (sidePots t) (startedHand t) (showdown t) (straddleSeats t).
Definition set_board v t :=
  mkTable (opts t) (deck t) (button t) (smallBetSeat t) (bigBetSeat t)
    (utgSeat t) (action t) (round t) (minRaise t) v (players t) (tpot t)
    (sidePots t) (startedHand t) (showdown t) (straddleSeats t).
Definition set_players v t :=
  mkTable (opts t) (deck t) (button t) (smallBetSeat t) (bigBetSeat t)
    (utgSeat t) (action t) (round t) (minRaise t) (board t) v (tpot t)
    (sidePots t) (startedHand t) (showdown t) (straddleSeats t).
Definition set_tpot v t :=
  mkTable (opts t) (deck t) (button t) (smallBetSeat t) (bigBetSeat t)
    (utgSeat t) (action t) (round t) (minRaise t) (board t) (players t) v
    (sidePots t) (startedHand t) (showdown t) (straddleSeats t).
Definition set_sidePots v t :=
  mkTable (opts t) (deck t) (button t) (smallBetSeat t) (bigBetSeat t)
    (utgSeat t) (action t) (round t) (minRaise t) (board t) (players t)
    (tpot t) v (startedHand t) (showdown t) (straddleSeats t).
Definition set_startedHand v t :=
  mkTable (opts t) (deck t) (button t) (smallBetSeat t) (bigBetSeat t)
    (utgSeat t) (action t) (round t) (minRaise t) (board t) (players t)
    (tpot t) (sidePots t) v (showdown t) (straddleSeats t).
Definition set_showdown v t :=
  mkTable (opts t) (deck t) (button t) (smallBetSeat t) (bigBetSeat t)
    (utgSeat t) (action t) (round t) (minRaise t) (board t) (players t)
    (tpot t) (sidePots t) (startedHand t) v (straddleSeats t).
Definition set_straddleSeats v t :=
  mkTable (opts t) (deck t) (button t) (smallBetSeat t) (bigBetSeat t)
    (utgSeat t) (action t) (round t) (minRaise t) (board t) (players t)
    (tpot t) (sidePots t) (startedHand t) (showdown t) v.

(** A write through the pointer [t.players[seat]]. *)
Definition updPlayer (seat : Z) (f : PlayerState -> PlayerState) t :=
  set_players (alter f seat (players t)) t.

End table_setters.

(** The methods of the interface [game] that the table calls; the
    interface and its implementations are declared in files that are not
    among the sources, so they are parameters.  A deck is the list of its
    remaining cards; a method that draws returns the cards drawn and the
    rest of the deck. *)
Class GameOps (Game : Type) := {
  game_MaxSeats : Game -> Z;
  game_NumOfRounds : Game -> Z;
  game_BoardCards : Game -> list hand.Card -> Z
               -> result (list hand.Card * list hand.Card);
  game_HoleCards : Game -> list hand.Card -> Z
              -> result (list HoleCard * list hand.Card);
  game_ForcedBet : Game -> gmap Z (list HoleCard) -> Config Game -> Z -> Z -> Z
              -> Z;
  game_RoundStartSeat : Game -> gmap Z (list HoleCard) -> Z -> Z;
  game_FixedLimit : Game -> Config Game -> Z -> Z
}.

Section table_methods.
Context {Game : Type} `{!GameOps Game}.
Implicit Type t : Table Game.

(** [Table.game]: the rules selected by the configuration. *)
Definition tgame t : Game := cfgGame (opts t).

(** [Table.GetPlayerBeginChips] *)
Definition GetPlayerBeginChips t : gmap Z Z := beginChips <$> players t.

(** [Table.CurrentPlayer]: [None] is the nil pointer. *)
Definition CurrentPlayer t : option PlayerState := players t !! action t.

Definition IsPreFlop t : bool := round t =? 0.

(** [Table.IsOut] *)
Definition IsOut t (seat : Z) : bool :=
  match players t !! seat with
  | None => true
  | Some state => out state
  end.

(** [Table.Outstanding] *)
Definition Outstanding t : Z :=
  match CurrentPlayer t with
  | None => -1
  | Some player =>
      if allin player || out player then 0
      else Pot_Outstanding (tpot t) (action t)
  end.

(** [Table.MaxRaise] *)
Definition MaxRaise t : Z :=
  match CurrentPlayer t with
  | None => -1
  | Some player =>
      let outstanding := Outstanding t in
      let bettableChips := chips player + roundPot player in
      if bettableChips <=? 0 then 0
      else
        let max :=
          match cfgLimit (opts t) with
          | PotLimit =>
              Chips (tpot t) + outstanding + outstanding + roundPot player
          | FixedLimit => game_FixedLimit (tgame t) (opts t) (round t)
          | NoLimit => bettableChips
          end in
        if max >? bettableChips then bettableChips else max
  end.

(** [Table.MinRaise] *)
Definition MinRaise t : Z :=
  match CurrentPlayer t with
  | None => -1
  | Some player =>
      let outstanding := Outstanding t in
      let bettableChips := chips player + roundPot player in
      match cfgLimit (opts t) with
      | FixedLimit => 1
      | _ =>
          let min :=
            if IsPreFlop t then
              if minRaise t =? 0 then 2 * BigBet (cfgStakes (opts t))
              else outstanding + minRaise t + roundPot player
            else
              if minRaise t =? 0 then BigBet (cfgStakes (opts t))
              else outstanding + minRaise t + roundPot player in
          if bettableChips <? min then bettableChips else min
      end
  end.

(** [Table.ValidActions]; the method dereferences the current player. *)
Definition ValidActions t : result (list Action) :=
  match CurrentPlayer t with
  | None => Panic
  | Some player =>
      if allin player || out player then Ok []
      else if Outstanding t =? 0 then Ok [Fold; Check; Bet]
      else if negb (canRaise player) then Ok [Fold; Call]
      else if chips player <=? Outstanding t then Ok [Fold; Call]
      else Ok [Fold; Call; Raise]
  end.

(** [Table.resetRoundPot] and [Table.resetPot] *)
Definition resetRoundPot t :=
  set_players (set_roundPot 0 <$> players t) t.
Definition resetPot t :=
  set_players ((fun p => set_pot 0 (set_roundPot 0 p)) <$> players t) t.

(** [Table.resetActed] *)
Definition resetActed t := set_players (set_acted false <$> players t) t.

(** [Table.resetCanRaise]: everybody may raise but [seat]. *)
Definition resetCanRaise (seat : Z) t :=
  set_players
    (map_imap (fun s player => Some (set_canRaise (negb (s =? seat)) player))
              (players t)) t.

(** [Table.countState] *)
Definition countState t : Z * Z :=
  map_fold
    (fun _ player '(countAllin, countRich) =>
       (if allin player then countAllin + 1 else countAllin,
        if negb (allin player) && negb (out player) && acted player
        then countRich + 1 else countRich))
    (0, 0) (players t).

(** [Table.isNobodyCanPlay] *)
Definition isNobodyCanPlay t : bool :=
  let '(count, actedCount) :=
    map_fold
      (fun _ player '(count, actedCount) =>
         (if negb (allin player) && negb (out player) then count + 1
          else count,
          if acted player || out player || allin player then actedCount + 1
          else actedCount))
      (0, 0) (players t) in
  (count <? 2) && (actedCount =? Z.of_nat (size (players t))).

(** [Table.EveryoneFolded] *)
Definition EveryoneFolded t : bool :=
  map_fold
    (fun _ player count =>
       if negb (out player) && negb (stand player) then count + 1 else count)
    0 (players t) <? 2.

(** [Table.hasNextHand] *)
Definition hasNextHand t : bool :=
  map_fold (fun _ player count => if chips player >? 0 then count + 1 else count)
           0 (players t) >? 1.

(** [Table.showHoleCards]: with two players or more still in, their hole
    cards are exposed. *)
Definition showHoleCards t :=
  let count :=
    map_fold (fun _ player count => if negb (out player) then count + 1 else count)
             0 (players t) in
  if count >? 1 then
    set_players
      ((fun player =>
          if negb (out player)
          then set_holeCards (ExposedCard <$> holeCards player) player
          else player) <$> players t) t
  else t.

(** [Table.updatePots]; [SidePots] also drops the zero entries of the
    pot of the table. *)
Definition updatePots t :=
  let '(sps, p') := SidePots (tpot t) (GetPlayerBeginChips t) in
  set_sidePots sps (set_tpot p' t).

(** [Table.addToPot]: moves [n] chips, at most the whole stack, from the
    stack of [seat] into the pot. *)
Definition addToPot t (seat n : Z) : result (Table Game) :=
  match players t !! seat with
  | None => Panic
  | Some p =>
      let '(n, p) :=
        if n >=? chips p then (chips p, set_allin true p) else (n, p) in
      let p := set_chips (chips p - n) p in
      pot' ← contribute (tpot t) seat n;
      Ok (set_tpot pot' (set_players (<[seat := p]> (players t)) t))
  end.

(** The loop of [Table.nextSeat], with [n] seats still to try. *)
Fixpoint nextSeatLoop (n : nat) (numOfSeats : Z) (ps : gmap Z PlayerState)
    (seat : Z) (playing : bool) : Z :=
  match n with
  | O => -1
  | S n' =>
      let next :=
        nextSeatLoop n' numOfSeats ps (Z.rem (seat + 1) numOfSeats) playing in
      match ps !! seat with
      | Some p =>
          if negb playing || (negb (out p) && negb (allin p) && negb (acted p))
          then seat else next
      | None => next
      end
  end.

(** [Table.nextSeat]; [seat % 0] panics. *)
Definition nextSeat t (seat : Z) (playing : bool) : result Z :=
  let n := NumOfSeats (opts t) in
  if n =? 0 then Panic
  else Ok (nextSeatLoop (Z.to_nat n) n (players t) (Z.rem seat n) playing).

(** [Table.validSeat] *)
Definition validSeat t (seat : Z) : bool :=
  (seat >=? 0) && (seat <? NumOfSeats (opts t)).

(** [Table.HoleCards] *)
Definition Table_HoleCards t : gmap Z (list HoleCard) :=
  holeCards <$> players t.

(** [Table.relativePosition]: the number of occupied seats between the
    button and [seat]; the loop of the source has no bound. *)
Fixpoint relativePositionLoop (fuel : nat) t (current seat count : Z)
  : result Z :=
  match fuel with
  | O => OutOfFuel
  | S fuel' =>
      if current =? seat then Ok count
      else
        current' ← nextSeat t (current + 1) false;
        relativePositionLoop fuel' t current' seat (count + 1)
  end.

Definition relativePosition (fuel : nat) t (seat : Z) : result Z :=
  relativePositionLoop fuel t (button t) seat 0.

(** [Table.setBlindSeat] *)
Definition setBlindSeat t (seat pos : Z) :=
  if negb (round t =? preflop) then t
  else if Z.of_nat (size (Table_HoleCards t)) =? 2 then
    if pos =? 0 then set_smallBetSeat seat t
    else if pos =? 1 then set_bigBetSeat seat t
    else t
  else
    if pos =? 1 then set_smallBetSeat seat t
    else if pos =? 2 then set_bigBetSeat seat t
    else t.

(** [Table.IsStraddleValid] *)
Definition IsStraddleValid t : bool :=
  if negb (Straddle (cfgStakes (opts t))) then false
  else
    map_fold (fun _ p count => if negb (stand p) then count + 1 else count)
             0 (players t) >=? 4.

(** [Table.doOneStraddleBet]: the table after the call and the flag
    returned. *)
Definition doOneStraddleBet t (seat category : Z) : result (Table Game * bool) :=
  match players t !! seat with
  | None => Ok (t, false)
  | Some state =>
      if negb (straddle state) then Ok (t, false)
      else
        let bigBet := BigBet (cfgStakes (opts t)) in
        let betChips :=
          if category =? Straddle1 then 2 * bigBet
          else if category =? Straddle2 then 2 * 2 * bigBet
          else if category =? Straddle3 then 2 * 2 * 2 * bigBet
          else 0 in
        let t := set_minRaise (Z.quot betChips 2) t in
        let betChips := if betChips >? chips state then chips state else betChips in
        t ← addToPot t seat betChips;
        let t := updPlayer seat
                   (fun state => PlayerState_addToPot state betChips 0 (round t)) t in
        a ← nextSeat t (seat + 1) true;
        let t := set_action a t in
        let tmp := mkStraddleSeat (ID (player state)) seat category (straddle state) in
        let t := set_straddleSeats (straddleSeats t ++ [tmp]) t in
        Ok (updPlayer seat (set_straddle false) t, true)
  end.

(** [Table.ForceStraddleBet] *)
Definition ForceStraddleBet t : result (Table Game) :=
  let straddleSeat := utgSeat t in
  '(t, ok) ← doOneStraddleBet t straddleSeat Straddle1;
  if negb ok then Ok t
  else
    straddleSeat ← nextSeat t (straddleSeat + 1) true;
    '(t, ok) ← doOneStraddleBet t straddleSeat Straddle2;
    if negb ok then Ok t
    else
      straddleSeat ← nextSeat t (straddleSeat + 1) true;
      '(t, ok) ← doOneStraddleBet t straddleSeat Straddle3;
      Ok t.

(** [Table.setUpHand]; [newDeck] is the deck handed out by the dealer. *)
Definition setUpHand (newDeck : list hand.Card) t : result (Table Game) :=
  let t := set_deck newDeck t in
  let t := set_round 0 t in
  b ← nextSeat t (button t + 1) false;
  let t := set_button b t in
  let t := set_action (-1) t in
  let t := set_tpot (newPot (NumOfSeats (opts t))) t in
  let t := set_straddleSeats [] t in
  let t := set_board [] t in
  Ok (set_players
        ((fun p => set_beginChips (chips p)
                     (set_allin false (set_out false (set_holeCards [] p))))
           <$> players t) t).

(** The body of the loop of [Table.setUpRound] for the entry [seat] of
    [t.players]: hole cards, blind seats, first seat to act, forced bet. *)
Definition setUpSeat (fuel : nat) (relativePos : Z) t (seat : Z)
  : result (Table Game) :=
  match players t !! seat with
  | None => Ok t
  | Some _ =>
      '(hCards, deck') ← game_HoleCards (tgame t) (deck t) (round t);
      let t := set_deck deck' t in
      let t := updPlayer seat
                 (fun p => set_holeCards (holeCards p ++ hCards) p) t in
      pos ← relativePosition fuel t seat;
      let forced :=
        game_ForcedBet (tgame t) (Table_HoleCards t) (opts t) (round t) seat pos in
      let t := setBlindSeat t seat pos in
      t ← (if relativePos =? pos then
             a ← nextSeat t seat true;
             let t := set_action a t in
             Ok (if round t =? preflop then set_utgSeat a t else t)
           else Ok t);
      let stack := default 0 (chips <$> players t !! seat) in
      let forced := if forced >? stack then stack else forced in
      t ← addToPot t seat forced;
      Ok (updPlayer seat
            (fun p => PlayerState_addToPot p forced (Ante (cfgStakes (opts t)))
                        (round t)) t)
  end.

(** [Table.setUpRound]; [order] is the order in which the [range] loop
    visits the seats of [t.players]. *)
Definition setUpRound (fuel : nat) (order : list Z) t : result (Table Game) :=
  let t := updatePots t in
  '(bCards, deck') ← game_BoardCards (tgame t) (deck t) (round t);
  let t := set_board (board t ++ bCards) (set_deck deck' t) in
  let t := resetActed t in
  let relativePos := game_RoundStartSeat (tgame t) (Table_HoleCards t) (round t) in
  t ← foldl (fun r seat => t ← r; setUpSeat fuel relativePos t seat)
            (Ok t) order;
  let t := set_minRaise 0 t in
  let t := resetCanRaise (-1) t in
  t ← (if (round t =? preflop) && IsStraddleValid t then
         ForceStraddleBet (updPlayer (utgSeat t) (set_straddle true) t)
       else Ok t);
  let count :=
    map_fold
      (fun _ player count =>
         if negb (allin player) && negb (out player) then count + 1 else count)
      0 (players t) in
  Ok (if count <? 2 then set_action (-1) t else t).

(** The three parts of [Table.handleAction]: the validation of the
    action and of its amount, *)
Definition validateAction t (a : Action) (n : Z) : result unit :=
  vas ← ValidActions t;
  let validAction :=
    foldl (fun validAction va => validAction || Action_eqb va a) false vas in
  if negb validAction then Err ErrInvalidAction
  else if (Action_eqb a Bet || Action_eqb a Raise)
          && ((n <? MinRaise t) || (n >? MaxRaise t))
  then Err (if Action_eqb a Bet then ErrInvalidBet else ErrInvalidRaise)
  else Ok ().

(** the [switch] that commits the action of the player [p] of [seat], *)
Definition commitAction t (seat : Z) (p : PlayerState) (a : Action) (n : Z)
  : result (Table Game) :=
  match a with
  | Fold => Ok (updPlayer seat (set_out true) t)
  | Call =>
      let outstanding := Outstanding t in
      let t :=
        updPlayer seat
          (fun p =>
             if outstanding >? chips p
             then PlayerState_addToPot p (chips p) 0 (round t)
             else PlayerState_addToPot p outstanding 0 (round t)) t in
      addToPot t seat outstanding
  | Bet =>
      let betChips := n - roundPot p in
      let t := updPlayer seat
                 (fun p => PlayerState_addToPot p betChips 0 (round t)) t in
      t ← addToPot t seat betChips;
      let t := resetActed t in
      Ok (if betChips >=? minRaise t
          then set_minRaise betChips (resetCanRaise seat t)
          else t)
  | Raise =>
      let raiseChips := n - roundPot p in
      let t :=
        if raiseChips - Outstanding t >=? minRaise t
        then
          let t := resetCanRaise seat t in
          set_minRaise (raiseChips - Outstanding t) t
        else t in
      let t := updPlayer seat
                 (fun p => PlayerState_addToPot p raiseChips 0 (round t)) t in
      t ← addToPot t seat raiseChips;
      Ok (resetActed t)
  | _ => Ok t
  end.

(** and the end: the player has acted, and when nobody can play on the
    hands are shown. *)
Definition settleAction t (seat : Z) : Table Game :=
  let t := updPlayer seat (fun p => set_acted true (set_canRaise false p)) t in
  let '(countAllin, countRich) := countState t in
  if isNobodyCanPlay t
     && ((countAllin >? 1) || ((countAllin =? 1) && (countRich >? 0)))
  then showHoleCards (updatePots (set_showdown true t))
  else t.

(** [Table.handleAction], called by [Next] with the seat in action and
    its player state, [p = t.players[seat]]. *)
Definition handleAction t (seat : Z) (a : Action) (n : Z)
  : result (Table Game) :=
  _ ← validateAction t a n;
  match players t !! seat with
  | None => Panic
  | Some p =>
      t ← commitAction t seat p a n;
      Ok (settleAction t seat)
  end.

(** The branches of [Table.Next] that run a hand up to its payout.
    With no hand started: a new hand and its first round. *)
Definition startHand (fuel : nat) (order : list Z) (newDeck : list hand.Card) t
  : result (Table Game) :=
  let t := set_showdown false t in
  let t := resetPot t in
  if negb (hasNextHand t) then Err ErrInsufficientPlayers
  else
    t ← setUpHand newDeck t;
    t ← setUpRound fuel order t;
    Ok (set_startedHand true t).

(** With nobody in action and a round left to play: the next round. *)
Definition nextRound (fuel : nat) (order : list Z) t : result (Table Game) :=
  let t := set_round (round t + 1) t in
  let t := resetRoundPot t in
  setUpRound fuel order t.

(** With a player in action whose answer is the action [a] with the
    amount [n], and more than one player left after it: the action and
    the move of the action to the next seat. *)
Definition playAction t (a : Action) (n : Z) : result (Table Game) :=
  t ← handleAction t (action t) a n;
  if EveryoneFolded t then Err (ErrOther "the hand is over")
  else
    next ← nextSeat t (action t + 1) true;
    Ok (set_action next t).

End table_methods.

(* ===================================================================== *)
(** * Hands per seat and the payout of a pot                             *)
(* ===================================================================== *)

(** The two operations of package hand on evaluated hands that the table
    package uses: [Hand.CompareTo] and [hand.Sort(sorting, hand.DESC, ...)].
    The hand evaluator is not among the sources; the type of hands and
    these operations are parameters. *)
Class HandOps (Hand : Type) := {
  CompareTo : Hand -> Hand -> Z;
  hand_Sort : hand.Sorting -> list Hand -> list Hand
}.

(** [type Share string] *)
Inductive Share := WonHigh | WonLow | SplitHigh | SplitLow.

(** [type Result struct]; [None] is the nil hand of [Pot.take]. *)
Record Result {Hand : Type} := mkResult {
  PotNo : Z;
  rHand : option Hand;
  rChips : Z;
  rShare : Share
}.
Arguments Result : clear implicits.
Arguments mkResult {Hand}.

Definition highPotShare (n : Z) : Share :=
  if n =? 1 then WonHigh else SplitHigh.

Definition lowPotShare (n : Z) : Share :=
  if n =? 1 then WonLow else SplitLow.

Section payout.
Context {Game : Type} {Hand : Type} `{!HandOps Hand}.

(** [type Hands map[int]*hand.Hand] is [gmap Z (option Hand)], [None]
    being a nil hand; [type Results map[int][]*Result] is
    [gmap Z (list (Result Hand))]. *)

(** [hand != nil] *)
Definition notNil (hand : option Hand) : bool :=
  match hand with Some _ => true | None => false end.

(** [Hands.slice] *)
Definition slice (h : gmap Z (option Hand)) : list (option Hand) :=
  map_fold (fun _ hand s => s ++ [hand]) [] h.

(** The common end of [winningHands] and [winningHandsForHoldem]: the
    hands of [handsCopy] that compare equal to the first one in
    descending order. *)
Definition bestHands (sorting : hand.Sorting) (handsCopy : gmap Z (option Hand))
  : result (gmap Z (option Hand)) :=
  if Nat.eqb (size handsCopy) 0 then Ok handsCopy
  else
    let s := hand_Sort sorting (omap id (slice handsCopy)) in
    match s with
    | [] => Panic
    | best :: _ =>
        Ok (map_fold
              (fun seat hand selected =>
                 match hand with
                 | Some h =>
                     if CompareTo best h =? 0 then <[seat := hand]> selected
                     else selected
                 | None => selected
                 end)
              ∅ handsCopy)
    end.

(** [Hands.winningHands] *)
Definition winningHands (h : gmap Z (option Hand)) (sorting : hand.Sorting)
  : result (gmap Z (option Hand)) :=
  let handsCopy :=
    map_fold
      (fun seat hand handsCopy =>
         if notNil hand then <[seat := hand]> handsCopy
         else handsCopy)
      ∅ h in
  bestHands sorting handsCopy.

(** [Hands.winningHandsForHoldem] *)
Definition winningHandsForHoldem (h : gmap Z (option Hand)) (t : Table Game)
    (sorting : hand.Sorting) : result (gmap Z (option Hand)) :=
  let handsCopy :=
    map_fold
      (fun seat hand handsCopy =>
         if negb (IsOut t seat) && notNil hand
         then <[seat := hand]> handsCopy
         else handsCopy)
      ∅ h in
  bestHands sorting handsCopy.

(** [Hands.handsForSeats] *)
Definition handsForSeats (h : gmap Z (option Hand)) (seats : list Z)
  : gmap Z (option Hand) :=
  map_fold
    (fun seat hand newHands =>
       let found := foldl (fun found s => found || (s =? seat)) false seats in
       if found then <[seat := hand]> newHands else newHands)
    ∅ h.

(** [combineResults] *)
Definition combineResults (results : list (gmap Z (list (Result Hand))))
  : gmap Z (list (Result Hand)) :=
  foldl
    (fun combined m =>
       map_fold (fun k v combined => <[k := default [] (combined !! k) ++ v]> combined)
                combined m)
    ∅ results.

(** [Pot.take] *)
Definition take (p : Pot) (seat : Z) : gmap Z (list (Result Hand)) :=
  {[ seat := [mkResult 0 None (Chips p) WonHigh] ]}.

(** The inner loop of [resultsFromWinners]: the first winning seat equal
    to [seatToCheck] gets one more chip. *)
Fixpoint giveChip (winningSeats : list Z) (seatToCheck : Z)
    (results : gmap Z (list (Result Hand))) (remainder : Z)
  : result (gmap Z (list (Result Hand)) * Z) :=
  match winningSeats with
  | [] => Ok (results, remainder)
  | seat :: rest =>
      if seat =? seatToCheck then
        match results !! seat with
        | Some (r :: rs) =>
            Ok (<[seat := mkResult (PotNo r) (rHand r) (rChips r + 1) (rShare r)
                          :: rs]> results,
                remainder - 1)
        | _ => Panic
        end
      else giveChip rest seatToCheck results remainder
  end.

(** The outer loop of [resultsFromWinners]; it has no bound of its own. *)
Fixpoint giveRemainder (fuel : nat) (winningSeats : list Z)
    (results : gmap Z (list (Result Hand))) (remainder seatToCheck : Z)
  : result (gmap Z (list (Result Hand))) :=
  match fuel with
  | O => OutOfFuel
  | S fuel' =>
      if remainder =? 0 then Ok results
      else
        '(results, remainder) ← giveChip winningSeats seatToCheck results remainder;
        giveRemainder fuel' winningSeats results remainder
                      (Z.rem (seatToCheck + 1) 10)
  end.

(** [Pot.resultsFromWinners] *)
Definition resultsFromWinners (fuel : nat) (potNo : Z)
    (winners : gmap Z (option Hand)) (chips button : Z) (f : Z -> Share)
  : result (gmap Z (list (Result Hand))) :=
  let n := Z.of_nat (size winners) in
  let '(results, winningSeats) :=
    map_fold
      (fun seat hand '(results, winningSeats) =>
         (<[seat := [mkResult potNo hand (Z.quot chips n) (f n)]]> results,
          winningSeats ++ [seat]))
      (∅, []) winners in
  let winningSeats := merge_sort Z.le winningSeats in
  if n =? 0 then Panic
  else
    let remainder := Z.rem chips n in
    let seatToCheck := Z.rem button 10 in
    giveRemainder fuel winningSeats results remainder seatToCheck.

(** [Pot.payout].  The recursion on the side pots is cut by [fuel]; the
    zero entries that [SidePots] deletes from the receiver are dropped in
    [p'], the receiver after the call. *)
Fixpoint payout (fuel : nat) (potNo : Z) (t : Table Game)
    (highHands lowHands : gmap Z (option Hand)) (sorting : hand.Sorting)
    (button : Z) (p : Pot) : result (gmap Z (list (Result Hand))) :=
  match fuel with
  | O => OutOfFuel
  | S fuel' =>
      let '(sidePots, p') := SidePots p (GetPlayerBeginChips t) in
      if (1 <? length sidePots)%nat then
        (foldl
           (fun acc sp =>
              '(potNo, results) ← acc;
              r ← payout fuel' potNo t highHands lowHands sorting button sp;
              Ok (potNo + 1, combineResults [results; r]))
           (Ok (0, ∅)) sidePots) ≫= (fun '(_, results) => Ok results)
      else
        let sideHighHands := handsForSeats highHands (seats p') in
        let sideLowHands := handsForSeats lowHands (seats p') in
        let split := (0 <? size sideLowHands)%nat in
        let splitPot :=
          highWinners ← winningHandsForHoldem sideHighHands t hand.SortingHigh;
          lowWinners ← winningHandsForHoldem sideLowHands t hand.SortingLow;
          if Nat.eqb (size lowWinners) 0 then
            resultsFromWinners fuel potNo highWinners (Chips p') button highPotShare
          else
            let highAmount := Z.quot (Chips p') 2 in
            let highAmount :=
              if Z.rem highAmount 2 =? 1 then highAmount + 1 else highAmount in
            highResults ← resultsFromWinners fuel potNo highWinners highAmount
                            button highPotShare;
            lowResults ← resultsFromWinners fuel potNo lowWinners
                           (Z.quot (Chips p') 2) button lowPotShare;
            Ok (combineResults [highResults; lowResults]) in
        if negb split then
          winners ← winningHands sideHighHands sorting;
          match sorting with
          | hand.SortingHigh =>
              resultsFromWinners fuel potNo winners (Chips p') button highPotShare
          | hand.SortingLow =>
              resultsFromWinners fuel potNo winners (Chips p') button lowPotShare
          | hand.SortingOther => splitPot
          end
        else splitPot
  end.

End payout.

(* ===================================================================== *)
(** * Snapshots: the JSON form of pots, players and tables               *)
(* ===================================================================== *)

(** A JSON document is modelled by the value that [encoding/json] renders:
    the structs [PotJSON], [PlayerStateJSON] and [tableJSON] with their
    nested values in serialized form.  [json.Marshal] renders such a value
    deterministically, an [int] field in decimal, so two documents are
    identical exactly when the values are equal. *)

Module strconv.

(** [strconv.FormatInt(i, 10)] *)
Fixpoint formatDigits (fuel : nat) (n : Z) (acc : string) : string :=
  match fuel with
  | O => acc
  | S fuel' =>
      let acc := String (gostring.ascii_of (48 + n mod 10)) acc in
      if n <? 10 then acc else formatDigits fuel' (n / 10) acc
  end.

Definition FormatInt (i : Z) : string :=
  if i <? 0
  then String "-" (formatDigits (S (Z.to_nat (Z.log2 (- i)))) (- i) EmptyString)
  else formatDigits (S (Z.to_nat (Z.log2 i))) i EmptyString.

Fixpoint parseDigits (s : string) (acc : Z) : option Z :=
  match s with
  | EmptyString => Some acc
  | String a s' =>
      let d := gostring.byte_of a in
      if (48 <=? d) && (d <=? 57) then parseDigits s' (acc * 10 + (d - 48))
      else None
  end.

(** [strconv.ParseInt(s, 10, 64)]: an optional sign and decimal digits
    of a value that fits 64 bits. *)
Definition ParseInt (s : string) : result Z :=
  let '(neg, body) :=
    match s with
    | String "-" s' => (true, s')
    | String "+" s' => (false, s')
    | _ => (false, s)
    end in
  match body with
  | EmptyString => Err (ErrOther "strconv.ParseInt: invalid syntax")
  | _ =>
      match parseDigits body 0 with
      | None => Err (ErrOther "strconv.ParseInt: invalid syntax")
      | Some n =>
          let v := if neg : bool then - n else n in
          if (- 2 ^ 63 <=? v) && (v <? 2 ^ 63) then Ok v
          else Err (ErrOther "strconv.ParseInt: value out of range")
      end
  end.

End strconv.

(** [type PotJSON struct] *)
Record PotJSON := mkPotJSON {
  jContributions : gmap string Z;
  jChips : Z
}.

(** [Pot.PotJSON], the value rendered by [Pot.MarshalJSON] *)
Definition Pot_PotJSON (p : Pot) : PotJSON :=
  mkPotJSON
    (map_fold (fun seat chips m => <[strconv.FormatInt seat := chips]> m)
              ∅ (contributions p))
    (Chips p).

(** [Pot.UnmarshalJSON] *)
Definition Pot_UnmarshalJSON (j : PotJSON) : result Pot :=
  m ← map_fold
        (fun seatStr chips (acc : result (gmap Z Z)) =>
           m ← acc;
           seat ← strconv.ParseInt seatStr;
           Ok (<[seat := chips]> m))
        (Ok ∅) (jContributions j);
  Ok (mkPot m).

(** [type PlayerStateJSON struct]; the hole cards are kept as values, the
    JSON form of [HoleCard] being declared outside the sources. *)
Record PlayerStateJSON := mkPlayerStateJSON {
  jID : Z;
  jNickname : string;
  jCountry : string;
  jHosted : bool;
  jRoundPot : Z;
  jPot : Z;
  jHoleCards : list HoleCard;
  jPlayerChips : Z;
  jBeginChips : Z;
  jActed : bool;
  jOut : bool;
  jAllin : bool;
  jCanRaise : bool;
  jStand : bool;
  jStraddle : bool;
  jPlayDuration : Z
}.

(** [PlayerState.PlayerStateJSON], the value rendered by
    [PlayerState.MarshalJSON]; the field [Straddle] keeps its zero value. *)
Definition PlayerState_PlayerStateJSON (state : PlayerState) : PlayerStateJSON :=
  mkPlayerStateJSON
    (ID (player state)) (Nickname (player state)) (Country (player state))
    (Hosted (player state)) (roundPot state) (pot state) (holeCards state)
    (chips state) (beginChips state) (acted state) (out state) (allin state)
    (canRaise state) (stand state) false (PlayDuration (player state)).

(** [PlayerState.UnmarshalJSON]; [registeredPlayer] is the package
    variable set by [RegisterPlayer] ([None] while it is nil), seen through
    its method [FromID]. *)
Definition PlayerState_UnmarshalJSON
    (registeredPlayer : option (Z -> result Player)) (tpJSON : PlayerStateJSON)
  : result PlayerState :=
  match registeredPlayer with
  | None =>
      Err (ErrOther "table: PlayerState json deserialization requires use of the RegisterPlayer function")
  | Some FromID =>
      match FromID (jID tpJSON) with
      | Ok p =>
          Ok (mkPlayerState p (jHoleCards tpJSON) (jPlayerChips tpJSON)
                (jBeginChips tpJSON) (jActed tpJSON) (jOut tpJSON)
                (jAllin tpJSON) (jCanRaise tpJSON) (jRoundPot tpJSON)
                (jPot tpJSON) (jStand tpJSON) (jStraddle tpJSON))
      | Err _ =>
          Err (ErrOther "table PlayerState json deserialization failed because of player FromID")
      | Panic => Panic
      | OutOfFuel => OutOfFuel
      end
  end.

(** [type tableJSON struct], cards in their text form. *)
Record tableJSON {Game : Type} := mktableJSON {
  jOptions : Config Game;
  jDeck : list string;
  jButton : Z;
  jAction : Z;
  jRound : Z;
  jMinRaise : Z;
  jBoard : list string;
  jPlayers : gmap string PlayerStateJSON;
  jTablePot : PotJSON;
  jSidePots : list PotJSON;
  jStartedHand : bool;
  jSmallBetSeat : Z;
  jBigBetSeat : Z;
  jUtgSeat : Z
}.
Arguments tableJSON : clear implicits.
Arguments mktableJSON {Game}.

Section table_json.
Context {Game : Type} `{!GameOps Game}.

(** [Table.MarshalJSON] *)
Definition Table_MarshalJSON (t : Table Game) : tableJSON Game :=
  let players :=
    map_fold
      (fun seat player (m : gmap string PlayerStateJSON) =>
         <[strconv.FormatInt seat := PlayerState_PlayerStateJSON player]> m)
      ∅ (players t) in
  mktableJSON (opts t) (hand.Card_String <$> deck t) (button t) (action t)
    (round t) (MinRaise t) (hand.Card_String <$> board t) players
    (Pot_PotJSON (tpot t)) (Pot_PotJSON <$> sidePots t) (startedHand t)
    (smallBetSeat t) (bigBetSeat t) (utgSeat t).

(** All elements of a list decoded in turn, stopping at the first error. *)
Fixpoint decodeAll {A B} (f : A -> result B) (l : list A) : result (list B) :=
  match l with
  | [] => Ok []
  | x :: rest => y ← f x; ys ← decodeAll f rest; Ok (y :: ys)
  end.

(** [Table.UnmarshalJSON] into the table [t0]; the fields that the
    snapshot does not carry keep their value. *)
Definition Table_UnmarshalJSON (registeredPlayer : option (Z -> result Player))
    (t0 : Table Game) (tJSON : tableJSON Game) : result (Table Game) :=
  deck ← decodeAll (hand.UnmarshalText (hand.mkCard EmptyString EmptyString)) (jDeck tJSON);
  board ← decodeAll (hand.UnmarshalText (hand.mkCard EmptyString EmptyString)) (jBoard tJSON);
  states ← map_fold
             (fun seat j (acc : result (gmap string PlayerState)) =>
                m ← acc;
                state ← PlayerState_UnmarshalJSON registeredPlayer j;
                Ok (<[seat := state]> m))
             (Ok ∅) (jPlayers tJSON);
  pot ← Pot_UnmarshalJSON (jTablePot tJSON);
  sidePots ← decodeAll Pot_UnmarshalJSON (jSidePots tJSON);
  players ← map_fold
              (fun seat player (acc : result (gmap Z PlayerState)) =>
                 m ← acc;
                 i ← strconv.ParseInt seat;
                 Ok (<[i := player]> m))
              (Ok ∅) states;
  Ok (mkTable (jOptions tJSON) deck (jButton tJSON) (jSmallBetSeat tJSON)
        (jBigBetSeat tJSON) (jUtgSeat tJSON) (jAction tJSON) (jRound tJSON)
        (jMinRaise tJSON) board players pot sidePots (jStartedHand tJSON)
        (showdown t0) (straddleSeats t0)).

End table_json.

(* ===================================================================== *)
(** * More of the table and of the cards                                 *)
(* ===================================================================== *)

(** [Table.payoutResults]: the chips of every result go to the stack of
    its seat; a result for a seat without player dereferences nil. *)
Definition payoutResults {Game Hand : Type} (t : Table Game)
    (resultsMap : gmap Z (list (Result Hand))) : result (Table Game) :=
  map_fold
    (fun seat results (acc : result (Table Game)) =>
       foldl
         (fun (acc : result (Table Game)) result =>
            t ← acc;
            match players t !! seat with
            | None => Panic
            | Some p =>
                Ok (set_players
                      (<[seat := set_chips (chips p + rChips result) p]>
                         (players t)) t)
            end)
         acc results)
    (Ok t) resultsMap.

Section hand_end.
Context {Game : Type} {Hand : Type} `{!HandOps Hand}.

(** The branch of [Table.Next] that ends a hand at the showdown (nobody in
    action, no round left): the pot is paid out to the stacks.
    [highHands], [lowHands] and [sorting] are what the game forms from the
    hole cards and the board; [payout] deletes the zero entries of the pot
    of the table. *)
Definition showdownRound (fuel : nat) (highHands lowHands : gmap Z (option Hand))
    (sorting : hand.Sorting) (t : Table Game)
  : result (Table Game * gmap Z (list (Result Hand))) :=
  let t := set_round (round t + 1) t in
  let t := resetRoundPot t in
  results ← payout fuel 0 t highHands lowHands sorting (button t) (tpot t);
  let t := set_tpot (SidePots (tpot t) (GetPlayerBeginChips t)).2 t in
  t ← payoutResults t results;
  let t := set_startedHand false t in
  let t := set_action (-1) t in
  Ok (showHoleCards t, results).

(** The branch of [Table.Next] taken when [EveryoneFolded] holds after an
    action: the first player met that is neither out nor standing takes
    the pot; [order] is the order in which the [range] loop visits the
    seats of the players.  With no such player nobody is paid. *)
Definition takePot (order : list Z) (t : Table Game)
  : result (Table Game * gmap Z (list (Result Hand))) :=
  let standing seat :=
    match players t !! seat with
    | Some player => negb (out player || stand player)
    | None => false
    end in
  match filter (fun seat => standing seat = true) order with
  | seat :: _ =>
      let results := take (tpot t) seat in
      t ← payoutResults t results;
      Ok (set_action (-1) (set_startedHand false t), results)
  | [] => Ok (set_action (-1) (set_startedHand false t), ∅)
  end.

End hand_end.

Section seating.
Context {Game : Type}.
Implicit Type t : Table Game.

(** [Table.isSeated] *)
Definition isSeated t (p : Player) : bool :=
  map_fold (fun _ pl found => found || (ID p =? ID (player pl))) false
           (players t).

(** [Table.Sit]; the checks of the buy-in are commented out in the
    source. *)
Definition Sit t (p : Player) (seat chips : Z) (straddle : bool)
  : result (Table Game) :=
  if negb (validSeat t seat) then Err ErrInvalidSeat
  else if isSeated t p then Err ErrAlreadySeated
  else
    match players t !! seat with
    | Some _ => Err ErrSeatOccupied
    | None =>
        Ok (set_players
              (<[seat := mkPlayerState p [] chips chips false false false
                           false 0 0 false straddle]> (players t)) t)
    end.

(** [Table.EmptySeats] *)
Definition EmptySeats t : list Z :=
  filter (fun seat => players t !! seat = None)
         (seqZ 0 (NumOfSeats (opts t))).

(** [Table.Stand]: the first player met with the identifier of [p] leaves;
    [order] is the order in which the [range] loop visits the seats. *)
Definition Table_Stand (order : list Z) t (p : Player) : Table Game :=
  match
    filter (fun seat =>
              match players t !! seat with
              | Some pl => ID (player pl) =? ID p
              | None => false
              end = true) order
  with
  | seat :: _ => set_players (delete seat (players t)) t
  | [] => t
  end.

End seating.

(* ===================================================================== *)
(** * Concrete instances used in the examples                            *)
(* ===================================================================== *)

Module examples.

(** Hands as their strength: the stronger hand is the larger number, and
    sorting in descending order puts the strongest first. *)
Definition strength_HandOps : HandOps Z := {|
  CompareTo := fun a b => a - b;
  hand_Sort := fun _ l => merge_sort (flip Z.le) l
|}.

(** A game with one variant, no forced bets and no cards dealt. *)
Definition plain_GameOps : GameOps unit := {|
  game_MaxSeats := fun _ => 10;
  game_NumOfRounds := fun _ => 4;
  game_BoardCards := fun _ deck _ => Ok ([], deck);
  game_HoleCards := fun _ deck _ => Ok ([], deck);
  game_ForcedBet := fun _ _ _ _ _ _ => 0;
  game_RoundStartSeat := fun _ _ _ => 1;
  game_FixedLimit := fun _ _ _ => 2
|}.

(** A game with blinds: before the flop the first seat after the button
    posts the small blind and the second one the big blind, and the seat
    after the big blind acts first. *)
Definition blinds_GameOps : GameOps unit := {|
  game_MaxSeats := fun _ => 10;
  game_NumOfRounds := fun _ => 4;
  game_BoardCards := fun _ deck _ => Ok ([], deck);
  game_HoleCards := fun _ deck _ => Ok ([], deck);
  game_ForcedBet := fun _ _ opts round _ pos =>
    if round =? 0 then
      if pos =? 1 then SmallBet (cfgStakes opts)
      else if pos =? 2 then BigBet (cfgStakes opts) else 0
    else 0;
  game_RoundStartSeat := fun _ holeCards round =>
    if round =? 0 then 3 mod Z.of_nat (size holeCards) else 1;
  game_FixedLimit := fun _ _ _ => 2
|}.

Definition stakes12 : Stakes := mkStakes 1 2 0 false.

Definition seated (id chips : Z) : PlayerState :=
  mkPlayerState (mkPlayer id EmptyString EmptyString false 0) [] chips chips
    false false false false 0 0 false false.

(** A table of [n] seats with the given players and pot. *)
Definition tableOf (n : Z) (lim : Limit) (ps : list (Z * PlayerState))
    (contribs : list (Z * Z)) : Table unit :=
  mkTable (mkConfig tt lim stakes12 n) [] 0 0 0 0 (-1) 0 0 []
    (list_to_map ps) (pot_of_list contribs) [] true false [].

(** Seat 1 holds 100 chips, may raise, and faces the 10 chips of seat 2. *)
Definition raiser : PlayerState := set_canRaise true (seated 1 100).

Definition tableFacingBet : Table unit :=
  set_action 1
    (tableOf 6 NoLimit [(1, raiser); (2, set_chips 90 (seated 2 100))] [(2, 10)]).

(** Between two rounds nobody is in action. *)
Definition tableBetweenRounds : Table unit :=
  tableOf 6 NoLimit [(1, seated 1 100); (2, seated 2 100)] [(1, 2); (2, 2)].

(** The player in action has folded. *)
Definition tableFolded : Table unit :=
  set_action 1
    (tableOf 6 NoLimit [(1, set_out true (seated 1 100)); (2, seated 2 100)]
             [(2, 10)]).

(** On the flop seat 2 has bet 20 and seat 3 has called; seat 1, with 25
    chips left, is in action. *)
Definition shortStack : PlayerState := set_canRaise true (seated 1 25).
Definition bettor : PlayerState :=
  set_acted true (set_pot 20 (set_roundPot 20 (set_chips 80 (seated 2 100)))).
Definition caller : PlayerState :=
  set_acted true (set_pot 20 (set_roundPot 20 (set_chips 80 (seated 3 100)))).

Definition tableShortAllin : Table unit :=
  set_minRaise 20
    (set_round 1
       (set_action 1
          (tableOf 6 NoLimit [(1, shortStack); (2, bettor); (3, caller)]
                   [(1, 0); (2, 20); (3, 20)]))).

(** Three players of 100 chips before their first hand. *)
Definition tableOfThree : Table unit :=
  mkTable (mkConfig tt NoLimit stakes12 6) [] 0 0 0 0 (-1) 0 0 []
    (list_to_map [(1, seated 1 100); (2, seated 2 100); (3, seated 3 100)])
    (newPot 6) [] false false [].

(** The same table after the start of the hand, with the blinds of the
    seats 2 and 3 posted, and after the call of seat 1. *)
Definition tableStarted : Table unit :=
  match startHand (GameOps0 := blinds_GameOps) 10 [1; 2; 3] [] tableOfThree with
  | Ok t => t
  | _ => tableOfThree
  end.

Definition tableAfterCall : Table unit :=
  match playAction (GameOps0 := blinds_GameOps) tableStarted Call 0 with
  | Ok t => t
  | _ => tableStarted
  end.

(** A split pot: the seats 1 and 2 are in, seat 1 holds the best high
    hand and seat 2 the only low hand. *)
Definition tableHiLo : Table unit :=
  tableOf 6 NoLimit [(1, seated 1 100); (2, seated 2 100)] [].
Definition highHands : gmap Z (option Z) := list_to_map [(1, Some 9); (2, Some 3)].
Definition lowHands : gmap Z (option Z) := list_to_map [(1, None); (2, Some 5)].

(** The table into which a snapshot is read, [&Table{}], and the
    registered player, whose [FromID] makes a player of the identifier. *)
Definition emptyTable : Table unit :=
  mkTable (mkConfig tt NoLimit (mkStakes 0 0 0 false) 0) [] 0 0 0 0 0 0 0 []
    ∅ (mkPot ∅) [] false false [].
Definition registered : option (Z -> result Player) :=
  Some (fun id => Ok (mkPlayer id EmptyString EmptyString false 0)).

(** Two tied winners, on the seats 2 and 3. *)
Definition winners23 : gmap Z (option Z) :=
  list_to_map [(2, Some 7); (3, Some 7)].

Definition chipsOf {Hand} (rs : gmap Z (list (Result Hand))) (seat : Z) : list Z :=
  rChips <$> default [] (rs !! seat).

(** Winners on seats outside the ring of ten seats that the remainder loop
    walks. *)
Definition winnersFar : gmap Z (option Z) :=
  list_to_map [(10, Some 7); (11, Some 7)].

(** Three players with the stacks of scenario S3 and hands of strength 4,
    8 and 6; none has a low hand. *)
Definition tableThreePots : Table unit :=
  examples.tableOf 9 NoLimit
    [(0, examples.seated 10 5); (1, examples.seated 11 20);
     (2, examples.seated 12 100)] [].
Definition handsThree : gmap Z (option Z) :=
  list_to_map [(0, Some 4); (1, Some 8); (2, Some 6)].
Definition noLowHands : gmap Z (option Z) :=
  list_to_map [(0, None); (1, None); (2, None)].
Definition resultsThree : gmap Z (list (Result Z)) :=
  list_to_map [(1, [mkResult 0 (Some 8) 15 WonHigh; mkResult 1 (Some 8) 30 WonHigh]);
               (2, [mkResult 2 (Some 6) 30 WonHigh])].

(** The table of scenario S3 at the showdown: the seats 0 and 1 are all
    in, seat 2 has 50 chips left, and nobody is in action. *)
Definition tableAtShowdown : Table unit :=
  set_round 3
    (examples.tableOf 9 NoLimit
       [(0, set_allin true (set_chips 0 (examples.seated 10 5)));
        (1, set_allin true (set_chips 0 (examples.seated 11 20)));
        (2, set_chips 50 (examples.seated 12 100))]
       [(0, 5); (1, 20); (2, 50)]).

End examples.

(* ===================================================================== *)
(** * Vocabulary of the statements                                       *)
(* ===================================================================== *)

(** Sum of a list of integers. *)
Definition Zsum (l : list Z) : Z := foldr Z.add 0 l.

(** What a seat that has contributed [chips] puts into the bucket of the
    amount [a] that follows [last]: the two branches of the first loop of
    [SidePots]. *)
Definition bucketShare (last a chips : Z) : option Z :=
  if (chips >? last) && (chips >=? a) then Some (a - last)
  else if (chips >? last) && (chips <? a) then Some (chips - last)
  else None.

(** The chips of [seat] over a list of pots, and the chips of the pots. *)
Definition seatTotal (pots : list Pot) (seat : Z) : Z :=
  Zsum ((fun sp => get (contributions sp) seat) <$> pots).

Definition potsTotal (pots : list Pot) : Z := Zsum (Chips <$> pots).

(** What such a seat puts into the buckets of [amounts] altogether. *)
Fixpoint shareSum (last : Z) (amounts : list Z) (chips : Z) : Z :=
  match amounts with
  | [] => 0
  | a :: rest => default 0 (bucketShare last a chips) + shareSum a rest chips
  end.

(** ** The side pots in the words of the specification

    Step 1: the distinct non-zero contribution levels, ascending. *)
Definition levels_of (p : Pot) (L : list Z) : Prop :=
  StronglySorted Z.lt L
  /\ forall a, a ∈ L <-> a <> 0 /\ exists seat, contributions p !! seat = Some a.

(** Step 2: in the bucket of [level], which follows [prev], a seat with a
    contribution of at least [level] puts in [level - prev], and a seat
    with a contribution strictly between the two puts in what exceeds
    [prev]. *)
Definition specShare (prev level c : Z) : option Z :=
  if level <=? c then Some (level - prev)
  else if (prev <? c) && (c <? level) then Some (c - prev)
  else None.

Definition specBucket (prev level : Z) (p : Pot) : Pot :=
  mkPot (omap (specShare prev level) (contributions p)).

Fixpoint specBuckets (prev : Z) (L : list Z) (p : Pot) : list (Z * Pot) :=
  match L with
  | [] => []
  | level :: rest => (level, specBucket prev level p) :: specBuckets level rest p
  end.

(** Step 3: a bucket holds a true all-in when one of its seats has put
    in, up to the level of the bucket, exactly its begin chips. *)
Definition trueAllIn (playerBeginChips : gmap Z Z) (p : Pot) (level : Z)
    (b : Pot) : bool :=
  existsb
    (fun '(seat, _) =>
       Z.min (get (contributions p) seat) level =? get playerBeginChips seat)
    (map_to_list (contributions b)).

(** Two pots folded into one: the contributions add up seat by seat. *)
Definition potSum (a b : Pot) : Pot :=
  mkPot (union_with (fun x y => Some (x + y)) (contributions a) (contributions b)).

(** A bucket opens a side pot of its own when the bucket before it holds
    a true all-in, and is folded into the pot before it otherwise. *)
Fixpoint specGroup (playerBeginChips : gmap Z Z) (p : Pot) (current : Pot)
    (currentAllIn : bool) (rest : list (Z * Pot)) : list Pot :=
  match rest with
  | [] => [current]
  | (level, b) :: rest' =>
      if currentAllIn
      then current
           :: specGroup playerBeginChips p b
                (trueAllIn playerBeginChips p level b) rest'
      else specGroup playerBeginChips p (potSum current b)
             (trueAllIn playerBeginChips p level b) rest'
  end.

Definition SidePots_spec (p : Pot) (playerBeginChips : gmap Z Z) (L : list Z)
  : list Pot :=
  match specBuckets 0 L p with
  | [] => []
  | (level, b) :: rest =>
      specGroup playerBeginChips p b (trueAllIn playerBeginChips p level b) rest
  end.

(** What the seats have put into the pots kept so far, up to [prev]. *)
Definition upTo (p : Pot) (prev : Z) (sidePots : list Pot) : Prop :=
  forall seat, seatTotal sidePots seat = Z.min (get (contributions p) seat) prev.

(** The pot of a table of [n] seats after the given contributions. *)
Definition potAfter (n : Z) (l : list (Z * Z)) : result Pot :=
  foldl (fun r '(seat, chips) => p ← r; contribute p seat chips)
        (Ok (newPot n)) l.

(** No seat has a negative contribution. *)
Definition nonnegative (p : Pot) : Prop :=
  forall seat chips, contributions p !! seat = Some chips -> 0 <= chips.

(** ** The remainder of a split

    [offset button seat] is the number of steps from [button] up to
    [seat] around a ring of ten seats; [rankFrom button winners seat]
    counts the winners that come before [seat] when the ring is walked
    from the button seat itself. *)
Definition offset (button seat : Z) : Z := (seat - button) mod 10.

Definition seatsBefore (button : Z) (ws : list Z) (o : Z) : Z :=
  Z.of_nat (length (filter (fun w => offset button w < o) ws)).

Section remainder_vocabulary.
Context {Hand : Type}.

Definition rankFrom (button : Z) (winners : gmap Z (option Hand)) (seat : Z) : Z :=
  seatsBefore button (map_to_list winners).*1 (offset button seat).

(** One more chip on the first result of a seat. *)
Definition bump (l : list (Result Hand)) : list (Result Hand) :=
  match l with
  | r :: rs => mkResult (PotNo r) (rHand r) (rChips r + 1) (rShare r) :: rs
  | [] => []
  end.

(** The reading of the specification: the walk starts at the first seat
    strictly after the button and wraps at the seat count, and each of the
    first [chips mod n] winners met gets one chip on top of [chips / n]. *)
Definition rankAfter (numOfSeats button : Z) (winners : gmap Z (option Hand))
    (seat : Z) : Z :=
  Z.of_nat
    (length
       (filter (fun w => (w - button - 1) mod numOfSeats
                         < (seat - button - 1) mod numOfSeats)
               (map_to_list winners).*1)).

Definition remainder_after_button (numOfSeats : Z)
    (fuel : nat) (potNo : Z) (winners : gmap Z (option Hand))
    (chips button : Z) (f : Z -> Share) : Prop :=
  let n := Z.of_nat (size winners) in
  exists results,
    resultsFromWinners fuel potNo winners chips button f = Ok results
    /\ forall seat hand,
         winners !! seat = Some hand ->
         results !! seat
         = Some [mkResult potNo hand
                   (chips / n
                    + if decide (rankAfter numOfSeats button winners seat
                                 < chips mod n)
                      then 1 else 0)
                   (f n)].

End remainder_vocabulary.

(** ** The no-reopen rule as the specification words it

    A raise of [seat] to [n] whose increment over the call is below the
    minimum raise leaves [acted] set on every other player that has
    acted. *)
Definition short_allin_keeps_acted {Game : Type} `{!GameOps Game}
    (t : Table Game) (seat n : Z) : Prop :=
  forall p t',
    players t !! seat = Some p ->
    n - roundPot p - Outstanding t < minRaise t ->
    handleAction t seat Raise n = Ok t' ->
    forall s q,
      s <> seat -> players t !! s = Some q -> acted q = true ->
      exists q', players t' !! s = Some q' /\ acted q' = true.

(** ** Chips in play *)

Definition stackSum (ps : gmap Z PlayerState) : Z :=
  map_fold (fun _ p sum => sum + chips p) 0 ps.

Definition beginSum (ps : gmap Z PlayerState) : Z :=
  map_fold (fun _ p sum => sum + beginChips p) 0 ps.

(** The stacks of the seated players and the pot together. *)
Definition chipsInPlay {Game : Type} (t : Table Game) : Z :=
  stackSum (players t) + Chips (tpot t).

(** The tables [t] and [t'] hold the same chips in play and the same
    begin chips. *)
Definition sameChips {Game : Type} (t t' : Table Game) : Prop :=
  chipsInPlay t' = chipsInPlay t
  /\ beginSum (players t') = beginSum (players t).

(** A step of a started hand: a round is set up, with its forced bets and
    straddles, or the player in action folds, checks, calls, bets or
    raises. *)
Inductive hand_step {Game : Type} `{!GameOps Game} : relation (Table Game) :=
| step_round fuel order t t' :
    startedHand t = true -> action t = -1 ->
    round t + 1 <> game_NumOfRounds (tgame t) ->
    nextRound fuel order t = Ok t' ->
    hand_step t t'
| step_action a n t t' :
    startedHand t = true -> action t <> -1 ->
    playAction t a n = Ok t' ->
    hand_step t t'.

(** The prefixes and the substrings of a string: what [strings.HasPrefix]
    and [strings.Contains] accept. *)
Fixpoint prefixes (s : string) : list string :=
  EmptyString ::
  match s with
  | EmptyString => []
  | String a s' => String a <$> prefixes s'
  end.

Fixpoint substrings (s : string) : list string :=
  prefixes s ++
  match s with
  | EmptyString => []
  | String _ s' => substrings s'
  end.

(** The texts of the card format: a rank followed by a suit. *)
Definition cardText (text : string) (r : hand.Rank) (s : hand.Suit) : Prop :=
  r ∈ hand.allRanks /\ s ∈ hand.allSuits /\ text = (r ++ s)%string.

(** The largest contribution of a ledger, at least 0: the variable [most]
    of [Pot.Outstanding]. *)
Definition most (m : gmap Z Z) : Z :=
  map_fold (fun _ chips most => if chips >? most then chips else most) 0 m.

(** A pot that holds a seat, and chips of every seat it holds. *)
Definition positivePot (sp : Pot) : Prop :=
  contributions sp <> ∅
  /\ forall seat chips, contributions sp !! seat = Some chips -> 0 < chips.

(** The chips of a list of results, and of the results of all seats. *)
Definition awards {Hand : Type} (l : list (Result Hand)) : Z :=
  Zsum (rChips <$> l).

Definition resultsTotal {Hand : Type} (rs : gmap Z (list (Result Hand))) : Z :=
  map_fold (fun _ l total => total + awards l) 0 rs.

Definition seatAwards {Hand : Type} (rs : gmap Z (list (Result Hand)))
    (seat : Z) : Z :=
  awards (default [] (rs !! seat)).

(** The integers of 64 bits: the values of a Go [int] and [int64]. *)
Definition int64 (i : Z) : Prop := - 2 ^ 63 <= i < 2 ^ 63.




(** Some player of the table has the identifier [id]. *)
Definition seatedId {Game : Type} (t : Table Game) (id : Z) : Prop :=
  exists seat pl, players t !! seat = Some pl /\ ID (player pl) = id.

(** The test of [Table.nextSeat] on a seat: a player sits there and, when
    a player still to act is wanted, is neither out nor all in and has
    not acted. *)
Definition canTake (ps : gmap Z PlayerState) (playing : bool) (seat : Z) : bool :=
  match ps !! seat with
  | Some p => negb playing || (negb (out p) && negb (allin p) && negb (acted p))
  | None => false
  end.

(** The functions on player states that move no chips. *)
Class KeepsChips (f : PlayerState -> PlayerState) : Prop :=
  keeps_chips : forall p, chips (f p) = chips p /\ beginChips (f p) = beginChips p.

(* ===================================================================== *)
(** * Properties of the pot ledger                                       *)
(* ===================================================================== *)

(** Case analysis on the integer comparisons of a goal. *)
Ltac zcases :=
  rewrite ?Z.gtb_ltb, ?Z.geb_leb;
  repeat match goal with
         | |- context [?a <? ?b] => destruct (Z.ltb_spec a b)
         | |- context [?a <=? ?b] => destruct (Z.leb_spec a b)
         | |- context [?a =? ?b] => destruct (Z.eqb_spec a b)
         end;
  simpl; try (reflexivity || lia || congruence).

Lemma Zsum_cons x l : Zsum (x :: l) = x + Zsum l.
Proof. reflexivity. Qed.

Lemma Zsum_fmap_cons {A} (g : A -> Z) x l :
  Zsum (g <$> x :: l) = g x + Zsum (g <$> l).
Proof. reflexivity. Qed.

Lemma Zsum_fmap_snoc {A} (g : A -> Z) l x :
  Zsum (g <$> l ++ [x]) = Zsum (g <$> l) + g x.
Proof.
  induction l as [|y l IH]; [rewrite app_nil_l, Zsum_fmap_cons; simpl; lia|].
  rewrite <- app_comm_cons, !Zsum_fmap_cons, IH. lia.
Qed.

Lemma Zsum_app l1 l2 : Zsum (l1 ++ l2) = Zsum l1 + Zsum l2.
Proof. induction l1 as [|x l1 IH]; simpl; lia. Qed.

Section pot_facts.
Implicit Types (m c : gmap Z Z) (p : Pot) (seat : Z).

Lemma get_empty seat : get ∅ seat = 0.
Proof. unfold get. by rewrite lookup_empty. Qed.

Lemma get_insert m k v seat :
  get (<[k := v]> m) seat = if decide (k = seat) then v else get m seat.
Proof.
  unfold get. rewrite lookup_insert. by case_decide.
Qed.

Lemma get_None m seat : m !! seat = None -> get m seat = 0.
Proof. unfold get. by intros ->. Qed.

Lemma get_Some m seat v : m !! seat = Some v -> get m seat = v.
Proof. unfold get. by intros ->. Qed.

(** ** Chips *)

Lemma Chips_empty : Chips (mkPot ∅) = 0.
Proof. unfold Chips. simpl. by rewrite map_fold_empty. Qed.

Lemma Chips_insert_None m k v :
  m !! k = None -> Chips (mkPot (<[k := v]> m)) = Chips (mkPot m) + v.
Proof.
  intros Hk. unfold Chips. simpl.
  rewrite map_fold_insert_L; [done | intros; lia | done].
Qed.

Lemma Chips_lookup_Some m k x :
  m !! k = Some x -> Chips (mkPot m) = Chips (mkPot (delete k m)) + x.
Proof.
  intros Hk. rewrite <- (insert_delete_id m k x Hk) at 1.
  apply Chips_insert_None, lookup_delete_eq.
Qed.

Lemma Chips_delete m k :
  Chips (mkPot (delete k m)) = Chips (mkPot m) - get m k.
Proof.
  destruct (m !! k) as [x|] eqn:Hk.
  - rewrite (Chips_lookup_Some m k x Hk), (get_Some _ _ _ Hk). lia.
  - rewrite delete_id by done. rewrite get_None by done. lia.
Qed.

Lemma Chips_insert m k v :
  Chips (mkPot (<[k := v]> m)) = Chips (mkPot m) - get m k + v.
Proof.
  rewrite <- insert_delete_eq.
  rewrite Chips_insert_None by apply lookup_delete_eq.
  rewrite Chips_delete. lia.
Qed.

Lemma Chips_mkPot p : Chips (mkPot (contributions p)) = Chips p.
Proof. by destruct p. Qed.

Lemma Chips_zero m : (forall k, get m k = 0) -> Chips (mkPot m) = 0.
Proof.
  induction m as [|i x m Hi IH] using map_ind; intros Hz.
  - apply Chips_empty.
  - rewrite Chips_insert_None by done.
    pose proof (Hz i) as Hx. rewrite get_insert, decide_True in Hx by done.
    rewrite IH; [lia|]. intros k. specialize (Hz k).
    rewrite get_insert in Hz. case_decide; [subst; by apply get_None | done].
Qed.

(** The chips of a pot are determined by what each seat has put in. *)
Lemma Chips_ext m c :
  (forall k, get m k = get c k) -> Chips (mkPot m) = Chips (mkPot c).
Proof.
  revert c. induction m as [|i x m Hi IH] using map_ind; intros c Heq.
  - rewrite Chips_empty. symmetry. apply Chips_zero.
    intros k. rewrite <- Heq. apply get_empty.
  - rewrite Chips_insert_None by done.
    rewrite (IH (delete i c)).
    + rewrite Chips_delete. rewrite <- Heq, get_insert, decide_True by done. lia.
    + intros k. unfold get at 2. rewrite lookup_delete.
      case_decide as Hk.
      * subst. by rewrite get_None.
      * simpl. specialize (Heq k). rewrite get_insert, decide_False in Heq by done.
        done.
Qed.

Lemma Chips_add m a b :
  (forall k, get m k = get a k + get b k) ->
  Chips (mkPot m) = Chips (mkPot a) + Chips (mkPot b).
Proof.
  revert m. induction a as [|i x a Hi IH] using map_ind; intros m Heq.
  - rewrite Chips_empty. rewrite (Chips_ext m b); [lia|].
    intros k. rewrite Heq, get_empty. lia.
  - rewrite Chips_insert_None by done.
    assert (IH' : Chips (mkPot (<[i := get m i - x]> m))
                  = Chips (mkPot a) + Chips (mkPot b)); [|rewrite Chips_insert in IH'; lia].
    apply IH.
    intros k. rewrite get_insert. case_decide as Hk.
    + subst. rewrite Heq, get_insert, decide_True by done.
      rewrite (get_None a) by done. lia.
    + rewrite Heq, get_insert, decide_False by done. done.
Qed.

(** ** The loops of [SidePots] as map operations *)

Lemma bucket_contributions last a p :
  contributions (bucket last a p) = omap (bucketShare last a) (contributions p).
Proof.
  unfold bucket. simpl.
  apply (map_fold_weak_ind
           (fun r m => r = omap (bucketShare last a) m)).
  - by rewrite omap_empty.
  - intros i x m r Hi ->. rewrite omap_insert.
    assert (Hd : delete i (omap (bucketShare last a) m)
                 = omap (bucketShare last a) m).
    { apply delete_id. by rewrite lookup_omap, Hi. }
    change (bucketShare last a x)
      with (if (x >? last) && (x >=? a) then Some (a - last)
            else if (x >? last) && (x <? a) then Some (x - last) else None).
    destruct ((x >? last) && (x >=? a)); [done|].
    destruct ((x >? last) && (x <? a)); [done|]. by rewrite Hd.
Qed.

Lemma bucket_get last a p seat :
  get (contributions (bucket last a p)) seat
  = match contributions p !! seat with
    | Some chips => default 0 (bucketShare last a chips)
    | None => 0
    end.
Proof.
  rewrite bucket_contributions. unfold get. rewrite lookup_omap.
  by destruct (contributions p !! seat).
Qed.

Lemma foldInto_get prev pot seat :
  get (contributions (foldInto prev pot)) seat
  = get (contributions prev) seat + get (contributions pot) seat.
Proof.
  unfold foldInto. simpl. revert seat.
  apply (map_fold_weak_ind
           (fun r m => forall seat,
                get r seat = get (contributions prev) seat + get m seat)).
  - intros seat. rewrite get_empty. lia.
  - intros i x m r Hi IH seat. rewrite !get_insert. case_decide.
    + subst. rewrite IH, (get_None m) by done. lia.
    + apply IH.
Qed.

Lemma foldInto_Chips prev pot :
  Chips (foldInto prev pot) = Chips prev + Chips pot.
Proof.
  rewrite <- (Chips_mkPot (foldInto prev pot)), <- (Chips_mkPot prev),
    <- (Chips_mkPot pot).
  apply Chips_add. apply foldInto_get.
Qed.

(** ** The amounts of [sidePotAmounts] *)

Lemma found_spec amounts chips b :
  foldl (fun found a => found || (a =? chips)) b amounts = true
  <-> b = true \/ chips ∈ amounts.
Proof.
  revert b. induction amounts as [|a amounts IH]; intros b; simpl.
  - rewrite elem_of_nil. tauto.
  - rewrite IH, elem_of_cons, orb_true_iff, Z.eqb_eq. intuition congruence.
Qed.

Lemma sidePotAmounts_fold c0 m :
  let r :=
    map_fold
      (fun seat chips '(amounts, contribs) =>
         if chips =? 0 then (amounts, delete seat contribs)
         else
           let found :=
             foldl (fun found a => found || (a =? chips)) false amounts in
           if negb found then (amounts ++ [chips], contribs)
           else (amounts, contribs))
      ([], c0) m in
  NoDup r.1
  /\ (forall a, a ∈ r.1 <-> a <> 0 /\ exists k, m !! k = Some a)
  /\ (forall k, m !! k = Some 0 -> r.2 !! k = None)
  /\ (forall k, m !! k <> Some 0 -> r.2 !! k = c0 !! k).
Proof.
  cbv zeta.
  apply (map_fold_weak_ind
           (fun (r : list Z * gmap Z Z) (m : gmap Z Z) =>
              NoDup r.1
              /\ (forall a, a ∈ r.1 <-> a <> 0 /\ exists k, m !! k = Some a)
              /\ (forall k, m !! k = Some 0 -> r.2 !! k = None)
              /\ (forall k, m !! k <> Some 0 -> r.2 !! k = c0 !! k))).
  - simpl. split; [constructor|]. split; [|split].
    + intros a. rewrite elem_of_nil. split; [done|].
      intros [_ [k Hk]]. by rewrite lookup_empty in Hk.
    + intros k. by rewrite lookup_empty.
    + done.
  - intros i x m' [amounts contribs] Hi (Hnd & Hin & Hc0 & Hc). simpl in *.
    assert (Hother : forall a, (exists k, <[i:=x]> m' !! k = Some a)
                               <-> a = x \/ exists k, m' !! k = Some a).
    { intros a. split.
      - intros [k Hk]. rewrite lookup_insert in Hk.
        case_decide; [left; congruence | right; eauto].
      - intros [->|[k Hk]]; [exists i; by rewrite lookup_insert_eq|].
        exists k. rewrite lookup_insert_ne; [done|congruence]. }
    destruct (Z.eqb_spec x 0) as [->|Hx]; simpl.
    + split; [done|]. split; [|split].
      * intros a. rewrite Hin, Hother. naive_solver.
      * intros k. rewrite lookup_delete, lookup_insert.
        case_decide; [done|]. apply Hc0.
      * intros k. rewrite lookup_delete, lookup_insert.
        case_decide; [done|]. apply Hc.
    + assert (Hrest : (forall k, <[i:=x]> m' !! k = Some 0 -> contribs !! k = None)
                      /\ (forall k, <[i:=x]> m' !! k <> Some 0
                                    -> contribs !! k = c0 !! k)).
      { split; intros k; rewrite lookup_insert; case_decide as Hk.
        - congruence.
        - apply Hc0.
        - intros _. subst. apply Hc. congruence.
        - apply Hc. }
      destruct (foldl _ false amounts) eqn:Hf; simpl.
      * apply found_spec in Hf as [Hf|Hf]; [done|].
        split; [done|]. split; [|done].
        intros a. rewrite Hin, Hother. apply Hin in Hf. naive_solver.
      * assert (x ∉ amounts) as Hnin.
        { intros Hin'.
          assert (foldl (fun found a => found || (a =? x)) false amounts = true)
            as Ht by (apply found_spec; by right).
          congruence. }
        split; [|split; [|done]].
        -- apply NoDup_app. split; [done|]. split; [|apply NoDup_singleton].
           intros y Hy Hy'. apply list_elem_of_singleton in Hy'. by subst.
        -- intros a. rewrite elem_of_app, list_elem_of_singleton, Hin, Hother.
           naive_solver.
Qed.

Lemma sidePotAmounts_spec p :
  let '(amounts, p') := sidePotAmounts p in
  StronglySorted Z.lt amounts
  /\ (forall a, a ∈ amounts <-> a <> 0 /\ exists k, contributions p !! k = Some a)
  /\ (forall k, contributions p !! k = Some 0 -> contributions p' !! k = None)
  /\ (forall k, contributions p !! k <> Some 0
                -> contributions p' !! k = contributions p !! k).
Proof.
  unfold sidePotAmounts.
  pose proof (sidePotAmounts_fold (contributions p) (contributions p)) as H.
  cbv zeta in H. destruct (map_fold _ _ _) as [amounts contribs].
  simpl in H. destruct H as (Hnd & Hin & Hc0 & Hc). split; [|split; [|split]].
  - assert (Hs : StronglySorted Z.le (merge_sort Z.le amounts))
      by apply (StronglySorted_merge_sort _).
    assert (Hn : NoDup (merge_sort Z.le amounts))
      by (by rewrite merge_sort_Permutation).
    revert Hs Hn. generalize (merge_sort Z.le amounts). intros l Hs.
    induction Hs as [|x l Hs IH Hall]; intros Hn; [constructor|].
    apply NoDup_cons in Hn as [Hx Hn]. constructor; [by apply IH|].
    rewrite Forall_forall in Hall |- *. intros y Hy.
    specialize (Hall y Hy). assert (x <> y) by (intros ->; done). lia.
  - intros a. rewrite merge_sort_Permutation. apply Hin.
  - simpl. apply Hc0.
  - simpl. apply Hc.
Qed.

(** The non-zero entries stay, so no contribution changes. *)
Lemma sidePotAmounts_get p seat :
  get (contributions (sidePotAmounts p).2) seat = get (contributions p) seat.
Proof.
  pose proof (sidePotAmounts_spec p) as H.
  destruct (sidePotAmounts p) as [amounts p']. destruct H as (_ & _ & Hc0 & Hc).
  simpl. unfold get.
  destruct (decide (contributions p !! seat = Some 0)) as [Hz|Hz].
  - by rewrite (Hc0 _ Hz), Hz.
  - by rewrite (Hc _ Hz).
Qed.

(** ** The buckets hold every contribution once *)

Lemma shareSum_spec amounts last chips :
  StronglySorted Z.lt (last :: amounts) ->
  (chips <= last -> shareSum last amounts chips = 0)
  /\ (chips ∈ amounts -> shareSum last amounts chips = chips - last).
Proof.
  revert last. induction amounts as [|a rest IH]; intros last Hs.
  - split; [done|]. intros H. by apply elem_of_nil in H.
  - apply StronglySorted_inv in Hs as [Hs Hall].
    destruct (IH a Hs) as [IH0 IH1].
    apply Forall_cons in Hall as [Hla Hall].
    apply StronglySorted_inv in Hs as [_ Hrest].
    simpl. unfold bucketShare. split.
    + intros Hle. rewrite IH0 by lia. zcases.
    + intros [->|Hin]%elem_of_cons.
      * rewrite IH0 by lia. zcases.
      * rewrite IH1 by done. rewrite Forall_forall in Hrest.
        specialize (Hrest _ Hin). zcases.
Qed.

Lemma seatTotal_cons sp pots seat :
  seatTotal (sp :: pots) seat = get (contributions sp) seat + seatTotal pots seat.
Proof. reflexivity. Qed.

Lemma buckets_seatTotal amounts last p seat :
  seatTotal (buckets last amounts p) seat
  = match contributions p !! seat with
    | Some chips => shareSum last amounts chips
    | None => 0
    end.
Proof.
  revert last. induction amounts as [|a rest IH]; intros last.
  - by destruct (contributions p !! seat).
  - cbn [buckets shareSum]. rewrite seatTotal_cons, IH, bucket_get.
    by destruct (contributions p !! seat).
Qed.

Lemma alter_last {A} (f : A -> A) (l : list A) (x : A) :
  alter f (length (l ++ [x]) - 1)%nat (l ++ [x]) = l ++ [f x].
Proof.
  rewrite length_app. simpl.
  replace (length l + 1 - 1)%nat with (length l + 0)%nat by lia.
  by rewrite alter_app_r.
Qed.

(** Whatever is additive over [foldInto] is kept by the second loop. *)
Lemma mergeBuckets_total (g : Pot -> Z) begin pots :
  (forall prev pot, g (foldInto prev pot) = g prev + g pot) ->
  forall i sidePots lastAllIn,
    i = 0%nat \/ sidePots <> [] ->
    Zsum (g <$> mergeBuckets begin i pots sidePots lastAllIn)
    = Zsum (g <$> sidePots) + Zsum (g <$> pots).
Proof.
  intros Hg. induction pots as [|pot rest IH]; intros i sidePots lastAllIn Hi.
  - cbn [mergeBuckets]. simpl. lia.
  - cbn [mergeBuckets]. rewrite IH.
    + destruct (lastAllIn || lastAllIn && hasAllin begin sidePots pot
                || Nat.eqb i 0) eqn:Hc.
      * rewrite Zsum_fmap_snoc, Zsum_fmap_cons. lia.
      * destruct Hi as [->|Hne]; [by rewrite orb_true_r in Hc|].
        destruct sidePots as [|x l _] using rev_ind; [done|].
        rewrite alter_last, !Zsum_fmap_snoc, Zsum_fmap_cons, Hg. lia.
    + right. destruct (_ || _ || _) eqn:Hc.
      * by destruct sidePots.
      * destruct Hi as [->|Hne]; [by rewrite orb_true_r in Hc|].
        destruct sidePots as [|x l _] using rev_ind; [done|].
        rewrite alter_last. by destruct l.
Qed.

Lemma potsTotal_cons sp pots :
  potsTotal (sp :: pots) = Chips sp + potsTotal pots.
Proof. reflexivity. Qed.

Lemma potsTotal_ext pots c :
  (forall k, seatTotal pots k = get c k) -> potsTotal pots = Chips (mkPot c).
Proof.
  revert c. induction pots as [|sp rest IH]; intros c Hc.
  - symmetry. apply Chips_zero. intros k. by rewrite <- Hc.
  - set (c' := merge (fun oa ob => Some (default 0 oa - default 0 ob))
                     c (contributions sp)).
    assert (Hc' : forall k, get c' k = get c k - get (contributions sp) k).
    { intros k. unfold get, c'. rewrite lookup_merge.
      by destruct (c !! k), (contributions sp !! k). }
    rewrite potsTotal_cons, (IH c').
    + rewrite <- (Chips_mkPot sp). symmetry. apply Chips_add.
      intros k. rewrite Hc'. lia.
    + intros k. rewrite Hc', <- Hc, seatTotal_cons. lia.
Qed.

(** ** The side pots of the code are those of the specification *)

Lemma StronglySorted_lt_NoDup (l : list Z) : StronglySorted Z.lt l -> NoDup l.
Proof.
  induction 1 as [|x l Hs IH Hall]; constructor; [|done].
  intros Hx. rewrite Forall_forall in Hall. specialize (Hall _ Hx). lia.
Qed.

Lemma levels_of_unique p L :
  levels_of p L -> (sidePotAmounts p).1 = L.
Proof.
  intros [HsL HinL]. pose proof (sidePotAmounts_spec p) as H.
  destruct (sidePotAmounts p) as [amounts p']. destruct H as (Hs & Hin & _).
  simpl. apply (StronglySorted_unique_strong Z.lt); [intros; lia|done..|].
  apply NoDup_Permutation; [by apply StronglySorted_lt_NoDup..|].
  intros a. by rewrite Hin, HinL.
Qed.

Lemma bucket_specBucket p last a :
  nonnegative p -> 0 <= last -> last < a ->
  bucket last a (sidePotAmounts p).2 = specBucket last a p.
Proof.
  intros Hnn Hl Hla. pose proof (sidePotAmounts_spec p) as H.
  destruct (sidePotAmounts p) as [amounts p']. destruct H as (_ & _ & Hc0 & Hc).
  simpl. pose proof (bucket_contributions last a p') as Hb.
  destruct (bucket last a p') as [c]. simpl in Hb. subst c.
  unfold specBucket. f_equal. apply map_eq. intros k. rewrite !lookup_omap.
  destruct (decide (contributions p !! k = Some 0)) as [Hz|Hz].
  - rewrite (Hc0 _ Hz), Hz. simpl. unfold specShare. zcases.
  - rewrite (Hc _ Hz). destruct (contributions p !! k) as [c|] eqn:Hk; [|done].
    simpl. unfold bucketShare, specShare. zcases.
Qed.

Lemma foldInto_potSum prev pot : foldInto prev pot = potSum prev pot.
Proof.
  unfold foldInto, potSum. f_equal.
  apply (map_fold_weak_ind
           (fun r m => r = union_with (fun x y => Some (x + y))
                                      (contributions prev) m)).
  - by rewrite (right_id _ _).
  - intros i x m r Hi ->. apply map_eq. intros k.
    rewrite lookup_insert, !lookup_union_with, lookup_insert.
    case_decide as Hk; [|done]. subst k. unfold get.
    rewrite lookup_union_with, Hi.
    by destruct (contributions prev !! i).
Qed.

Lemma foldl_total sidePots seat chips :
  foldl (fun total s => total + get (contributions s) seat) chips sidePots
  = chips + seatTotal sidePots seat.
Proof.
  revert chips. induction sidePots as [|s l IH]; intros chips.
  - unfold seatTotal. simpl. lia.
  - cbn [foldl]. rewrite IH, seatTotal_cons. lia.
Qed.

Lemma hasAllin_spec begin sidePots pot :
  hasAllin begin sidePots pot = true
  <-> exists seat chips,
        contributions pot !! seat = Some chips
        /\ chips + seatTotal sidePots seat = get begin seat.
Proof.
  unfold hasAllin.
  apply (map_fold_weak_ind
           (fun r m => r = true
                       <-> exists seat chips,
                         m !! seat = Some chips
                         /\ chips + seatTotal sidePots seat = get begin seat)).
  - split; [done|]. intros (seat & chips & H & _). by rewrite lookup_empty in H.
  - intros i x m r Hi IH. rewrite foldl_total.
    destruct (Z.eqb_spec (x + seatTotal sidePots i) (get begin i)) as [He|He].
    + split; [|done]. intros _. exists i, x. by rewrite lookup_insert_eq.
    + rewrite IH. split; intros (seat & chips & Hs & Ht).
      * exists seat, chips. split; [|done].
        rewrite lookup_insert_ne; [done|]. congruence.
      * rewrite lookup_insert in Hs. case_decide; [simplify_eq|]. eauto.
Qed.

Lemma trueAllIn_spec begin p level b :
  trueAllIn begin p level b = true
  <-> exists seat chips,
        contributions b !! seat = Some chips
        /\ Z.min (get (contributions p) seat) level = get begin seat.
Proof.
  unfold trueAllIn. rewrite existsb_exists. split.
  - intros [[seat chips] [Hin He]]. exists seat, chips.
    apply list_elem_of_In, elem_of_map_to_list in Hin. split; [done|lia].
  - intros (seat & chips & Hs & He). exists (seat, chips). split; [|lia].
    by apply list_elem_of_In, elem_of_map_to_list.
Qed.

Lemma nonnegative_get p seat : nonnegative p -> 0 <= get (contributions p) seat.
Proof.
  intros Hnn. unfold get. destruct (contributions p !! seat) eqn:H; simpl; [|lia].
  eauto.
Qed.

Lemma specBucket_get p prev a seat :
  nonnegative p -> 0 <= prev -> prev < a ->
  Z.min (get (contributions p) seat) prev
  + get (contributions (specBucket prev a p)) seat
  = Z.min (get (contributions p) seat) a.
Proof.
  intros Hnn Hp Hpa. pose proof (nonnegative_get p seat Hnn) as H0.
  unfold get in *. simpl. rewrite lookup_omap.
  destruct (contributions p !! seat) as [c|]; simpl in *; [|lia].
  unfold specShare. zcases.
Qed.

Lemma hasAllin_trueAllIn begin p prev a sidePots :
  nonnegative p -> 0 <= prev -> prev < a -> upTo p prev sidePots ->
  hasAllin begin sidePots (specBucket prev a p)
  = trueAllIn begin p a (specBucket prev a p).
Proof.
  intros Hnn Hp Hpa Hup. apply Bool.eq_iff_eq_true.
  rewrite hasAllin_spec, trueAllIn_spec.
  assert (Hsum : forall seat chips,
             contributions (specBucket prev a p) !! seat = Some chips ->
             chips + seatTotal sidePots seat
             = Z.min (get (contributions p) seat) a).
  { intros seat chips Hs. rewrite Hup.
    rewrite <- (specBucket_get p prev a seat) by done.
    rewrite (get_Some _ _ _ Hs). lia. }
  split; intros (seat & chips & Hs & He); exists seat, chips;
    (split; [done|]); rewrite <- He; [symmetry|]; by apply Hsum.
Qed.

Lemma upTo_snoc p prev a sidePots :
  nonnegative p -> 0 <= prev -> prev < a -> upTo p prev sidePots ->
  upTo p a (sidePots ++ [specBucket prev a p]).
Proof.
  intros Hnn Hp Hpa Hup seat. unfold seatTotal.
  rewrite Zsum_fmap_snoc. fold (seatTotal sidePots seat).
  rewrite Hup. by apply specBucket_get.
Qed.

Lemma upTo_fold p prev a kept current :
  nonnegative p -> 0 <= prev -> prev < a -> upTo p prev (kept ++ [current]) ->
  upTo p a (kept ++ [potSum current (specBucket prev a p)]).
Proof.
  intros Hnn Hp Hpa Hup seat. specialize (Hup seat). unfold seatTotal in *.
  rewrite Zsum_fmap_snoc in *. rewrite <- foldInto_potSum, foldInto_get.
  rewrite <- (specBucket_get p prev a seat) by done. lia.
Qed.

Lemma mergeBuckets_spec begin p suf :
  nonnegative p ->
  forall prev i kept current lastAllIn,
    0 <= prev -> StronglySorted Z.lt (prev :: suf) -> i <> 0%nat ->
    upTo p prev (kept ++ [current]) ->
    mergeBuckets begin i (buckets prev suf (sidePotAmounts p).2)
                 (kept ++ [current]) lastAllIn
    = kept ++ specGroup begin p current lastAllIn (specBuckets prev suf p).
Proof.
  intros Hnn. induction suf as [|a suf IH];
    intros prev i kept current lastAllIn Hp Hs Hi Hup; [done|].
  apply StronglySorted_inv in Hs as [Hs Hall].
  apply Forall_cons in Hall as [Hpa _].
  cbn [buckets specBuckets mergeBuckets specGroup].
  rewrite bucket_specBucket by done.
  rewrite (hasAllin_trueAllIn begin p prev a) by done.
  replace (Nat.eqb i 0) with false by (symmetry; by apply Nat.eqb_neq).
  rewrite orb_false_r. destruct lastAllIn; simpl.
  - rewrite (IH a (S i) (kept ++ [current])); [|lia|done|done|].
    + by rewrite <- app_assoc.
    + by apply upTo_snoc.
  - rewrite alter_last, foldInto_potSum.
    rewrite (IH a (S i) kept); [done|lia|done|done|].
    by apply upTo_fold.
Qed.

Lemma SidePots_refines p begin L :
  nonnegative p -> levels_of p L ->
  (SidePots p begin).1 = SidePots_spec p begin L.
Proof.
  intros Hnn HL. pose proof (levels_of_unique p L HL) as Hamounts.
  destruct HL as [Hs Hin].
  unfold SidePots, SidePots_spec.
  destruct (sidePotAmounts p) as [amounts p'] eqn:Hspa. simpl in Hamounts.
  subst amounts. simpl.
  assert (Hp' : p' = (sidePotAmounts p).2) by (by rewrite Hspa).
  destruct L as [|a suf]; [done|].
  assert (Ha : 0 < a).
  { assert (a ∈ a :: suf) as Ha by left.
    apply Hin in Ha as [Ha [k Hk]]. apply Hnn in Hk. lia. }
  assert (Hup0 : upTo p 0 []).
  { intros seat. pose proof (nonnegative_get p seat Hnn).
    unfold seatTotal. simpl. lia. }
  cbn [buckets specBuckets mergeBuckets]. rewrite Hp'.
  rewrite bucket_specBucket by (done || lia).
  rewrite (hasAllin_trueAllIn begin p 0 a) by (done || lia).
  cbn [orb andb Nat.eqb].
  apply (mergeBuckets_spec begin p suf Hnn a 1 [] (specBucket 0 a p));
    [lia|done|lia|].
  apply (upTo_snoc p 0 a []); (done || lia).
Qed.

End pot_facts.

(* ===================================================================== *)
(** * Properties of the payout                                           *)
(* ===================================================================== *)

Section remainder_facts.
Context {Hand : Type}.
Implicit Types (results : gmap Z (list (Result Hand))) (ws : list Z).

Lemma offset_range s w : 0 <= offset s w < 10.
Proof. unfold offset. Z.div_mod_to_equations. lia. Qed.

Lemma offset_self s : offset s s = 0.
Proof. unfold offset. rewrite Z.sub_diag. done. Qed.

Lemma offset_next s w :
  0 <= s < 10 -> 0 <= w < 10 -> w <> s ->
  offset ((s + 1) mod 10) w = offset s w - 1.
Proof. unfold offset. intros. Z.div_mod_to_equations. lia. Qed.

Lemma offset_next_self s : 0 <= s < 10 -> offset ((s + 1) mod 10) s = 9.
Proof. unfold offset. intros. Z.div_mod_to_equations. lia. Qed.

Lemma offset_rem button w : 0 <= button -> offset (Z.rem button 10) w = offset button w.
Proof.
  intros. rewrite Z.rem_mod_nonneg by lia. unfold offset.
  Z.div_mod_to_equations. lia.
Qed.

Lemma seatsBefore_cons s w ws o :
  seatsBefore s (w :: ws) o
  = (if decide (offset s w < o) then 1 else 0) + seatsBefore s ws o.
Proof.
  unfold seatsBefore. rewrite filter_cons. case_decide; simpl; lia.
Qed.

Lemma seatsBefore_nil s o : seatsBefore s [] o = 0.
Proof. reflexivity. Qed.

Lemma seatsBefore_mono s ws o1 o2 :
  o1 <= o2 -> seatsBefore s ws o1 <= seatsBefore s ws o2.
Proof.
  intros Ho. induction ws as [|w ws IH]; [done|].
  rewrite !seatsBefore_cons. repeat case_decide; lia.
Qed.

Lemma seatsBefore_0 s ws : seatsBefore s ws 0 = 0.
Proof.
  induction ws as [|w ws IH]; [done|]. rewrite seatsBefore_cons, IH.
  pose proof (offset_range s w). case_decide; lia.
Qed.

Lemma seatsBefore_all s ws : seatsBefore s ws 10 = Z.of_nat (length ws).
Proof.
  induction ws as [|w ws IH]; [done|]. rewrite seatsBefore_cons, IH.
  pose proof (offset_range s w). case_decide; simpl; lia.
Qed.

(** One step of the walk: the seat [s] leaves the ring. *)
Lemma seatsBefore_next s ws o :
  0 <= s < 10 -> NoDup ws -> (forall w, w ∈ ws -> 0 <= w < 10) ->
  1 <= o <= 10 ->
  seatsBefore s ws o
  = (if decide (s ∈ ws) then 1 else 0) + seatsBefore ((s + 1) mod 10) ws (o - 1).
Proof.
  intros Hs Hnd Hws Ho. induction ws as [|w ws IH]; [by rewrite decide_False by apply not_elem_of_nil|].
  apply NoDup_cons in Hnd as [Hw Hnd].
  rewrite !seatsBefore_cons, IH; [|done|intros; apply Hws; by right].
  assert (Hwr : 0 <= w < 10) by (apply Hws; by left).
  destruct (decide (w = s)) as [->|Hne].
  - rewrite offset_self, offset_next_self by done.
    rewrite (decide_True (P := s ∈ s :: ws)) by left.
    rewrite (decide_False (P := s ∈ ws)) by done.
    repeat case_decide; lia.
  - rewrite offset_next by done.
    assert (s ∈ w :: ws <-> s ∈ ws) as Hiff by (rewrite elem_of_cons; naive_solver).
    destruct (decide (s ∈ ws)).
    + rewrite (decide_True (P := s ∈ w :: ws)) by (by apply Hiff).
      repeat case_decide; lia.
    + rewrite (decide_False (P := s ∈ w :: ws)) by (by rewrite Hiff).
      repeat case_decide; lia.
Qed.

(** The inner loop. *)
Lemma giveChip_spec ws s results rem :
  (forall w, w ∈ ws -> exists r0 rs, results !! w = Some (r0 :: rs)) ->
  giveChip ws s results rem
  = Ok (if decide (s ∈ ws) then (alter bump s results, rem - 1)
        else (results, rem)).
Proof.
  intros Hres. induction ws as [|w ws IH].
  - by rewrite decide_False by apply not_elem_of_nil.
  - cbn [giveChip]. destruct (Z.eqb_spec w s) as [->|Hne].
    + destruct (Hres s) as (r0 & rs & Hr); [left|]. rewrite Hr.
      rewrite decide_True by left. do 2 f_equal.
      apply map_eq. intros k. rewrite lookup_alter, lookup_insert.
      destruct (decide (s = k)) as [<-|]; [by rewrite Hr | done].
    + rewrite IH by (intros; apply Hres; by right).
      destruct (decide (s ∈ ws)).
      * by rewrite decide_True by (by right).
      * rewrite decide_False; [done|]. rewrite elem_of_cons. naive_solver.
Qed.

(** The outer loop: when the next [j] seats of the walk hold at least
    [rem] winners, the loop ends within [j + 1] rounds, and a chip has
    gone to exactly the winners with fewer than [rem] winners before
    them. *)
Lemma giveRemainder_spec ws (j : nat) :
  NoDup ws -> (forall w, w ∈ ws -> 0 <= w < 10) ->
  forall (fuel : nat) results rem s,
    (j < fuel)%nat -> (j <= 10)%nat -> 0 <= s < 10 ->
    0 <= rem <= seatsBefore s ws (Z.of_nat j) ->
    (forall w, w ∈ ws -> exists r0 rs, results !! w = Some (r0 :: rs)) ->
    exists results',
      giveRemainder fuel ws results rem s = Ok results'
      /\ forall seat,
           results' !! seat
           = (if decide (seat ∈ ws /\ seatsBefore s ws (offset s seat) < rem)
              then bump else id) <$> results !! seat.
Proof.
  intros Hnd Hws. induction j as [|j IH];
    intros fuel results rem s Hfuel Hj Hs Hrem Hres.
  - rewrite seatsBefore_0 in Hrem. assert (rem = 0) as -> by lia.
    destruct fuel as [|fuel]; [lia|]. exists results. split; [done|].
    intros seat. rewrite decide_False; [by rewrite option_fmap_id|].
    intros [_ H]. pose proof (seatsBefore_mono s ws 0 (offset s seat)) as Hm.
    rewrite seatsBefore_0 in Hm. pose proof (offset_range s seat). lia.
  - destruct fuel as [|fuel]; [lia|]. cbn [giveRemainder].
    destruct (Z.eqb_spec rem 0) as [->|Hnz].
    { exists results. split; [done|].
      intros seat. rewrite decide_False; [by rewrite option_fmap_id|].
      intros [_ H]. pose proof (seatsBefore_mono s ws 0 (offset s seat)) as Hm.
      rewrite seatsBefore_0 in Hm. pose proof (offset_range s seat). lia. }
    rewrite giveChip_spec by done.
    rewrite (seatsBefore_next s ws (Z.of_nat (S j))) in Hrem by (done || lia).
    replace (Z.of_nat (S j) - 1) with (Z.of_nat j) in Hrem by lia.
    rewrite Z.rem_mod_nonneg by lia.
    assert (Hs' : 0 <= (s + 1) mod 10 < 10) by (Z.div_mod_to_equations; lia).
    assert (Hj9 : seatsBefore ((s + 1) mod 10) ws (Z.of_nat j)
                  <= seatsBefore ((s + 1) mod 10) ws 9)
      by (apply seatsBefore_mono; lia).
    destruct (decide (s ∈ ws)) as [Hin|Hnin]; simpl.
    + destruct (IH fuel (alter bump s results) (rem - 1) ((s + 1) mod 10))
        as (results' & Hrun & Hlook); [lia|lia|done|lia| |].
      { intros w Hw. destruct (Hres w Hw) as (r0 & rs & Hr).
        rewrite lookup_alter. destruct (decide (s = w)) as [->|];
          rewrite Hr; simpl; eauto. }
      exists results'. split; [done|]. intros seat. rewrite Hlook.
      rewrite lookup_alter. destruct (decide (s = seat)) as [<-|Hne].
      * rewrite offset_next_self, offset_self, seatsBefore_0 by done.
        rewrite decide_False by lia. rewrite decide_True by (split; [done|lia]).
        by rewrite option_fmap_id.
      * destruct (decide (seat ∈ ws)) as [Hseat|Hseat].
        -- rewrite offset_next by (auto; apply Hws; done).
           assert (Ho : 1 <= offset s seat <= 10).
           { pose proof (offset_range s seat). unfold offset in *.
             assert (0 <= seat < 10) by (by apply Hws).
             Z.div_mod_to_equations. lia. }
           rewrite (seatsBefore_next s ws (offset s seat)) by done.
           rewrite (decide_True (P := s ∈ ws)) by done.
           destruct (decide (seat ∈ ws /\ _ < rem - 1)) as [[_ H1]|H1].
           ++ by rewrite decide_True by (split; [done|lia]).
           ++ rewrite decide_False; [done|]. intros [_ H2]. apply H1.
              split; [done|lia].
        -- by rewrite !decide_False by (intros [? _]; done).
    + destruct (IH fuel results rem ((s + 1) mod 10))
        as (results' & Hrun & Hlook); [lia|lia|done|lia|done|].
      exists results'. split; [done|]. intros seat. rewrite Hlook.
      destruct (decide (seat ∈ ws)) as [Hseat|Hseat].
      * assert (seat <> s) by (intros ->; done).
        rewrite offset_next by (auto; apply Hws; done).
        assert (Ho : 1 <= offset s seat <= 10).
        { pose proof (offset_range s seat). unfold offset in *.
          assert (0 <= seat < 10) by (by apply Hws).
          Z.div_mod_to_equations. lia. }
        rewrite (seatsBefore_next s ws (offset s seat)) by done.
        rewrite (decide_False (P := s ∈ ws)) by done.
        by rewrite Z.add_0_l.
      * by rewrite !decide_False by (intros [? _]; done).
Qed.

Lemma seatsBefore_perm s ws ws' o :
  ws ≡ₚ ws' -> seatsBefore s ws o = seatsBefore s ws' o.
Proof. intros Hp. unfold seatsBefore. by rewrite Hp. Qed.

Lemma seatsBefore_rem button ws o :
  0 <= button -> seatsBefore (Z.rem button 10) ws o = seatsBefore button ws o.
Proof.
  intros Hb. induction ws as [|w ws IH]; [done|].
  by rewrite !seatsBefore_cons, IH, offset_rem.
Qed.

(** The first loop of [resultsFromWinners]. *)
Lemma winners_fold potNo q sh (winners : gmap Z (option Hand)) :
  let r :=
    map_fold
      (fun seat hand '(results, winningSeats) =>
         (<[seat := [mkResult potNo hand q sh]]> results,
          winningSeats ++ [seat]))
      (∅, []) winners in
  r.1 = (fun hand => [mkResult potNo hand q sh]) <$> winners
  /\ r.2 ≡ₚ (map_to_list winners).*1.
Proof.
  cbv zeta.
  apply (map_fold_weak_ind
           (fun (r : gmap Z (list (Result Hand)) * list Z)
                (m : gmap Z (option Hand)) =>
              r.1 = (fun hand => [mkResult potNo hand q sh]) <$> m
              /\ r.2 ≡ₚ (map_to_list m).*1)).
  - by rewrite fmap_empty, map_to_list_empty.
  - intros i x m [results ws] Hi [Hr Hw]. simpl in *. split.
    + by rewrite Hr, fmap_insert.
    + rewrite map_to_list_insert by done. rewrite fmap_cons. simpl.
      rewrite Hw. by rewrite <- Permutation_cons_append.
Qed.

Lemma resultsFromWinners_spec fuel potNo (winners : gmap Z (option Hand))
    chips button f :
  0 <= chips -> 0 <= button -> winners <> ∅ ->
  (forall seat, is_Some (winners !! seat) -> 0 <= seat < 10) ->
  (11 <= fuel)%nat ->
  let n := Z.of_nat (size winners) in
  exists results,
    resultsFromWinners fuel potNo winners chips button f = Ok results
    /\ forall seat,
         results !! seat
         = (fun hand =>
              [mkResult potNo hand
                 (chips / n
                  + if decide (rankFrom button winners seat < chips mod n)
                    then 1 else 0)
                 (f n)]) <$> winners !! seat.
Proof.
  intros Hchips Hbutton Hne Hseats Hfuel n. unfold resultsFromWinners. fold n.
  pose proof (winners_fold potNo (Z.quot chips n) (f n) winners) as Hfold.
  cbv zeta in Hfold. destruct (map_fold _ _ winners) as [results0 ws0].
  simpl in Hfold. destruct Hfold as [-> Hperm].
  assert (Hn : 0 < n).
  { apply map_size_non_empty_iff in Hne. unfold n. lia. }
  destruct (Z.eqb_spec n 0) as [?|_]; [lia|].
  set (ws := merge_sort Z.le ws0).
  assert (Hws : ws ≡ₚ (map_to_list winners).*1).
  { unfold ws. by rewrite merge_sort_Permutation. }
  assert (Hin : forall w, w ∈ ws <-> is_Some (winners !! w)).
  { intros w. rewrite Hws, list_elem_of_fmap. split.
    - intros [[k x] [-> Hkx]]. apply elem_of_map_to_list in Hkx. simpl. eauto.
    - intros [x Hx]. exists (w, x). split; [done|]. by apply elem_of_map_to_list. }
  assert (Hlen : Z.of_nat (length ws) = n).
  { rewrite Hws, length_fmap, length_map_to_list. done. }
  destruct (giveRemainder_spec ws 10) with
    (fuel := fuel)
    (results := (fun hand => [mkResult potNo hand (Z.quot chips n) (f n)])
                  <$> winners)
    (rem := Z.rem chips n) (s := Z.rem button 10)
    as (results' & Hrun & Hlook).
  - rewrite Hws. apply NoDup_fst_map_to_list.
  - intros w Hw. apply Hseats. by apply Hin.
  - lia.
  - lia.
  - rewrite Z.rem_mod_nonneg by lia. Z.div_mod_to_equations. lia.
  - rewrite seatsBefore_all, Hlen. rewrite Z.rem_mod_nonneg by lia.
    Z.div_mod_to_equations. lia.
  - intros w Hw. apply Hin in Hw as [x Hx]. rewrite lookup_fmap, Hx. simpl. eauto.
  - exists results'. split; [done|]. intros seat. rewrite Hlook, lookup_fmap.
    destruct (winners !! seat) as [hand|] eqn:Hseat; [|done]. simpl.
    assert (Hs : seat ∈ ws) by (apply Hin; eauto).
    rewrite seatsBefore_rem, offset_rem, (seatsBefore_perm _ _ _ _ Hws) by done.
    fold (rankFrom button winners seat).
    rewrite Z.rem_mod_nonneg, Z.quot_div_nonneg by lia.
    destruct (decide (rankFrom button winners seat < chips mod n)).
    + rewrite decide_True by done. done.
    + rewrite decide_False by (intros [_ ?]; done). simpl. by rewrite Z.add_0_r.
Qed.

End remainder_facts.

(** C4.  [SidePots] cuts the contributions into bucket pots at the
    distinct non-zero contribution levels and keeps a bucket as a side pot
    of its own only when it is the first bucket or the bucket before it
    holds a seat whose contribution up to that bucket equals its begin
    chips; otherwise the bucket is folded into the pot before it
    ([SidePots_spec]).  At a table of 9 seats, the contributions
    {0:5, 1:20, 2:50} with begin chips {0:5, 1:20, 2:100} give the three
    pots {0:5,1:5,2:5}, {1:15,2:15} and {2:30}, and the contributions
    {0:1, 1:1, 2:1, 6:53, 8:53} with begin chips 100 at every seat give a
    single pot of 109 chips. *)
Theorem SidePots_by_levels :
  (forall (p : Pot) (playerBeginChips : gmap Z Z) (L : list Z),
      nonnegative p -> levels_of p L ->
      (SidePots p playerBeginChips).1 = SidePots_spec p playerBeginChips L)
  /\ (p ← potAfter 9 [(0,5); (1,20); (2,50)];
      Ok (SidePots p (list_to_map [(0,5); (1,20); (2,100)])).1)
     = Ok [pot_of_list [(0,5); (1,5); (2,5)]; pot_of_list [(1,15); (2,15)];
           pot_of_list [(2,30)]]
  /\ (p ← potAfter 9 [(0,1); (1,1); (2,1); (6,53); (8,53)];
      Ok ((SidePots p (list_to_map ((fun i => (i, 100)) <$> seqZ 0 9))).1,
          Chips <$> (SidePots p (list_to_map ((fun i => (i, 100)) <$> seqZ 0 9))).1))
     = Ok ([pot_of_list [(0,1); (1,1); (2,1); (6,53); (8,53)]], [109]).
Proof.
  split; [|split].
  - intros p playerBeginChips L. apply SidePots_refines.
  - vm_compute. reflexivity.
  - vm_compute. reflexivity.
Qed.

(** The general part of C4 at the pot of scenario S3, whose levels are
    5, 20 and 50. *)
Lemma SidePots_by_levels_witness :
  nonnegative (pot_of_list [(0,5); (1,20); (2,50)])
  /\ levels_of (pot_of_list [(0,5); (1,20); (2,50)]) [5; 20; 50]
  /\ (SidePots (pot_of_list [(0,5); (1,20); (2,50)])
               (list_to_map [(0,5); (1,20); (2,100)])).1
     = SidePots_spec (pot_of_list [(0,5); (1,20); (2,50)])
                     (list_to_map [(0,5); (1,20); (2,100)]) [5; 20; 50].
Proof.
  assert (Hnn : nonnegative (pot_of_list [(0,5); (1,20); (2,50)])).
  { intros seat chips H. unfold pot_of_list in H. simpl in H.
    rewrite !lookup_insert, lookup_empty in H.
    repeat case_decide; simplify_eq; lia. }
  assert (HL : levels_of (pot_of_list [(0,5); (1,20); (2,50)]) [5; 20; 50]).
  { split.
    - repeat constructor; lia.
    - intros a. rewrite !elem_of_cons, elem_of_nil. split.
      + intros [->|[->|[->|[]]]]; (split; [lia|]).
        * by exists 0. * by exists 1. * by exists 2.
      + intros [Ha [seat H]]. unfold pot_of_list in H. simpl in H.
        rewrite !lookup_insert, lookup_empty in H.
        repeat case_decide; simplify_eq; tauto. }
  split; [exact Hnn|]. split; [exact HL|].
  exact (proj1 SidePots_by_levels _ _ _ Hnn HL).
Defined.

(** C5.  For a pot without negative contributions and any begin chips,
    the side pots computed by [SidePots] decompose the pot: their chip
    totals add up to the chips of the pot, and for every seat the
    contributions of the seat over the side pots add up to its
    contribution to the pot. *)
Theorem SidePots_decomposition (p : Pot) (playerBeginChips : gmap Z Z) :
  nonnegative p ->
  potsTotal (SidePots p playerBeginChips).1 = Chips p
  /\ forall seat,
       seatTotal (SidePots p playerBeginChips).1 seat = get (contributions p) seat.
Proof.
  intros Hnn.
  assert (Hseat : forall seat,
             seatTotal (SidePots p playerBeginChips).1 seat
             = get (contributions p) seat).
  { intros seat. unfold SidePots.
    pose proof (sidePotAmounts_spec p) as Hspec.
    pose proof (sidePotAmounts_get p seat) as Hget.
    destruct (sidePotAmounts p) as [amounts p']. simpl in Hget |- *.
    destruct Hspec as (Hsorted & Hin & Hc0 & Hc).
    unfold seatTotal.
    rewrite (mergeBuckets_total (fun sp => get (contributions sp) seat));
      [|intros; apply foldInto_get|by left].
    simpl. fold (seatTotal (buckets 0 amounts p') seat).
    rewrite buckets_seatTotal, <- Hget. unfold get.
    destruct (contributions p' !! seat) as [chips|] eqn:Hp'; [|done]. simpl.
    assert (Hp : contributions p !! seat = Some chips /\ chips <> 0).
    { destruct (decide (contributions p !! seat = Some 0)) as [Hz|Hz].
      - rewrite (Hc0 _ Hz) in Hp'. done.
      - rewrite (Hc _ Hz) in Hp'. split; [done|]. intros ->. done. }
    destruct Hp as [Hp Hnz].
    assert (Hs0 : StronglySorted Z.lt (0 :: amounts)).
    { constructor; [done|]. apply Forall_forall. intros a Ha.
      apply Hin in Ha as [Ha [k Hk]]. apply Hnn in Hk. lia. }
    destruct (shareSum_spec amounts 0 chips Hs0) as [_ Hsum].
    rewrite Hsum; [lia|]. apply Hin. eauto. }
  split; [|done].
  rewrite <- (Chips_mkPot p). by apply potsTotal_ext.
Qed.

(** The hypothesis of C5 holds of the pot of scenario S3, to which the
    theorem applies. *)
Lemma SidePots_decomposition_witness :
  nonnegative (pot_of_list [(0,5); (1,20); (2,50)])
  /\ potsTotal (SidePots (pot_of_list [(0,5); (1,20); (2,50)])
                         (list_to_map [(0,5); (1,20); (2,100)])).1
     = Chips (pot_of_list [(0,5); (1,20); (2,50)])
  /\ forall seat,
       seatTotal (SidePots (pot_of_list [(0,5); (1,20); (2,50)])
                           (list_to_map [(0,5); (1,20); (2,100)])).1 seat
       = get (contributions (pot_of_list [(0,5); (1,20); (2,50)])) seat.
Proof.
  assert (Hnn : nonnegative (pot_of_list [(0,5); (1,20); (2,50)])).
  { intros seat chips H. unfold pot_of_list in H. simpl in H.
    rewrite !lookup_insert, lookup_empty in H.
    repeat case_decide; simplify_eq; lia. }
  split; [exact Hnn|].
  exact (SidePots_decomposition _ _ Hnn).
Defined.

(** C2, amended.  When a pot of [chips] chips is split among [n] tied
    winners, each winner gets [chips / n], and the [chips mod n] chips left
    go one each to the winners met first when the seats are walked upwards
    from the button seat itself (a winner on the button is served first),
    wrapping after seat 9: a winner gets one more chip exactly when fewer
    than [chips mod n] winners come before it in that walk.  With 33 chips,
    winners at the seats 1 and 3 and the button at seat 2, both get 16 and
    the chip left goes to seat 3. *)
Theorem resultsFromWinners_from_button :
  (forall (Hand : Type) (fuel : nat) (potNo : Z)
          (winners : gmap Z (option Hand)) (chips button : Z) (f : Z -> Share),
      0 <= chips -> 0 <= button -> winners <> ∅ ->
      (forall seat, is_Some (winners !! seat) -> 0 <= seat < 10) ->
      (11 <= fuel)%nat ->
      let n := Z.of_nat (size winners) in
      exists results,
        resultsFromWinners fuel potNo winners chips button f = Ok results
        /\ forall seat,
             results !! seat
             = (fun hand =>
                  [mkResult potNo hand
                     (chips / n
                      + if decide (rankFrom button winners seat < chips mod n)
                        then 1 else 0)
                     (f n)]) <$> winners !! seat)
  /\ resultsFromWinners 11 0
       (list_to_map [(1, Some 7); (3, Some 7)] : gmap Z (option Z))
       33 2 highPotShare
     = Ok (list_to_map [(1, [mkResult 0 (Some 7) 16 SplitHigh]);
                        (3, [mkResult 0 (Some 7) 17 SplitHigh])]).
Proof.
  split.
  - intros Hand fuel potNo winners chips button f.
    apply resultsFromWinners_spec.
  - vm_compute. reflexivity.
Qed.

(** The general part of C2 at two winners on the seats 2 and 3 with the
    button on seat 2. *)
Lemma resultsFromWinners_from_button_witness :
  exists results,
    resultsFromWinners 11 0 examples.winners23 33 2 highPotShare = Ok results
    /\ forall seat,
         results !! seat
         = (fun hand =>
              [mkResult 0 hand
                 (33 / Z.of_nat (size examples.winners23)
                  + if decide (rankFrom 2 examples.winners23 seat
                               < 33 mod Z.of_nat (size examples.winners23))
                    then 1 else 0)
                 (highPotShare (Z.of_nat (size examples.winners23)))])
             <$> examples.winners23 !! seat.
Proof.
  apply (proj1 resultsFromWinners_from_button Z 11%nat 0 examples.winners23
           33 2 highPotShare).
  - lia.
  - lia.
  - intros H. apply (f_equal (fun m => m !! 2)) in H. vm_compute in H. discriminate.
  - intros seat [x H]. unfold examples.winners23 in H. simpl in H.
    rewrite !lookup_insert, lookup_empty in H.
    repeat case_decide; simplify_eq; lia.
  - lia.
Defined.

(** C2 as stated fails: with the button on seat 2 and winners on the
    seats 2 and 3, the chip left of 33 goes to seat 2, the button, and not
    to seat 3, the first winning seat strictly after the button. *)
Lemma resultsFromWinners_button_first :
  ~ remainder_after_button 10 11 0 examples.winners23 33 2 highPotShare.
Proof.
  intros (results & Hrun & Hall).
  specialize (Hall 3 (Some 7) eq_refl).
  vm_compute in Hrun. injection Hrun as <-.
  vm_compute in Hall. discriminate.
Qed.

(** C1 fails on the code.  A pot of 14 chips that is split between the
    high hand of seat 1 and the low hand of seat 2 pays 8 chips for the
    high half and 7 for the low half, 15 chips in all: the extra chip is
    added when half the pot is odd, not when the pot is.  For the pot of
    15 chips the two tests agree and the pot pays 8 and 7. *)
Theorem payout_split_of_14_pays_15 :
  Chips (pot_of_list [(1, 7); (2, 7)]) = 14
  /\ payout (HandOps0 := examples.strength_HandOps) 12 0 examples.tableHiLo
       examples.highHands examples.lowHands hand.SortingHigh 0
       (pot_of_list [(1, 7); (2, 7)])
     = Ok (list_to_map [(1, [mkResult 0 (Some 9) 8 WonHigh]);
                        (2, [mkResult 0 (Some 5) 7 WonLow])])
  /\ payout (HandOps0 := examples.strength_HandOps) 12 0 examples.tableHiLo
       examples.highHands examples.lowHands hand.SortingHigh 0
       (pot_of_list [(1, 8); (2, 7)])
     = Ok (list_to_map [(1, [mkResult 0 (Some 9) 8 WonHigh]);
                        (2, [mkResult 0 (Some 5) 7 WonLow])]).
Proof. repeat split; vm_compute; reflexivity. Qed.

(* ===================================================================== *)
(** * Properties of the table                                            *)
(* ===================================================================== *)

Section table_facts.
Context {Game : Type} `{!GameOps Game}.
Implicit Types (t : Table Game) (seat s : Z).

(** ** The players after each operation *)

Lemma showHoleCards_lookup t s :
  exists b : bool,
    players (showHoleCards t) !! s
    = (fun q => if b && negb (out q)
                then set_holeCards (ExposedCard <$> holeCards q) q else q)
        <$> players t !! s.
Proof.
  unfold showHoleCards. destruct (_ >? 1).
  - exists true. simpl. rewrite lookup_fmap. done.
  - exists false. simpl. by rewrite option_fmap_id.
Qed.

Lemma updatePots_players t : players (updatePots t) = players t.
Proof. unfold updatePots. by destruct (SidePots _ _). Qed.

Lemma updatePots_minRaise t : minRaise (updatePots t) = minRaise t.
Proof. unfold updatePots. by destruct (SidePots _ _). Qed.

Lemma showHoleCards_minRaise t : minRaise (showHoleCards t) = minRaise t.
Proof. unfold showHoleCards. by destruct (_ >? 1). Qed.

Lemma addToPot_inv t seat n t' :
  addToPot t seat n = Ok t' ->
  exists p m,
    players t !! seat = Some p
    /\ 0 <= m
    /\ players t'
       = <[seat := set_chips (chips p - m)
                     (if n >=? chips p then set_allin true p else p)]> (players t)
    /\ tpot t' = mkPot (<[seat := get (contributions (tpot t)) seat + m]>
                          (contributions (tpot t)))
    /\ minRaise t' = minRaise t /\ opts t' = opts t /\ round t' = round t
    /\ action t' = action t.
Proof.
  unfold addToPot. destruct (players t !! seat) as [p|] eqn:Hp; [|done].
  destruct (n >=? chips p) eqn:Hn.
  - unfold contribute. destruct (Z.ltb_spec (chips p) 0) as [|Hneg]; [done|].
    intros [= <-]. exists p, (chips p). simpl. rewrite Hn.
    repeat split; try done.
  - unfold contribute. destruct (Z.ltb_spec n 0) as [|Hneg]; [done|].
    intros [= <-]. exists p, n. simpl. rewrite Hn. repeat split; try done.
Qed.

(** ** Chip accounting *)

Lemma stackSum_Chips ps : stackSum ps = Chips (mkPot (chips <$> ps)).
Proof. unfold stackSum, Chips. simpl. by rewrite map_fold_fmap. Qed.

Lemma beginSum_Chips ps : beginSum ps = Chips (mkPot (beginChips <$> ps)).
Proof. unfold beginSum, Chips. simpl. by rewrite map_fold_fmap. Qed.

Global Instance KeepsChips_id : KeepsChips (fun p => p).
Proof. by intros p. Qed.
Global Instance KeepsChips_compose f g :
  KeepsChips f -> KeepsChips g -> KeepsChips (fun p => f (g p)).
Proof.
  intros Hf Hg p. destruct (Hf (g p)) as [-> ->]. apply Hg.
Qed.
Global Instance KeepsChips_if (b : PlayerState -> bool) f g :
  KeepsChips f -> KeepsChips g -> KeepsChips (fun p => if b p then f p else g p).
Proof. intros Hf Hg p. destruct (b p); [apply Hf | apply Hg]. Qed.
Global Instance KeepsChips_holeCards v : KeepsChips (fun p => set_holeCards (v p) p).
Proof. by intros p. Qed.
Global Instance KeepsChips_acted v : KeepsChips (set_acted v).
Proof. by intros p. Qed.
Global Instance KeepsChips_out v : KeepsChips (set_out v).
Proof. by intros p. Qed.
Global Instance KeepsChips_allin v : KeepsChips (set_allin v).
Proof. by intros p. Qed.
Global Instance KeepsChips_canRaise v : KeepsChips (set_canRaise v).
Proof. by intros p. Qed.
Global Instance KeepsChips_roundPot v : KeepsChips (set_roundPot v).
Proof. by intros p. Qed.
Global Instance KeepsChips_pot v : KeepsChips (set_pot v).
Proof. by intros p. Qed.
Global Instance KeepsChips_straddle v : KeepsChips (set_straddle v).
Proof. by intros p. Qed.
Global Instance KeepsChips_addToPot (n d r : PlayerState -> Z) :
  KeepsChips (fun p => PlayerState_addToPot p (n p) (d p) (r p)).
Proof. intros p. unfold PlayerState_addToPot. by destruct (_ =? _). Qed.

Lemma stackSum_fmap f ps : KeepsChips f -> stackSum (f <$> ps) = stackSum ps.
Proof.
  intros Hf. rewrite !stackSum_Chips, <- map_fmap_compose.
  f_equal. f_equal. apply map_fmap_ext. intros i x _. apply Hf.
Qed.

Lemma beginSum_fmap f ps : KeepsChips f -> beginSum (f <$> ps) = beginSum ps.
Proof.
  intros Hf. rewrite !beginSum_Chips, <- map_fmap_compose.
  f_equal. f_equal. apply map_fmap_ext. intros i x _. apply Hf.
Qed.

Lemma stackSum_alter f seat ps :
  KeepsChips f -> stackSum (alter f seat ps) = stackSum ps.
Proof.
  intros Hf. rewrite !stackSum_Chips. f_equal. f_equal.
  apply map_eq. intros k. rewrite !lookup_fmap, lookup_alter.
  case_decide; [subst|done]. destruct (ps !! k); [|done]. simpl. f_equal. apply Hf.
Qed.

Lemma beginSum_alter f seat ps :
  KeepsChips f -> beginSum (alter f seat ps) = beginSum ps.
Proof.
  intros Hf. rewrite !beginSum_Chips. f_equal. f_equal.
  apply map_eq. intros k. rewrite !lookup_fmap, lookup_alter.
  case_decide; [subst|done]. destruct (ps !! k); [|done]. simpl. f_equal. apply Hf.
Qed.

Lemma stackSum_imap (g : Z -> PlayerState -> PlayerState) ps :
  (forall s, KeepsChips (g s)) ->
  stackSum (map_imap (fun s p => Some (g s p)) ps) = stackSum ps.
Proof.
  intros Hg. rewrite !stackSum_Chips. f_equal. f_equal.
  apply map_eq. intros k. rewrite !lookup_fmap, map_lookup_imap.
  destruct (ps !! k); [|done]. simpl. f_equal. apply Hg.
Qed.

Lemma beginSum_imap (g : Z -> PlayerState -> PlayerState) ps :
  (forall s, KeepsChips (g s)) ->
  beginSum (map_imap (fun s p => Some (g s p)) ps) = beginSum ps.
Proof.
  intros Hg. rewrite !beginSum_Chips. f_equal. f_equal.
  apply map_eq. intros k. rewrite !lookup_fmap, map_lookup_imap.
  destruct (ps !! k); [|done]. simpl. f_equal. apply Hg.
Qed.

Lemma stackSum_insert ps seat p p' :
  ps !! seat = Some p ->
  stackSum (<[seat := p']> ps) = stackSum ps - chips p + chips p'.
Proof.
  intros Hp. rewrite !stackSum_Chips, fmap_insert, Chips_insert.
  unfold get. by rewrite lookup_fmap, Hp.
Qed.

Lemma beginSum_insert ps seat p p' :
  ps !! seat = Some p -> beginChips p' = beginChips p ->
  beginSum (<[seat := p']> ps) = beginSum ps.
Proof.
  intros Hp He. rewrite !beginSum_Chips, fmap_insert, Chips_insert.
  unfold get. rewrite lookup_fmap, Hp. simpl. lia.
Qed.

Lemma sameChips_refl t : sameChips t t.
Proof. by split. Qed.

Lemma sameChips_trans t1 t2 t3 :
  sameChips t1 t2 -> sameChips t2 t3 -> sameChips t1 t3.
Proof. intros [? ?] [? ?]. split; congruence. Qed.

(** A change of the players that moves no chips, and of fields other
    than the pot. *)
Lemma sameChips_fields t t' :
  stackSum (players t') = stackSum (players t) ->
  beginSum (players t') = beginSum (players t) ->
  tpot t' = tpot t ->
  sameChips t t'.
Proof. intros Hs Hb Hp. unfold sameChips, chipsInPlay. by rewrite Hs, Hb, Hp. Qed.

Lemma sameChips_updPlayer t seat f : KeepsChips f -> sameChips t (updPlayer seat f t).
Proof.
  intros Hf. apply sameChips_fields; simpl;
    [by apply stackSum_alter | by apply beginSum_alter | done].
Qed.

Lemma sameChips_resetActed t : sameChips t (resetActed t).
Proof.
  apply sameChips_fields; simpl;
    [apply stackSum_fmap, _ | apply beginSum_fmap, _ | done].
Qed.

Lemma sameChips_resetRoundPot t : sameChips t (resetRoundPot t).
Proof.
  apply sameChips_fields; simpl;
    [apply stackSum_fmap, _ | apply beginSum_fmap, _ | done].
Qed.

Lemma sameChips_resetCanRaise t seat : sameChips t (resetCanRaise seat t).
Proof.
  apply sameChips_fields; simpl;
    [apply stackSum_imap; intros; apply _
    | apply beginSum_imap; intros; apply _ | done].
Qed.

Lemma sameChips_showHoleCards t : sameChips t (showHoleCards t).
Proof.
  unfold showHoleCards. destruct (_ >? 1); [|apply sameChips_refl].
  apply sameChips_fields; simpl; [apply stackSum_fmap | apply beginSum_fmap | done].
  - apply (KeepsChips_if (fun p => negb (out p))); apply _.
  - apply (KeepsChips_if (fun p => negb (out p))); apply _.
Qed.

Lemma sameChips_updatePots t : sameChips t (updatePots t).
Proof.
  unfold updatePots, SidePots.
  pose proof (sidePotAmounts_get (tpot t)) as Hget.
  destruct (sidePotAmounts (tpot t)) as [amounts p']. simpl in *.
  split; [|done]. unfold chipsInPlay. simpl. f_equal.
  rewrite <- (Chips_mkPot p'), <- (Chips_mkPot (tpot t)). by apply Chips_ext.
Qed.

Lemma sameChips_addToPot t seat n t' :
  addToPot t seat n = Ok t' -> sameChips t t'.
Proof.
  intros (p & m & Hp & Hm & Hplayers & Hpot & _)%addToPot_inv.
  split.
  - unfold chipsInPlay. rewrite Hplayers, Hpot, (stackSum_insert _ _ p) by done.
    rewrite Chips_insert, Chips_mkPot.
    assert (chips (set_chips (chips p - m)
                     (if n >=? chips p then set_allin true p else p))
            = chips p - m) as -> by done.
    lia.
  - rewrite Hplayers. apply (beginSum_insert _ _ p); [done|].
    by destruct (n >=? chips p).
Qed.

(** ** The operations of a hand move chips between stacks and pot only *)

(** Functions on player states that move no chips. *)
Ltac keeps :=
  first [ apply _
        | unfold KeepsChips; intros ?; unfold PlayerState_addToPot;
          repeat case_match; done ].

(** [sameChips t x] for a table [x] built, layer upon layer, from a table
    that is known to hold the same chips as [t]. *)
Ltac same_chips :=
  repeat
    match goal with
    | |- sameChips ?t ?t => apply sameChips_refl
    | H : sameChips ?t ?x |- sameChips ?t ?x => exact H
    | H : addToPot ?x _ _ = Ok ?y |- sameChips ?t ?y =>
        apply (sameChips_trans t x); [|exact (sameChips_addToPot _ _ _ _ H)]
    | |- sameChips ?t (updPlayer _ _ ?x) =>
        apply (sameChips_trans t x); [|apply sameChips_updPlayer; keeps]
    | |- sameChips ?t (resetActed ?x) =>
        apply (sameChips_trans t x); [|apply sameChips_resetActed]
    | |- sameChips ?t (resetRoundPot ?x) =>
        apply (sameChips_trans t x); [|apply sameChips_resetRoundPot]
    | |- sameChips ?t (resetCanRaise _ ?x) =>
        apply (sameChips_trans t x); [|apply sameChips_resetCanRaise]
    | |- sameChips ?t (showHoleCards ?x) =>
        apply (sameChips_trans t x); [|apply sameChips_showHoleCards]
    | |- sameChips ?t (updatePots ?x) =>
        apply (sameChips_trans t x); [|apply sameChips_updatePots]
    | |- sameChips ?t (setBlindSeat ?x _ _) =>
        apply (sameChips_trans t x);
        [|unfold setBlindSeat; repeat case_match;
          apply sameChips_fields; reflexivity]
    | |- sameChips ?t (if ?c then _ else _) => destruct c
    | |- sameChips ?t (?set _ ?x) =>
        apply (sameChips_trans t x); [|apply sameChips_fields; reflexivity]
    end.

(** The case analysis of a run [e = Ok t'] of monadic code. *)
Ltac run_inv H :=
  repeat
    match type of H with
    | Ok _ = Ok _ => injection H as <-
    | (mbind _ ?e) = Ok _ =>
        let E := fresh "E" in
        destruct e eqn:E; simpl in H; try discriminate H
    | (match ?e with _ => _ end) = Ok _ =>
        let E := fresh "E" in
        destruct e eqn:E; simpl in H; try discriminate H
    end.

Lemma sameChips_settleAction t seat : sameChips t (settleAction t seat).
Proof.
  unfold settleAction. destruct (countState _). same_chips.
Qed.

Lemma sameChips_commitAction t seat p a n t' :
  commitAction t seat p a n = Ok t' -> sameChips t t'.
Proof.
  unfold commitAction. intros H. destruct a; run_inv H; same_chips.
Qed.

Lemma sameChips_handleAction t seat a n t' :
  handleAction t seat a n = Ok t' -> sameChips t t'.
Proof.
  unfold handleAction. intros H. run_inv H.
  eapply sameChips_trans; [eapply sameChips_commitAction; eassumption|].
  apply sameChips_settleAction.
Qed.

Lemma sameChips_playAction t a n t' :
  playAction t a n = Ok t' -> sameChips t t'.
Proof.
  unfold playAction. intros H. run_inv H.
  apply sameChips_handleAction in E. same_chips.
Qed.

Lemma sameChips_doOneStraddleBet t seat category t' ok :
  doOneStraddleBet t seat category = Ok (t', ok) -> sameChips t t'.
Proof.
  unfold doOneStraddleBet. intros H. run_inv H; same_chips.
Qed.

Lemma sameChips_ForceStraddleBet t t' :
  ForceStraddleBet t = Ok t' -> sameChips t t'.
Proof.
  unfold ForceStraddleBet. intros H.
  repeat match type of H with
         | Ok _ = Ok _ => injection H as <-
         | (mbind _ ?e) = Ok _ =>
             let E := fresh "E" in
             destruct e as [[? ?]| | |] eqn:E || destruct e eqn:E;
             simpl in H; try discriminate H
         | (if ?c then _ else _) = Ok _ => destruct c
         end;
    repeat match goal with
           | E : doOneStraddleBet _ _ _ = Ok _ |- _ =>
               apply sameChips_doOneStraddleBet in E
           end;
    eauto using sameChips_trans.
Qed.

Lemma sameChips_setUpSeat fuel relativePos t seat t' :
  setUpSeat fuel relativePos t seat = Ok t' -> sameChips t t'.
Proof.
  unfold setUpSeat. intros H.
  destruct (players t !! seat); [|injection H as <-; apply sameChips_refl].
  destruct (game_HoleCards _ _ _) as [[hCards deck']| | |]; try discriminate H.
  simpl in H.
  destruct (relativePosition _ _ _) as [pos| | |]; try discriminate H.
  simpl in H.
  match type of H with
  | (mbind _ ?e) = Ok _ => destruct e as [t1| | |] eqn:E1; try discriminate H
  end.
  simpl in H. run_inv H.
  assert (sameChips t t1); [|same_chips].
  destruct (relativePos =? pos); run_inv E1; same_chips.
Qed.

Lemma sameChips_setUpSeats fuel relativePos order :
  forall t t',
    foldl (fun r seat => t ← r; setUpSeat fuel relativePos t seat) (Ok t) order
    = Ok t' ->
    sameChips t t'.
Proof.
  induction order as [|seat order IH] using rev_ind; intros t t' H.
  - injection H as <-. apply sameChips_refl.
  - rewrite foldl_app in H. simpl in H.
    destruct (foldl _ (Ok t) order) as [t1| | |] eqn:E; try discriminate H.
    simpl in H. apply IH in E. apply sameChips_setUpSeat in H.
    eauto using sameChips_trans.
Qed.

Lemma sameChips_setUpRound fuel order t t' :
  setUpRound fuel order t = Ok t' -> sameChips t t'.
Proof.
  unfold setUpRound. intros H.
  destruct (game_BoardCards _ _ _) as [[bCards deck']| | |]; try discriminate H.
  simpl in H.
  match type of H with
  | (mbind _ ?e) = Ok _ => destruct e as [t1| | |] eqn:E1; try discriminate H
  end.
  simpl in H. apply sameChips_setUpSeats in E1.
  match type of H with
  | (mbind _ ?e) = Ok _ => destruct e as [t2| | |] eqn:E2; try discriminate H
  end.
  simpl in H. injection H as <-.
  assert (sameChips t t1) by (eapply sameChips_trans; [|exact E1]; same_chips).
  assert (sameChips t t2); [|same_chips].
  destruct (_ && _).
  - apply sameChips_ForceStraddleBet in E2.
    eapply sameChips_trans; [|exact E2]. same_chips.
  - injection E2 as <-. same_chips.
Qed.

Lemma sameChips_nextRound fuel order t t' :
  nextRound fuel order t = Ok t' -> sameChips t t'.
Proof.
  unfold nextRound. intros H%sameChips_setUpRound.
  eapply sameChips_trans; [|exact H]. same_chips.
Qed.

Lemma hand_step_sameChips t t' : hand_step t t' -> sameChips t t'.
Proof.
  intros [fuel order t1 t2 _ _ _ H | a n t1 t2 _ _ H].
  - by eapply sameChips_nextRound.
  - by eapply sameChips_playAction.
Qed.

Lemma hand_steps_sameChips t t' : rtc hand_step t t' -> sameChips t t'.
Proof.
  induction 1 as [|x y z Hxy _ IH]; [apply sameChips_refl|].
  eapply sameChips_trans; [by apply hand_step_sameChips | exact IH].
Qed.

(** ** The start of a hand *)

Lemma get_zero_list (l : list (Z * Z)) k :
  Forall (fun kv => kv.2 = 0) l -> get (list_to_map l) k = 0.
Proof.
  induction 1 as [|[i x] l Hx Hl IH]; simpl.
  - apply get_empty.
  - simpl in Hx. subst x. rewrite get_insert. by case_decide.
Qed.

Lemma Chips_newPot n : Chips (newPot n) = 0.
Proof.
  unfold newPot. apply Chips_zero. intros k. apply get_zero_list.
  apply Forall_fmap, Forall_forall. done.
Qed.

Lemma setUpHand_records newDeck t th :
  setUpHand newDeck t = Ok th ->
  beginSum (players th) = stackSum (players t)
  /\ chipsInPlay th = stackSum (players t).
Proof.
  unfold setUpHand. intros H. run_inv H. unfold chipsInPlay. simpl.
  rewrite Chips_newPot, beginSum_Chips, !stackSum_Chips, <- !map_fmap_compose.
  split; [done|]. rewrite Z.add_0_r. done.
Qed.

Lemma startHand_records fuel order newDeck t0 t1 :
  startHand fuel order newDeck t0 = Ok t1 ->
  beginSum (players t1) = stackSum (players t0)
  /\ chipsInPlay t1 = stackSum (players t0).
Proof.
  unfold startHand. intros H. destruct (negb _); [done|].
  destruct (setUpHand _ _) as [th| | |] eqn:Eh; try discriminate H. simpl in H.
  destruct (setUpRound _ _ _) as [tr| | |] eqn:Er; try discriminate H. simpl in H.
  injection H as <-. apply setUpHand_records in Eh as [Hb Hc].
  apply sameChips_setUpRound in Er as [Hc' Hb'].
  assert (Hs : stackSum (players (resetPot (set_showdown false t0)))
               = stackSum (players t0)) by (apply stackSum_fmap; keeps).
  unfold chipsInPlay in *. simpl in *. split; congruence.
Qed.

(** ** The effect of a raise on the other players *)

Lemma Outstanding_resetCanRaise t seat :
  Outstanding (resetCanRaise seat t) = Outstanding t.
Proof.
  unfold Outstanding, CurrentPlayer, resetCanRaise. simpl.
  rewrite map_lookup_imap. by destruct (players t !! action t).
Qed.

Lemma settleAction_lookup t seat :
  minRaise (settleAction t seat) = minRaise t
  /\ exists b : bool,
       forall s,
         players (settleAction t seat) !! s
         = (fun q => if b && negb (out q)
                     then set_holeCards (ExposedCard <$> holeCards q) q else q)
             <$> (alter (fun p' => set_acted true (set_canRaise false p')) seat
                        (players t)) !! s.
Proof.
  unfold settleAction. destruct (countState _) as [countAllin countRich].
  destruct (_ && _).
  - split; [by rewrite showHoleCards_minRaise, updatePots_minRaise|].
    unfold showHoleCards.
    match goal with |- context [?x >? 1] => exists (x >? 1) end.
    intros s. destruct (_ >? 1); simpl.
    + by rewrite lookup_fmap, updatePots_players.
    + rewrite updatePots_players. simpl. by rewrite option_fmap_id.
  - split; [done|]. exists false. intros s. simpl. by rewrite option_fmap_id.
Qed.

Lemma handleAction_Raise_inv t seat n t' :
  handleAction t seat Raise n = Ok t' ->
  exists p t2,
    players t !! seat = Some p
    /\ addToPot (updPlayer seat
                   (fun p' => PlayerState_addToPot p' (n - roundPot p) 0 (round t))
                   (if n - roundPot p - Outstanding t >=? minRaise t
                    then set_minRaise (n - roundPot p - Outstanding t)
                           (resetCanRaise seat t)
                    else t))
                seat (n - roundPot p) = Ok t2
    /\ t' = settleAction (resetActed t2) seat.
Proof.
  unfold handleAction. destruct (validateAction t Raise n); try done. simpl.
  destruct (players t !! seat) as [p|] eqn:Hp; [|done].
  unfold commitAction. rewrite Outstanding_resetCanRaise.
  replace (round (if n - roundPot p - Outstanding t >=? minRaise t
                  then set_minRaise (n - roundPot p - Outstanding t)
                         (resetCanRaise seat t)
                  else t)) with (round t) by (by destruct (_ >=? _)).
  destruct (addToPot _ seat _) as [t2| | |] eqn:Hadd; try done.
  simpl. intros [= <-]. by exists p, t2.
Qed.

(** After a raise of [seat], a player of another seat has its flags set
    as follows: [acted] is cleared, and [canRaise] is set when the raise
    is a full one and kept otherwise. *)
Lemma handleAction_Raise_others t seat n t' p :
  players t !! seat = Some p ->
  handleAction t seat Raise n = Ok t' ->
  let full := n - roundPot p - Outstanding t >=? minRaise t in
  minRaise t' = (if full then n - roundPot p - Outstanding t else minRaise t)
  /\ forall s q,
       s <> seat -> players t !! s = Some q ->
       exists q',
         players t' !! s = Some q'
         /\ acted q' = false
         /\ canRaise q' = (if full then true else canRaise q).
Proof.
  intros Hp Hrun full.
  apply handleAction_Raise_inv in Hrun as (p0 & t2 & Hp0 & Hadd & ->).
  rewrite Hp in Hp0. injection Hp0 as <-. fold full in Hadd.
  apply addToPot_inv in Hadd
    as (p1 & m & Hp1 & Hm & Hplayers & _ & HminRaise & _).
  destruct (settleAction_lookup (resetActed t2) seat) as [Hmin [b Hlook]].
  split.
  - rewrite Hmin. simpl. rewrite HminRaise. by destruct full.
  - intros s q Hs Hq. rewrite Hlook. rewrite lookup_alter_ne by done.
    simpl. rewrite lookup_fmap, Hplayers, lookup_insert_ne by done.
    simpl. rewrite lookup_alter_ne by done.
    destruct full; simpl.
    + rewrite map_lookup_imap, Hq. simpl.
      eexists. split; [reflexivity|].
      replace (s =? seat) with false by (symmetry; by apply Z.eqb_neq).
      by destruct (b && _).
    + rewrite Hq. simpl. eexists. split; [reflexivity|]. by destruct (b && _).
Qed.

End table_facts.

(** C7.  When a player sits on the seat in action, [ValidActions] returns
    no action if that player is all-in or out; otherwise Fold, Check and
    Bet if nothing is outstanding; otherwise Fold and Call if the player
    may not raise or holds no more chips than are outstanding; and Fold,
    Call and Raise in the remaining case. *)
Theorem ValidActions_cases {Game : Type} (t : Table Game) (p : PlayerState) :
  players t !! action t = Some p ->
  (allin p = true \/ out p = true -> ValidActions t = Ok [])
  /\ (allin p = false -> out p = false -> Outstanding t = 0 ->
      ValidActions t = Ok [Fold; Check; Bet])
  /\ (allin p = false -> out p = false -> Outstanding t <> 0 ->
      canRaise p = false \/ chips p <= Outstanding t ->
      ValidActions t = Ok [Fold; Call])
  /\ (allin p = false -> out p = false -> Outstanding t <> 0 ->
      canRaise p = true -> Outstanding t < chips p ->
      ValidActions t = Ok [Fold; Call; Raise]).
Proof.
  intros Hp. unfold ValidActions, CurrentPlayer. rewrite Hp.
  repeat split.
  - intros [-> | ->]; [done|]. by rewrite orb_true_r.
  - intros -> -> ->. done.
  - intros -> -> Ho Hc. simpl.
    destruct (Z.eqb_spec (Outstanding t) 0); [done|].
    destruct Hc as [-> | Hle]; [done|].
    destruct (canRaise p); simpl; [|done].
    destruct (Z.leb_spec (chips p) (Outstanding t)); [done|lia].
  - intros -> -> Ho -> Hlt. simpl.
    destruct (Z.eqb_spec (Outstanding t) 0); [done|].
    destruct (Z.leb_spec (chips p) (Outstanding t)); [lia|done].
Qed.

(** C7 at a table where seat 1, with 100 chips and the right to raise,
    faces a bet of 10. *)
Lemma ValidActions_cases_witness :
  players examples.tableFacingBet !! action examples.tableFacingBet
  = Some examples.raiser
  /\ ValidActions examples.tableFacingBet = Ok [Fold; Call; Raise].
Proof.
  split; [reflexivity|].
  apply (ValidActions_cases examples.tableFacingBet examples.raiser eq_refl);
    (reflexivity || (vm_compute; discriminate) || (vm_compute; reflexivity)).
Defined.

(** C10.  When no player sits on the seat in action, as between rounds
    and between hands when the action is -1, [Outstanding], [MinRaise] and
    [MaxRaise] return -1; and [Outstanding] returns 0 when the player in
    action is all-in or out. *)
Theorem accessors_without_player {Game : Type} `{!GameOps Game} (t : Table Game) :
  (players t !! action t = None ->
   Outstanding t = -1 /\ MinRaise t = -1 /\ MaxRaise t = -1)
  /\ (forall p, players t !! action t = Some p ->
                allin p = true \/ out p = true -> Outstanding t = 0).
Proof.
  unfold Outstanding, MinRaise, MaxRaise, CurrentPlayer. split.
  - intros ->. done.
  - intros p -> [-> | ->]; [done|]. by rewrite orb_true_r.
Qed.

(** C10 at a table between two rounds (action -1) and at a table whose
    player in action has folded. *)
Lemma accessors_without_player_witness :
  (Outstanding examples.tableBetweenRounds = -1
   /\ MinRaise examples.tableBetweenRounds = -1
   /\ MaxRaise (GameOps0 := examples.plain_GameOps) examples.tableBetweenRounds = -1)
  /\ Outstanding examples.tableFolded = 0.
Proof.
  split.
  - apply (proj1 (accessors_without_player (GameOps0 := examples.plain_GameOps)
                    examples.tableBetweenRounds)).
    reflexivity.
  - apply (proj2 (accessors_without_player (GameOps0 := examples.plain_GameOps)
                    examples.tableFolded)
                 (set_out true (examples.seated 1 100))).
    + reflexivity.
    + right. reflexivity.
Defined.

(** C3, amended.  A raise that does not fail clears [acted] on every
    other player, whatever its size (the players have to answer the new
    amount), and the raiser alone ends with [acted] set.  What a raise
    below the minimum raise (a short all-in) leaves untouched is the
    minimum raise and the [canRaise] flag of the other players; a raise
    that meets the minimum raise sets [canRaise] on all of them and makes
    its increment the new minimum raise. *)
Theorem Raise_reopens_by_canRaise {Game : Type} `{!GameOps Game}
    (t t' : Table Game) (seat n : Z) (p : PlayerState) :
  players t !! seat = Some p ->
  handleAction t seat Raise n = Ok t' ->
  (forall s q, s <> seat -> players t !! s = Some q ->
               exists q', players t' !! s = Some q' /\ acted q' = false)
  /\ (n - roundPot p - Outstanding t < minRaise t ->
      minRaise t' = minRaise t
      /\ forall s q, s <> seat -> players t !! s = Some q ->
                     exists q', players t' !! s = Some q'
                                /\ canRaise q' = canRaise q)
  /\ (minRaise t <= n - roundPot p - Outstanding t ->
      minRaise t' = n - roundPot p - Outstanding t
      /\ forall s q, s <> seat -> players t !! s = Some q ->
                     exists q', players t' !! s = Some q' /\ canRaise q' = true).
Proof.
  intros Hp Hrun.
  destruct (handleAction_Raise_others t seat n t' p Hp Hrun) as [Hmin Hothers].
  cbv zeta in Hmin, Hothers. rewrite Z.geb_leb in Hmin, Hothers.
  split; [|split].
  - intros s q Hs Hq. destruct (Hothers s q Hs Hq) as (q' & ? & ? & _). eauto.
  - intros Hshort.
    destruct (Z.leb_spec (minRaise t) (n - roundPot p - Outstanding t)); [lia|].
    split; [done|]. intros s q Hs Hq.
    destruct (Hothers s q Hs Hq) as (q' & ? & _ & ?). eauto.
  - intros Hfull.
    destruct (Z.leb_spec (minRaise t) (n - roundPot p - Outstanding t)); [|lia].
    split; [done|]. intros s q Hs Hq.
    destruct (Hothers s q Hs Hq) as (q' & ? & _ & ?). eauto.
Qed.

(** C3 at the short all-in of seat 1: 25 chips against a bet of 20 that
    seat 3 has called; the minimum raise stays 20 and neither seat 2 nor
    seat 3 may raise, but both have to act again. *)
Lemma Raise_reopens_by_canRaise_witness :
  exists t',
    handleAction (GameOps0 := examples.plain_GameOps)
      examples.tableShortAllin 1 Raise 25 = Ok t'
    /\ minRaise t' = 20
    /\ (acted <$> players t' !! 2) = Some false
    /\ (canRaise <$> players t' !! 2) = Some false.
Proof.
  destruct (handleAction (GameOps0 := examples.plain_GameOps)
              examples.tableShortAllin 1 Raise 25) as [t'| | |] eqn:Hrun;
    try (vm_compute in Hrun; discriminate).
  exists t'. split; [reflexivity|].
  destruct (Raise_reopens_by_canRaise (GameOps0 := examples.plain_GameOps)
              examples.tableShortAllin t' 1 25 examples.shortStack
              eq_refl Hrun) as (Hacted & Hshort & _).
  destruct Hshort as [Hmin Hcan]; [vm_compute; reflexivity|].
  destruct (Hacted 2 examples.bettor ltac:(lia) eq_refl) as (q1 & Hq1 & Ha).
  destruct (Hcan 2 examples.bettor ltac:(lia) eq_refl) as (q2 & Hq2 & Hc).
  split; [exact Hmin|]. rewrite Hq1 in Hq2 |- *. injection Hq2 as <-.
  simpl. rewrite Ha, Hc. done.
Defined.

(** C3 as stated fails: after the short all-in of seat 1, seat 2, which
    had acted, has [acted] cleared. *)
Lemma short_allin_clears_acted :
  ~ short_allin_keeps_acted (GameOps0 := examples.plain_GameOps)
      examples.tableShortAllin 1 25.
Proof.
  intros H.
  destruct (handleAction (GameOps0 := examples.plain_GameOps)
              examples.tableShortAllin 1 Raise 25) as [t'| | |] eqn:Hrun;
    try (vm_compute in Hrun; discriminate).
  destruct (H examples.shortStack t' eq_refl ltac:(vm_compute; reflexivity) Hrun
              2 examples.bettor ltac:(lia) eq_refl eq_refl)
    as (q' & Hq' & Hacted).
  vm_compute in Hrun. injection Hrun as <-.
  vm_compute in Hq'. injection Hq' as <-. discriminate.
Qed.

(** C6.  Every step of a started hand (the set-up of a round with its
    forced bets and straddles, and a fold, check, call, bet or raise of
    the player in action) leaves the sum of the stacks of the seated
    players plus the chips of the pot unchanged; from the start of the
    hand on that sum is the sum of the begin chips recorded at the set-up
    of the hand, which is the sum of the stacks the hand started with. *)
Theorem chip_conservation {Game : Type} `{!GameOps Game} :
  (forall t t' : Table Game, hand_step t t' -> chipsInPlay t' = chipsInPlay t)
  /\ (forall fuel order newDeck (t0 t1 t : Table Game),
         startHand fuel order newDeck t0 = Ok t1 ->
         rtc hand_step t1 t ->
         chipsInPlay t = beginSum (players t)
         /\ beginSum (players t) = beginSum (players t1)
         /\ beginSum (players t1) = stackSum (players t0)).
Proof.
  split.
  - intros t t' H. by apply hand_step_sameChips.
  - intros fuel order newDeck t0 t1 t Hstart Hsteps.
    apply startHand_records in Hstart as [Hb Hc].
    apply hand_steps_sameChips in Hsteps as [Hc' Hb'].
    repeat split; congruence.
Qed.

(** C6 at the first hand of three players of 100 chips with blinds of 1
    and 2: after the blinds and the call of the first player the stacks
    and the pot hold the 300 chips recorded at the set-up. *)
Lemma chip_conservation_witness :
  startHand (GameOps0 := examples.blinds_GameOps) 10 [1; 2; 3] []
    examples.tableOfThree = Ok examples.tableStarted
  /\ rtc (hand_step (GameOps0 := examples.blinds_GameOps))
         examples.tableStarted examples.tableAfterCall
  /\ chipsInPlay examples.tableAfterCall
     = beginSum (players examples.tableAfterCall)
  /\ beginSum (players examples.tableAfterCall)
     = beginSum (players examples.tableStarted)
  /\ beginSum (players examples.tableStarted)
     = stackSum (players examples.tableOfThree).
Proof.
  assert (H1 : startHand (GameOps0 := examples.blinds_GameOps) 10 [1; 2; 3] []
                 examples.tableOfThree = Ok examples.tableStarted)
    by (vm_compute; reflexivity).
  assert (H2 : rtc (hand_step (GameOps0 := examples.blinds_GameOps))
                   examples.tableStarted examples.tableAfterCall).
  { apply rtc_once. apply (step_action Call 0).
    - vm_compute. reflexivity.
    - vm_compute. discriminate.
    - vm_compute. reflexivity. }
  split; [exact H1|]. split; [exact H2|].
  exact (proj2 (chip_conservation (GameOps0 := examples.blinds_GameOps))
               _ _ _ _ _ _ H1 H2).
Defined.

(** C8 fails on the code.  [MarshalJSON] writes under [minRaise] the
    result of the accessor [MinRaise], and [UnmarshalJSON] stores that
    number in the field [minRaise].  Before the flop, with blinds of 1 and
    2 posted and the first player to act, the snapshot carries the minimum
    raise 4; the table read back from it has 4 as its field, and its own
    snapshot carries 2 + 4 + 0 = 6. *)
Theorem snapshot_roundtrip_changes_minRaise :
  exists t2,
    Table_UnmarshalJSON examples.registered examples.emptyTable
      (Table_MarshalJSON examples.tableStarted) = Ok t2
    /\ jMinRaise (Table_MarshalJSON examples.tableStarted) = 4
    /\ jMinRaise (Table_MarshalJSON t2) = 6
    /\ Table_MarshalJSON t2 <> Table_MarshalJSON examples.tableStarted.
Proof.
  destruct (Table_UnmarshalJSON examples.registered examples.emptyTable
              (Table_MarshalJSON examples.tableStarted)) as [t2| | |] eqn:E;
    try (vm_compute in E; discriminate E).
  exists t2. split; [reflexivity|].
  vm_compute in E. injection E as <-.
  split; [vm_compute; reflexivity|]. split; [vm_compute; reflexivity|].
  intros H. apply (f_equal jMinRaise) in H. vm_compute in H. discriminate H.
Qed.

(* ===================================================================== *)
(** * Properties of the cards                                            *)
(* ===================================================================== *)

Section card_facts.

Import gostring hand.

(** A byte of a string is below 256 and is the byte of one character. *)
Lemma byte_of_range a : 0 <= byte_of a < 256.
Proof.
  unfold byte_of. pose proof (N_ascii_bounded a). lia.
Qed.

Lemma ascii_of_byte_of a : ascii_of (byte_of a) = a.
Proof. unfold ascii_of, byte_of. rewrite N2Z.id. apply ascii_N_embedding. Qed.

(** The branch of [decodeRune] on an ill-formed sequence. *)
Ltac invalid := intros [= <- <-]; left; split; [reflexivity|lia].

(** A rune that [decodeRune] reads from well-formed bytes is written back
    to those bytes by [encodeRune], and the width is their number. *)
Lemma decodeRune_encode s c n :
  decodeRune s = (c, n) ->
  (c = RuneError /\ (n <= 1)%nat)
  \/ exists u tail, s = (u ++ tail)%string /\ String.length u = n /\ encodeRune c = u.
Proof.
  destruct s as [|a0 s1]; simpl; [invalid|].
  pose proof (byte_of_range a0) as R0.
  assert (Ha0 := ascii_of_byte_of a0).
  set (b0 := byte_of a0) in *.
  destruct (Z.ltb_spec b0 128) as [L1|L1].
  { intros [= <- <-]. right. exists (String a0 EmptyString), s1.
    split; [done|]. split; [done|]. unfold encodeRune, str1.
    rewrite Ha0. zcases. }
  destruct (Z.ltb_spec b0 194) as [L2|L2]; [invalid|].
  destruct (Z.ltb_spec b0 224) as [L3|L3].
  { destruct s1 as [|a1 s2]; [invalid|].
    pose proof (byte_of_range a1) as R1.
    assert (Ha1 := ascii_of_byte_of a1).
    set (b1 := byte_of a1) in *. unfold cont.
    destruct (Z.leb_spec 128 b1) as [C1|C1]; simpl; [|invalid].
    destruct (Z.leb_spec b1 191) as [C2|C2]; simpl; [|invalid].
    intros [= <- <-]. right. exists (String a0 (String a1 EmptyString)), s2.
    split; [done|]. split; [done|]. unfold encodeRune, str1.
    assert (((b0 - 192) * 64 + (b1 - 128)) / 64 = b0 - 192) as E1
      by (Z.div_mod_to_equations; lia).
    assert (((b0 - 192) * 64 + (b1 - 128)) mod 64 = b1 - 128) as E2
      by (Z.div_mod_to_equations; lia).
    rewrite E1, E2.
    replace (192 + (b0 - 192)) with b0 by lia.
    replace (128 + (b1 - 128)) with b1 by lia. rewrite Ha0, Ha1. zcases. }
  destruct (Z.ltb_spec b0 240) as [L4|L4].
  { destruct s1 as [|a1 [|a2 s3]]; [invalid|invalid|].
    pose proof (byte_of_range a1) as R1. pose proof (byte_of_range a2) as R2.
    assert (Ha1 := ascii_of_byte_of a1). assert (Ha2 := ascii_of_byte_of a2).
    set (b1 := byte_of a1) in *. set (b2 := byte_of a2) in *. unfold cont.
    destruct (Z.leb_spec (if b0 =? 224 then 160 else 128) b1) as [C1|C1]; simpl; [|invalid].
    destruct (Z.leb_spec b1 (if b0 =? 237 then 159 else 191)) as [C2|C2]; simpl; [|invalid].
    destruct (Z.leb_spec 128 b2) as [C3|C3]; simpl; [|invalid].
    destruct (Z.leb_spec b2 191) as [C4|C4]; simpl; [|invalid].
    intros [= <- <-]. right.
    exists (String a0 (String a1 (String a2 EmptyString))), s3.
    split; [done|]. split; [done|]. unfold encodeRune, str1.
    set (c := (b0 - 224) * 4096 + (b1 - 128) * 64 + (b2 - 128)).
    assert (128 <= b1 <= 191) as B1 by (destruct (b0 =? 224), (b0 =? 237); lia).
    assert (c / 4096 = b0 - 224) as E1 by (unfold c; Z.div_mod_to_equations; lia).
    assert (c / 64 = (b0 - 224) * 64 + (b1 - 128)) as E2' by (unfold c; Z.div_mod_to_equations; lia).
    assert ((c / 64) mod 64 = b1 - 128) as E2 by (rewrite E2'; Z.div_mod_to_equations; lia).
    assert (c mod 64 = b2 - 128) as E3 by (unfold c; Z.div_mod_to_equations; lia).
    assert (2048 <= c < 65536 /\ ~ (55296 <= c <= 57343)) as [Hc Hs].
    { unfold c. destruct (Z.eqb_spec b0 224), (Z.eqb_spec b0 237); lia. }
    rewrite E1, E2, E3.
    replace (224 + (b0 - 224)) with b0 by lia.
    replace (128 + (b1 - 128)) with b1 by lia.
    replace (128 + (b2 - 128)) with b2 by lia. rewrite Ha0, Ha1, Ha2.
    zcases. }
  destruct (Z.ltb_spec b0 245) as [L5|L5]; [|invalid].
  destruct s1 as [|a1 [|a2 [|a3 s4]]]; [invalid|invalid|invalid|].
  pose proof (byte_of_range a1) as R1. pose proof (byte_of_range a2) as R2.
  pose proof (byte_of_range a3) as R3.
  assert (Ha1 := ascii_of_byte_of a1). assert (Ha2 := ascii_of_byte_of a2).
  assert (Ha3 := ascii_of_byte_of a3).
  set (b1 := byte_of a1) in *. set (b2 := byte_of a2) in *.
  set (b3 := byte_of a3) in *. unfold cont.
  destruct (Z.leb_spec (if b0 =? 240 then 144 else 128) b1) as [C1|C1]; simpl; [|invalid].
  destruct (Z.leb_spec b1 (if b0 =? 244 then 143 else 191)) as [C2|C2]; simpl; [|invalid].
  destruct (Z.leb_spec 128 b2) as [C3|C3]; simpl; [|invalid].
  destruct (Z.leb_spec b2 191) as [C4|C4]; simpl; [|invalid].
  destruct (Z.leb_spec 128 b3) as [C5|C5]; simpl; [|invalid].
  destruct (Z.leb_spec b3 191) as [C6|C6]; simpl; [|invalid].
  intros [= <- <-]. right.
  exists (String a0 (String a1 (String a2 (String a3 EmptyString)))), s4.
  split; [done|]. split; [done|]. unfold encodeRune, str1.
  set (c := (b0 - 240) * 262144 + (b1 - 128) * 4096 + (b2 - 128) * 64 + (b3 - 128)).
  assert (128 <= b1 <= 191) as B1 by (destruct (b0 =? 240), (b0 =? 244); lia).
  assert (c / 262144 = b0 - 240) as E1 by (unfold c; Z.div_mod_to_equations; lia).
  assert (c / 4096 = (b0 - 240) * 64 + (b1 - 128)) as E2' by (unfold c; Z.div_mod_to_equations; lia).
  assert ((c / 4096) mod 64 = b1 - 128) as E2 by (rewrite E2'; Z.div_mod_to_equations; lia).
  assert (c / 64 = (b0 - 240) * 4096 + (b1 - 128) * 64 + (b2 - 128)) as E3' by (unfold c; Z.div_mod_to_equations; lia).
  assert ((c / 64) mod 64 = b2 - 128) as E3 by (rewrite E3'; Z.div_mod_to_equations; lia).
  assert (c mod 64 = b3 - 128) as E4 by (unfold c; Z.div_mod_to_equations; lia).
  assert (65536 <= c <= 1114111) as Hc.
  { unfold c. destruct (Z.eqb_spec b0 240), (Z.eqb_spec b0 244); lia. }
  rewrite E1, E2, E3, E4.
  replace (240 + (b0 - 240)) with b0 by lia.
  replace (128 + (b1 - 128)) with b1 by lia.
  replace (128 + (b2 - 128)) with b2 by lia.
  replace (128 + (b3 - 128)) with b3 by lia. rewrite Ha0, Ha1, Ha2, Ha3.
  zcases.
Qed.


(** The indices of [range] grow from the start index past the skipped
    bytes, and [range] runs over every byte. *)
Lemma rangeFrom_index k i s j c :
  (j, c) ∈ rangeFrom k i s -> i + Z.of_nat k <= j.
Proof.
  revert k i. induction s as [|a s IH]; intros k i; cbn [rangeFrom].
  - intros H. by apply elem_of_nil in H.
  - destruct k as [|k].
    + destruct (decodeRune (String a s)) as [c0 size].
      intros [[= -> ->]|H]%elem_of_cons; [lia|]. apply IH in H. lia.
    + intros H. apply IH in H. lia.
Qed.

Lemma rangeFrom_nil k i s :
  rangeFrom k i s = [] -> (String.length s <= k)%nat.
Proof.
  revert k i. induction s as [|a s IH]; intros k i; cbn [rangeFrom String.length]; [lia|].
  destruct k as [|k].
  - by destruct (decodeRune (String a s)).
  - intros H%IH. lia.
Qed.

(** [indexOf] finds exactly the ranks of the slice. *)
Lemma indexIn_spec i ranks r :
  0 <= i ->
  (r ∈ ranks /\ i <= indexIn i ranks r)
  \/ ((r ∉ ranks) /\ indexIn i ranks r = -1).
Proof.
  revert i. induction ranks as [|rank rest IH]; intros i Hi; cbn [indexIn].
  - right. split; [apply not_elem_of_nil|done].
  - destruct (String.eqb_spec r rank) as [->|Hne].
    + left. split; [left|lia].
    + destruct (IH (i + 1)) as [[Hin Hle]|[Hout Heq]]; [lia| |].
      * left. split; [by right|lia].
      * right. split; [|done]. by intros [?|?]%elem_of_cons.
Qed.

Lemma Rank_valid_spec r : Rank_valid r = true <-> r ∈ allRanks.
Proof.
  unfold Rank_valid, indexOf.
  destruct (indexIn_spec 0 allRanks r) as [[Hin Hle]|[Hout Heq]]; [lia| |].
  - split; [done|]. intros _. apply negb_true_iff, Z.eqb_neq. lia.
  - rewrite Heq. split; [done|]. intros H. by destruct Hout.
Qed.

(** A rank is one byte. *)
Lemma rank_one_byte r : r ∈ allRanks -> exists a, r = String a EmptyString.
Proof.
  unfold allRanks. rewrite !elem_of_cons, elem_of_nil.
  intros H. repeat (destruct H as [->|H]; [eexists; reflexivity|]). done.
Qed.

(** What [strings.HasPrefix] and [strings.Contains] accept. *)
Lemma hasPrefix_prefixes s u : hasPrefix s u = true -> u ∈ prefixes s.
Proof.
  revert u. induction s as [|a s IH]; intros [|b u]; cbn [hasPrefix prefixes];
    try done.
  - intros _. left.
  - intros _. left.
  - intros [Hab Hu]%andb_true_iff. apply Ascii.eqb_eq in Hab as ->.
    right. apply list_elem_of_fmap. exists u. split; [done|]. by apply IH.
Qed.

Lemma Contains_substrings s u : Contains s u = true -> u ∈ substrings s.
Proof.
  induction s as [|a s IH]; cbn [Contains substrings].
  - rewrite orb_false_r. intros H%hasPrefix_prefixes. by rewrite app_nil_r.
  - intros [H|H]%orb_true_iff; apply elem_of_app.
    + left. by apply hasPrefix_prefixes.
    + right. by apply IH.
Qed.

(** A substring of the four suits that is the encoding of the rune it
    starts with is a suit. *)
Lemma suit_of_substring u :
  u ∈ substrings "♠♥♦♣" ->
  encodeRune (decodeRune u).1 = u ->
  u ∈ allSuits.
Proof.
  intros Hu.
  assert (Hall : Forall (fun u => encodeRune (decodeRune u).1 = u -> u ∈ allSuits)
                        (substrings "♠♥♦♣")).
  { vm_compute substrings.
    repeat (constructor;
            [first [ by (intros H; vm_compute in H; discriminate H)
                   | by (intros _; set_solver) ] | ]).
    constructor. }
  rewrite Forall_forall in Hall. by apply Hall.
Qed.

(** Length and concatenation of strings. *)
Lemma string_length_app (u v : string) :
  String.length (u ++ v) = (String.length u + String.length v)%nat.
Proof.
  induction u as [|a u IH]; [done|].
  change (String a u ++ v)%string with (String a (u ++ v)).
  cbn [String.length]. by rewrite IH.
Qed.

Lemma string_app_empty (u : string) : (u ++ EmptyString)%string = u.
Proof.
  induction u as [|a u IH]; [done|].
  change (String a u ++ EmptyString)%string with (String a (u ++ EmptyString)).
  by rewrite IH.
Qed.

(** [string(c)] is never empty. *)
Lemma encodeRune_length c : (1 <= String.length (encodeRune c))%nat.
Proof.
  unfold encodeRune, str1.
  repeat match goal with |- context [if ?b then _ else _] => destruct b end;
    cbn [String.length]; lia.
Qed.

(** A text that [UnmarshalText] accepts is a rank followed by a suit. *)
Lemma UnmarshalText_Ok c text c' :
  UnmarshalText c text = Ok c' ->
  exists r s, r ∈ allRanks /\ s ∈ allSuits /\ text = (r ++ s)%string
              /\ c' = mkCard r s.
Proof.
  unfold UnmarshalText, range.
  destruct text as [|a0 s1]; [done|]. cbn [rangeFrom].
  destruct (decodeRune (String a0 s1)) as [c1 n1] eqn:D1.
  cbn [scanText]. simpl (0 =? 0). simpl (0 =? 1). cbn [andb].
  destruct (Rank_valid (encodeRune c1)) eqn:Hr; [|done].
  apply Rank_valid_spec in Hr.
  destruct (rank_one_byte _ Hr) as [a Ha].
  apply decodeRune_encode in D1 as [[-> _]|(u & tail & Hs & Hlen & Hu)].
  { vm_compute in Ha. discriminate Ha. }
  rewrite Ha in Hu. subst u. injection Hs as <- Hs.
  change s1 with (EmptyString ++ s1)%string in Hs. change (s1 = tail) in Hs. subst tail.
  change (1%nat = n1) in Hlen. subst n1.
  simpl (1 - 1)%nat.
  destruct s1 as [|a1 s2]; [by rewrite Ha|]. cbn [rangeFrom].
  destruct (decodeRune (String a1 s2)) as [c2 n2] eqn:D2.
  cbn [scanText]. replace (0 + 1 =? 0) with false by done.
  replace (0 + 1 =? 1) with true by done. cbn [andb].
  destruct (Suit_valid (encodeRune c2)) eqn:Hv; [|done].
  destruct (rangeFrom (n2 - 1) (0 + 1 + 1) s2) as [|[j c3] l] eqn:Hrest.
  2:{ assert ((j, c3) ∈ rangeFrom (n2 - 1) (0 + 1 + 1) s2) as Hj
        by (rewrite Hrest; left).
      apply rangeFrom_index in Hj. cbn [scanText].
      replace (j =? 0) with false by (symmetry; apply Z.eqb_neq; lia).
      replace (j =? 1) with false by (symmetry; apply Z.eqb_neq; lia).
      done. }
  apply rangeFrom_nil in Hrest. cbn [scanText].
  unfold Suit_valid in Hv. apply Contains_substrings in Hv.
  pose proof D2 as D2'.
  apply decodeRune_encode in D2 as [[-> _]|(u & tail & Hs & Hlen & Hu)].
  { vm_compute in Hv. set_solver. }
  assert (tail = EmptyString) as ->.
  { apply (f_equal String.length) in Hs. rewrite string_length_app in Hs.
    cbn [String.length] in Hs. destruct tail; [done|].
    cbn [String.length] in Hs. exfalso.
    pose proof (encodeRune_length c2) as Hc2. rewrite Hu in Hc2. lia. }
  rewrite string_app_empty in Hs. subst u.
  rewrite Hu in Hv |- *.
  assert (String a1 s2 ∈ allSuits) as Hsuit.
  { apply suit_of_substring; [done|]. by rewrite D2'. }
  rewrite Ha. cbn. intros [= <-].
  exists (String a0 EmptyString), (String a1 s2).
  rewrite Ha in Hr. done.
Qed.

(** A rank followed by a suit is accepted and is two runes long. *)
Lemma UnmarshalText_cardText c r s :
  r ∈ allRanks -> s ∈ allSuits ->
  UnmarshalText c (r ++ s)%string = Ok (mkCard r s)
  /\ length (range (r ++ s)%string) = 2%nat.
Proof.
  unfold allRanks, allSuits. rewrite !elem_of_cons, !elem_of_nil.
  intros Hr Hs.
  repeat (destruct Hr as [->|Hr]; [|]); try done;
    (repeat (destruct Hs as [->|Hs]; [|]); try done);
    split; vm_compute; reflexivity.
Qed.

(** [UnmarshalText] returns the card or the error of the format. *)
Lemma UnmarshalText_total c text :
  (exists c', UnmarshalText c text = Ok c')
  \/ UnmarshalText c text = Err (ErrOther errStr).
Proof.
  unfold UnmarshalText.
  destruct (scanText (range text) EmptyString EmptyString) as [[rank suit]|];
    [|by right].
  destruct (_ || _); [by right|]. left. by eexists.
Qed.

(** The cards of [Cards] have a rank and a suit of the two sets. *)
Lemma Cards_cardText card :
  card ∈ Cards -> TheRank card ∈ allRanks /\ TheSuit card ∈ allSuits.
Proof.
  unfold Cards. intros (suit & Hcard & Hsuit)%list_elem_of_bind.
  apply list_elem_of_fmap in Hcard as (r & -> & Hr).
  split; [|done]. cbn. by apply list_elem_of_In, in_rev, list_elem_of_In in Hr.
Qed.

End card_facts.

(** C9.  [Card.UnmarshalText] succeeds exactly on the texts made of one
    rank of 23456789TJQKA followed by one suit of ♠♥♦♣, two characters, and
    the card it sets has that rank and that suit; on every other text it
    returns the error of the format; and on the text that [MarshalText]
    gives for any of the 52 cards it sets that card again. *)
Theorem UnmarshalText_card_format :
  (forall c text c',
      hand.UnmarshalText c text = Ok c' <->
      exists r s, cardText text r s /\ c' = hand.mkCard r s)
  /\ (forall text r s,
         cardText text r s -> length (gostring.range text) = 2%nat)
  /\ (forall c text,
         ~ (exists r s, cardText text r s) ->
         hand.UnmarshalText c text = Err (ErrOther hand.errStr))
  /\ length hand.Cards = 52%nat
  /\ NoDup hand.Cards
  /\ (forall c card,
         card ∈ hand.Cards ->
         (text ← hand.MarshalText card; hand.UnmarshalText c text) = Ok card).
Proof.
  assert (Hiff : forall c text c',
             hand.UnmarshalText c text = Ok c' <->
             exists r s, cardText text r s /\ c' = hand.mkCard r s).
  { intros c text c'. split.
    - intros (r & s & Hr & Hs & -> & ->)%UnmarshalText_Ok.
      exists r, s. by repeat split.
    - intros (r & s & (Hr & Hs & ->) & ->).
      by apply UnmarshalText_cardText. }
  split; [exact Hiff|]. split.
  { intros text r s (Hr & Hs & ->).
    by apply (UnmarshalText_cardText (hand.mkCard r s)). }
  split.
  { intros c text Hnot.
    destruct (UnmarshalText_total c text) as [[c' Hc']|Herr]; [|done].
    apply Hiff in Hc' as (r & s & Htext & _). destruct Hnot. by exists r, s. }
  split; [reflexivity|]. split.
  { apply (bool_decide_unpack _). vm_compute. reflexivity. }
  intros c [r s] [Hr Hs]%Cards_cardText. cbn in Hr, Hs.
  change (hand.UnmarshalText c (r ++ s)%string = Ok (hand.mkCard r s)).
  by apply UnmarshalText_cardText.
Qed.

(** C9 at the text of the four of spades, at a text with a second suit,
    and at the ace of hearts. *)
Lemma UnmarshalText_card_format_witness :
  hand.UnmarshalText (hand.mkCard EmptyString EmptyString) "4♠"
  = Ok (hand.mkCard hand.Four hand.Spades)
  /\ hand.UnmarshalText (hand.mkCard EmptyString EmptyString) "4♠♠"
     = Err (ErrOther hand.errStr)
  /\ (text ← hand.MarshalText (hand.mkCard hand.Ace hand.Hearts);
      hand.UnmarshalText (hand.mkCard EmptyString EmptyString) text)
     = Ok (hand.mkCard hand.Ace hand.Hearts).
Proof.
  destruct UnmarshalText_card_format as (Hiff & Hlen & Herr & _ & _ & Hinv).
  split.
  { apply Hiff. exists hand.Four, hand.Spades. split; [|reflexivity].
    split; [|split]; [set_solver|set_solver|reflexivity]. }
  split.
  { apply Herr. intros (r & s & Htext). apply Hlen in Htext.
    vm_compute in Htext. discriminate Htext. }
  apply Hinv. unfold hand.Cards, hand.allSuits, hand.allRanks. set_solver.
Defined.

(* ===================================================================== *)
(** * Further properties of the pot, the payout and the table            *)
(* ===================================================================== *)

Section ledger_facts.





End ledger_facts.

(** X1.  [Pot.contribute] panics on a negative amount and on nothing else;
    a contribution adds its chips to the entry of the seat and to the chips
    of the pot and leaves the other seats as they are. *)
Theorem contribute_adds (p : Pot) (seat chips : Z) :
  (chips < 0 -> contribute p seat chips = Panic)
  /\ (0 <= chips ->
      exists p',
        contribute p seat chips = Ok p'
        /\ GetContribution p' seat = GetContribution p seat + chips
        /\ (forall s, s <> seat -> GetContribution p' s = GetContribution p s)
        /\ Chips p' = Chips p + chips).
Proof.
  unfold contribute. split; intros H.
  - destruct (Z.ltb_spec chips 0); [done|lia].
  - destruct (Z.ltb_spec chips 0); [lia|]. eexists. split; [done|].
    unfold GetContribution. cbn [contributions].
    split; [|split].
    + rewrite get_insert. by rewrite decide_True.
    + intros s Hs. rewrite get_insert. by rewrite decide_False.
    + rewrite Chips_insert, Chips_mkPot. lia.
Qed.

Lemma contribute_adds_witness :
  contribute (pot_of_list [(1, 5)]) 1 (-1) = Panic
  /\ exists p',
       contribute (pot_of_list [(1, 5)]) 1 3 = Ok p'
       /\ GetContribution p' 1 = GetContribution (pot_of_list [(1, 5)]) 1 + 3
       /\ (forall s, s <> 1 -> GetContribution p' s
                               = GetContribution (pot_of_list [(1, 5)]) s)
       /\ Chips p' = Chips (pot_of_list [(1, 5)]) + 3.
Proof.
  split.
  - apply (proj1 (contribute_adds (pot_of_list [(1, 5)]) 1 (-1))). lia.
  - apply (proj2 (contribute_adds (pot_of_list [(1, 5)]) 1 3)). lia.
Defined.


Section sidepot_facts.

Lemma sidePotAmounts_parts p :
  StronglySorted Z.lt (sidePotAmounts p).1
  /\ (forall a, a ∈ (sidePotAmounts p).1
                <-> a <> 0 /\ exists k, contributions p !! k = Some a)
  /\ (forall k, contributions p !! k = Some 0
                -> contributions (sidePotAmounts p).2 !! k = None)
  /\ (forall k, contributions p !! k <> Some 0
                -> contributions (sidePotAmounts p).2 !! k = contributions p !! k).
Proof.
  pose proof (sidePotAmounts_spec p) as H.
  by destruct (sidePotAmounts p) as [amounts p'].
Qed.

Lemma sidePotAmounts_Chips p : Chips (sidePotAmounts p).2 = Chips p.
Proof.
  rewrite <- (Chips_mkPot (sidePotAmounts p).2), <- (Chips_mkPot p).
  apply Chips_ext. intros k. apply sidePotAmounts_get.
Qed.

Lemma bucket_positive last a p :
  last < a -> (exists k, contributions p !! k = Some a) ->
  positivePot (bucket last a p).
Proof.
  intros Hlt [k Hk]. unfold positivePot. rewrite bucket_contributions. split.
  - intros Hempty. apply (f_equal (fun m => m !! k)) in Hempty.
    rewrite lookup_omap, Hk, lookup_empty in Hempty. cbn in Hempty.
    unfold bucketShare in Hempty.
    destruct (Z.gtb_spec a last); [|lia].
    destruct (Z.geb_spec a a); [|lia]. done.
  - intros seat chips. rewrite lookup_omap.
    destruct (contributions p !! seat) as [c|]; [|done]. cbn.
    unfold bucketShare.
    destruct (Z.gtb_spec c last); cbn; [|done].
    destruct (Z.geb_spec c a); cbn; [intros [= <-]; lia|].
    destruct (Z.ltb_spec c a); [intros [= <-]; lia|done].
Qed.

Lemma buckets_positive amounts last p :
  StronglySorted Z.lt (last :: amounts) ->
  (forall a, a ∈ amounts -> exists k, contributions p !! k = Some a) ->
  Forall positivePot (buckets last amounts p).
Proof.
  revert last. induction amounts as [|a rest IH]; intros last Hs Hin; cbn.
  - constructor.
  - apply StronglySorted_inv in Hs as [Hs Hall]. constructor.
    + apply bucket_positive.
      * by apply Forall_cons in Hall as [? _].
      * apply Hin. left.
    + apply IH; [done|]. intros a' Ha'. apply Hin. by right.
Qed.

Lemma buckets_length amounts last p :
  length (buckets last amounts p) = length amounts.
Proof. revert last. induction amounts; intros; cbn; [done|]. by rewrite IHamounts. Qed.

Lemma foldInto_positive prev pot :
  positivePot prev -> positivePot pot -> positivePot (foldInto prev pot).
Proof.
  intros [Hne Hpos] [_ Hpos']. rewrite foldInto_potSum. unfold potSum, positivePot.
  cbn [contributions]. split.
  - intros Hempty. apply Hne. apply map_eq. intros k.
    apply (f_equal (fun m => m !! k)) in Hempty.
    rewrite lookup_union_with, lookup_empty in Hempty. rewrite lookup_empty.
    destruct (contributions prev !! k), (contributions pot !! k); done.
  - intros seat chips. rewrite lookup_union_with.
    destruct (contributions prev !! seat) as [x|] eqn:Ex,
             (contributions pot !! seat) as [y|] eqn:Ey; cbn; intros [= <-].
    + apply Hpos in Ex. apply Hpos' in Ey. lia.
    + by apply Hpos in Ex.
    + by apply Hpos' in Ey.
Qed.

Lemma mergeBuckets_Forall (P : Pot -> Prop) begin pots :
  (forall prev pot, P prev -> P pot -> P (foldInto prev pot)) ->
  Forall P pots ->
  forall i sidePots lastAllIn,
    Forall P sidePots ->
    Forall P (mergeBuckets begin i pots sidePots lastAllIn).
Proof.
  intros Hfold. induction 1 as [|pot rest Hpot _ IH]; intros i sidePots lastAllIn Hsp;
    cbn [mergeBuckets]; [done|].
  apply IH. destruct (_ || _ || _).
  - apply Forall_app. split; [done|]. by constructor.
  - apply Forall_alter; [done|]. intros x _ Hx. by apply Hfold.
Qed.

Lemma mergeBuckets_length begin pots :
  forall i sidePots lastAllIn,
    (length sidePots <= length (mergeBuckets begin i pots sidePots lastAllIn)
     <= length sidePots + length pots)%nat
    /\ (i = 0%nat -> pots <> [] ->
        (1 <= length (mergeBuckets begin i pots sidePots lastAllIn))%nat).
Proof.
  induction pots as [|pot rest IH]; intros i sidePots lastAllIn;
    cbn [mergeBuckets length]; [split; [lia|done]|].
  match goal with |- context [mergeBuckets _ _ _ ?sp ?b] =>
    set (sps := sp); destruct (IH (S i) sps b) as [[Hlo Hhi] _] end.
  assert (Hlen : (length sidePots <= length sps <= S (length sidePots))%nat
                 /\ (i = 0%nat -> (1 <= length sps)%nat)).
  { subst sps.
    destruct lastAllIn, (hasAllin begin sidePots pot), i as [|i];
      cbn [orb andb Nat.eqb]; rewrite ?length_app, ?length_alter;
      cbn [length]; lia. }
  split; [lia|]. intros Hi _. destruct Hlen as [_ H1]. specialize (H1 Hi). lia.
Qed.

End sidepot_facts.

(** X3.  [Pot.sidePotAmounts] returns the non-zero contributions of the
    pot, each once, in ascending order; it deletes the entries of the seats
    that have contributed nothing from the pot and changes nothing else, so
    the chips of the pot stay. *)
Theorem sidePotAmounts_levels (p : Pot) :
  StronglySorted Z.lt (sidePotAmounts p).1
  /\ (forall a, a ∈ (sidePotAmounts p).1
                <-> a <> 0 /\ exists seat, contributions p !! seat = Some a)
  /\ contributions (sidePotAmounts p).2
     = filter (fun kv => kv.2 <> 0) (contributions p)
  /\ Chips (sidePotAmounts p).2 = Chips p.
Proof.
  destruct (sidePotAmounts_parts p) as (Hs & Hin & Hz & Hnz).
  split; [done|]. split; [done|]. split; [|apply sidePotAmounts_Chips].
  apply map_eq. intros k.
  destruct (contributions p !! k) as [v|] eqn:Ek.
  - destruct (decide (v = 0)) as [->|Hv].
    + rewrite (Hz k Ek). symmetry. apply map_lookup_filter_None. right.
      intros v' Hv'. cbn. rewrite Ek in Hv'. injection Hv' as <-. tauto.
    + rewrite Hnz by congruence. rewrite Ek. symmetry.
      by apply map_lookup_filter_Some.
  - rewrite Hnz by congruence. rewrite Ek. symmetry.
    apply map_lookup_filter_None. by left.
Qed.

(** X4.  For a pot without negative contributions, every side pot that
    [SidePots] returns holds at least one seat and a positive number of
    chips of every seat it holds; there are at most as many side pots as
    distinct non-zero contributions, and there is none exactly when no seat
    has contributed a chip. *)
Theorem SidePots_positive (p : Pot) (playerBeginChips : gmap Z Z) :
  nonnegative p ->
  Forall positivePot (SidePots p playerBeginChips).1
  /\ (length (SidePots p playerBeginChips).1
      <= length (sidePotAmounts p).1)%nat
  /\ ((SidePots p playerBeginChips).1 = []
      <-> forall seat, get (contributions p) seat = 0).
Proof.
  intros Hnn. unfold SidePots.
  destruct (sidePotAmounts_parts p) as (Hs & Hin & Hz & Hnz).
  destruct (sidePotAmounts p) as [amounts p'] eqn:E. cbn [fst snd] in *.
  assert (Hpos : Forall (fun a => 0 < a) amounts).
  { apply Forall_forall. intros a Ha. apply Hin in Ha as (Hne & k & Hk).
    apply Hnn in Hk. lia. }
  split; [|split].
  - apply mergeBuckets_Forall; [apply foldInto_positive| |constructor].
    apply buckets_positive.
    + constructor; [done|]. done.
    + intros a Ha. apply Hin in Ha as (Hne & k & Hk). exists k.
      rewrite Hnz; [done|]. rewrite Hk. congruence.
  - destruct (mergeBuckets_length playerBeginChips (buckets 0 amounts p')
                0%nat [] false) as [[_ Hhi] _].
    rewrite buckets_length in Hhi. cbn in Hhi. lia.
  - split.
    + intros Hnil seat. destruct amounts as [|a rest].
      * unfold get. destruct (contributions p !! seat) as [v|] eqn:Ev; [|done].
        cbn. destruct (decide (v = 0)) as [|Hv]; [done|].
        assert (v ∈ @nil Z) as Hv' by (apply Hin; eauto).
        by apply elem_of_nil in Hv'.
      * destruct (mergeBuckets_length playerBeginChips
                    (buckets 0 (a :: rest) p') 0%nat [] false) as [_ H1].
        rewrite Hnil in H1. cbn in H1. specialize (H1 eq_refl).
        assert (1 <= 0)%nat by (apply H1; done). lia.
    + intros Hzero. destruct amounts as [|a rest]; [done|].
      assert (a ∈ a :: rest) as Ha by left.
      apply Hin in Ha as (Hne & k & Hk). specialize (Hzero k).
      rewrite (get_Some _ _ _ Hk) in Hzero. done.
Qed.

Lemma SidePots_positive_witness :
  nonnegative (pot_of_list [(0,5); (1,20); (2,50)])
  /\ Forall positivePot
       (SidePots (pot_of_list [(0,5); (1,20); (2,50)])
                 (list_to_map [(0,5); (1,20); (2,100)])).1.
Proof.
  assert (H : nonnegative (pot_of_list [(0,5); (1,20); (2,50)])).
  { intros seat chips Hs. unfold pot_of_list in Hs. cbn in Hs.
    rewrite !lookup_insert in Hs. rewrite lookup_empty in Hs.
    repeat case_decide; simplify_eq; lia. }
  split; [exact H|].
  exact (proj1 (SidePots_positive _ (list_to_map [(0,5); (1,20); (2,100)]) H)).
Defined.

Section results_facts.
Context {Hand : Type}.
Implicit Types (rs results : gmap Z (list (Result Hand))) (l : list (Result Hand)).

Lemma awards_app l1 l2 : awards (l1 ++ l2) = awards l1 + awards l2.
Proof. unfold awards. by rewrite fmap_app, Zsum_app. Qed.

Lemma resultsTotal_empty : resultsTotal (∅ : gmap Z (list (Result Hand))) = 0.
Proof. unfold resultsTotal. by rewrite map_fold_empty. Qed.

Lemma resultsTotal_insert_None rs k l :
  rs !! k = None -> resultsTotal (<[k := l]> rs) = resultsTotal rs + awards l.
Proof.
  intros Hk. unfold resultsTotal.
  rewrite map_fold_insert_L; [done | intros; lia | done].
Qed.

Lemma resultsTotal_delete rs k :
  resultsTotal (delete k rs) = resultsTotal rs - seatAwards rs k.
Proof.
  unfold seatAwards. destruct (rs !! k) as [l|] eqn:Hk.
  - change (default [] (Some l)) with l.
    rewrite <- (insert_delete_id rs k l Hk) at 2.
    rewrite resultsTotal_insert_None by apply lookup_delete_eq. lia.
  - rewrite delete_id by done. change (awards (default [] None)) with 0. lia.
Qed.

Lemma resultsTotal_insert rs k l :
  resultsTotal (<[k := l]> rs) = resultsTotal rs - seatAwards rs k + awards l.
Proof.
  rewrite <- insert_delete_eq.
  rewrite resultsTotal_insert_None by apply lookup_delete_eq.
  rewrite resultsTotal_delete. lia.
Qed.

(** ** The remainder loop keeps the chips *)

Lemma giveChip_total ws s results rem results' rem' :
  giveChip ws s results rem = Ok (results', rem') ->
  resultsTotal results' + rem' = resultsTotal results + rem
  /\ dom results' = dom results.
Proof.
  induction ws as [|w ws IH]; cbn [giveChip].
  - by intros [= <- <-].
  - destruct (w =? s); [|done].
    destruct (results !! w) as [[|r rs]|] eqn:Hw; try done.
    intros [= <- <-]. split.
    + rewrite resultsTotal_insert. unfold seatAwards. rewrite Hw.
      change (default [] (Some (r :: rs))) with (r :: rs).
      unfold awards. rewrite !fmap_cons, !Zsum_cons. cbn [rChips]. lia.
    + rewrite dom_insert_L. apply elem_of_dom_2 in Hw. set_solver.
Qed.

Lemma giveRemainder_total fuel ws results rem s results' :
  giveRemainder fuel ws results rem s = Ok results' ->
  resultsTotal results' = resultsTotal results + rem
  /\ dom results' = dom results.
Proof.
  revert results rem s. induction fuel as [|fuel IH]; intros results rem s;
    cbn [giveRemainder]; [done|].
  destruct (Z.eqb_spec rem 0) as [->|Hrem].
  - intros [= <-]. split; [lia|done].
  - destruct (giveChip ws s results rem) as [[results1 rem1]| | |] eqn:Hgive;
      try done. cbn.
    intros H. apply IH in H as [Ht Hd].
    apply giveChip_total in Hgive as [Ht1 Hd1]. split; [lia|congruence].
Qed.

Lemma resultsTotal_winners potNo q sh (winners : gmap Z (option Hand)) :
  resultsTotal ((fun hand => [mkResult potNo hand q sh]) <$> winners)
  = Z.of_nat (size winners) * q.
Proof.
  induction winners as [|k h winners Hk IH] using map_ind.
  - rewrite fmap_empty, resultsTotal_empty, map_size_empty. lia.
  - rewrite fmap_insert, resultsTotal_insert_None by (by rewrite lookup_fmap, Hk).
    rewrite IH, map_size_insert_None by done. unfold awards. cbn. lia.
Qed.

Lemma resultsFromWinners_total fuel potNo (winners : gmap Z (option Hand))
    chips button f results :
  resultsFromWinners fuel potNo winners chips button f = Ok results ->
  resultsTotal results = chips /\ dom results = dom winners.
Proof.
  unfold resultsFromWinners.
  pose proof (winners_fold potNo (Z.quot chips (Z.of_nat (size winners)))
                (f (Z.of_nat (size winners))) winners) as Hfold.
  cbv zeta in Hfold.
  destruct (map_fold _ _ winners) as [results0 ws]. cbn [fst snd] in Hfold.
  destruct Hfold as [-> _].
  destruct (Z.eqb_spec (Z.of_nat (size winners)) 0) as [|Hn]; [done|].
  intros H. apply giveRemainder_total in H as [Ht Hd].
  rewrite resultsTotal_winners in Ht. rewrite dom_fmap_L in Hd.
  split; [|done]. rewrite Ht.
  pose proof (Z.quot_rem' chips (Z.of_nat (size winners))). lia.
Qed.

(** ** The remainder loop on winners outside the ring of ten seats *)

Lemma giveChip_miss ws s results rem :
  s ∉ ws -> giveChip ws s results rem = Ok (results, rem).
Proof.
  induction ws as [|w ws IH]; intros Hs; cbn [giveChip]; [done|].
  destruct (Z.eqb_spec w s) as [->|_]; [set_solver|]. apply IH. set_solver.
Qed.

Lemma giveRemainder_outside ws results rem :
  (forall w, w ∈ ws -> w <= -10 \/ 10 <= w) -> rem <> 0 ->
  forall fuel s, -10 < s < 10 ->
    giveRemainder fuel ws results rem s = OutOfFuel.
Proof.
  intros Hws Hrem. induction fuel as [|fuel IH]; intros s Hs;
    cbn [giveRemainder]; [done|].
  destruct (Z.eqb_spec rem 0); [done|].
  rewrite giveChip_miss; cbn.
  - apply IH. pose proof (Z.rem_bound_abs (s + 1) 10).
    destruct (Z.rem_bound_pos_pos (Z.abs (s + 1)) 10) as [_ ?]; [lia..|].
    rewrite Z.rem_abs_l in H0 by lia. lia.
  - intros Hin. apply Hws in Hin. lia.
Qed.

(** ** [combineResults] *)

Lemma combine_step_lookup (combined m : gmap Z (list (Result Hand))) k :
  map_fold (fun k v combined => <[k := default [] (combined !! k) ++ v]> combined)
           combined m !! k
  = match m !! k with
    | Some v => Some (default [] (combined !! k) ++ v)
    | None => combined !! k
    end.
Proof.
  revert k.
  apply (map_fold_weak_ind
           (fun (r : gmap Z (list (Result Hand))) m =>
              forall k, r !! k = match m !! k with
                                 | Some v => Some (default [] (combined !! k) ++ v)
                                 | None => combined !! k
                                 end)).
  - intros k. by rewrite lookup_empty.
  - intros i x m' r Hi IH k. rewrite !lookup_insert. case_decide as Hk.
    + subst. by rewrite IH, Hi.
    + apply IH.
Qed.

Lemma combineResults_snoc (rs : list (gmap Z (list (Result Hand)))) m k :
  combineResults (rs ++ [m]) !! k
  = match m !! k with
    | Some v => Some (default [] (combineResults rs !! k) ++ v)
    | None => combineResults rs !! k
    end.
Proof. unfold combineResults. rewrite foldl_app. cbn. apply combine_step_lookup. Qed.

Lemma combineResults_two (a b : gmap Z (list (Result Hand))) k :
  combineResults [a; b] !! k
  = match a !! k, b !! k with
    | None, None => None
    | _, _ => Some (default [] (a !! k) ++ default [] (b !! k))
    end.
Proof.
  change [a; b] with ([a] ++ [b]). rewrite combineResults_snoc.
  change [a] with ([] ++ [a]). rewrite combineResults_snoc.
  unfold combineResults. cbn [foldl]. rewrite lookup_empty. cbn.
  destruct (a !! k), (b !! k); cbn; try done. by rewrite app_nil_r.
Qed.

Lemma seatAwards_total_ext (a b : gmap Z (list (Result Hand))) (c : gmap Z (list (Result Hand))) :
  (forall k, seatAwards c k = seatAwards a k + seatAwards b k) ->
  (forall k, c !! k = None -> a !! k = None /\ b !! k = None) ->
  resultsTotal c = resultsTotal a + resultsTotal b.
Proof.
  revert a b. induction c as [|k l c Hk IH] using map_ind; intros a b Hsum Hdom.
  - assert (a = ∅) as ->.
    { apply map_eq. intros k. rewrite lookup_empty. by apply Hdom. }
    assert (b = ∅) as ->.
    { apply map_eq. intros k. rewrite lookup_empty. by apply Hdom. }
    rewrite resultsTotal_empty. lia.
  - rewrite resultsTotal_insert_None by done.
    rewrite (IH (delete k a) (delete k b)).
    + rewrite !resultsTotal_delete. specialize (Hsum k).
      assert (seatAwards (<[k := l]> c) k = awards l) as E
        by (unfold seatAwards; by rewrite lookup_insert_eq).
      rewrite E in Hsum. lia.
    + intros j. unfold seatAwards. rewrite !lookup_delete. case_decide as Hj.
      * subst. rewrite Hk. done.
      * specialize (Hsum j). unfold seatAwards in Hsum.
        by rewrite lookup_insert_ne in Hsum.
    + intros j Hj. rewrite !lookup_delete. case_decide as Hkj; [done|].
      apply Hdom. by rewrite lookup_insert_ne.
Qed.

Lemma combineResults_two_total (a b : gmap Z (list (Result Hand))) :
  resultsTotal (combineResults [a; b]) = resultsTotal a + resultsTotal b.
Proof.
  apply seatAwards_total_ext.
  - intros k. unfold seatAwards. rewrite combineResults_two.
    destruct (a !! k), (b !! k); cbn [default from_option id];
      rewrite ?awards_app, ?app_nil_r; unfold awards; cbn [fmap list_fmap Zsum foldr]; lia.
  - intros k. rewrite combineResults_two. by destruct (a !! k), (b !! k).
Qed.

End results_facts.

Section payout_facts.
Context {Game : Type} {Hand : Type} `{!HandOps Hand}.

Lemma positivePot_nonnegative sp : positivePot sp -> nonnegative sp.
Proof. intros [_ H] seat chips Hs. apply H in Hs. lia. Qed.

(** The chips of the side pots are the chips of the pot. *)
Lemma SidePots_seatTotal p begin seat :
  nonnegative p ->
  seatTotal (SidePots p begin).1 seat = get (contributions p) seat.
Proof.
  intros Hnn. unfold SidePots.
  destruct (sidePotAmounts_parts p) as (Hsorted & Hin & Hc0 & Hc).
  pose proof (sidePotAmounts_get p seat) as Hget.
  destruct (sidePotAmounts p) as [amounts p']. cbn [fst snd] in *.
  unfold seatTotal.
  rewrite (mergeBuckets_total (fun sp => get (contributions sp) seat));
    [|intros; apply foldInto_get|by left].
  change (Zsum ((fun sp => get (contributions sp) seat) <$> [])) with 0.
  fold (seatTotal (buckets 0 amounts p') seat).
  rewrite buckets_seatTotal, <- Hget. unfold get.
  destruct (contributions p' !! seat) as [chips|] eqn:Hp'; [|done].
  cbn [default from_option id].
  assert (Hp : contributions p !! seat = Some chips /\ chips <> 0).
  { destruct (decide (contributions p !! seat = Some 0)) as [Hz|Hz].
    - rewrite (Hc0 _ Hz) in Hp'. done.
    - rewrite (Hc _ Hz) in Hp'. split; [done|]. intros ->. done. }
  destruct Hp as [Hp Hnz].
  assert (Hs0 : StronglySorted Z.lt (0 :: amounts)).
  { constructor; [done|]. apply Forall_forall. intros a Ha.
    apply Hin in Ha as [Ha [k Hk]]. apply Hnn in Hk. lia. }
  destruct (shareSum_spec amounts 0 chips Hs0) as [_ Hsum].
  rewrite Hsum; [lia|]. apply Hin. eauto.
Qed.

Lemma SidePots_potsTotal p begin :
  nonnegative p -> potsTotal (SidePots p begin).1 = Chips p.
Proof.
  intros Hnn. rewrite <- (Chips_mkPot p). apply potsTotal_ext.
  intros k. by apply SidePots_seatTotal.
Qed.

Lemma SidePots_snd p begin : (SidePots p begin).2 = (sidePotAmounts p).2.
Proof. unfold SidePots. by destruct (sidePotAmounts p). Qed.

Lemma SidePots_Forall_positive p begin :
  nonnegative p -> Forall positivePot (SidePots p begin).1.
Proof.
  intros Hnn. unfold SidePots.
  destruct (sidePotAmounts_parts p) as (Hs & Hin & Hz & Hnz).
  destruct (sidePotAmounts p) as [amounts p'] eqn:E. cbn [fst snd] in *.
  apply mergeBuckets_Forall; [apply foldInto_positive| |constructor].
  apply buckets_positive.
  - constructor; [done|]. apply Forall_forall. intros a Ha.
    apply Hin in Ha as (Hne & k & Hk). apply Hnn in Hk. lia.
  - intros a Ha. apply Hin in Ha as (Hne & k & Hk). exists k.
    rewrite Hnz; [done|]. rewrite Hk. congruence.
Qed.

Lemma handsForSeats_empty (seats : list Z) :
  handsForSeats (∅ : gmap Z (option Hand)) seats = ∅.
Proof. unfold handsForSeats. by rewrite map_fold_empty. Qed.

Lemma handsForSeats_nil (h : gmap Z (option Hand)) : handsForSeats h [] = ∅.
Proof.
  unfold handsForSeats.
  by apply (map_fold_weak_ind (fun (r : gmap Z (option Hand)) _ => r = ∅)).
Qed.

Lemma winningHands_empty sorting :
  winningHands (∅ : gmap Z (option Hand)) sorting = Ok ∅.
Proof. unfold winningHands. by rewrite map_fold_empty. Qed.

Lemma winningHandsForHoldem_empty (t : Table Game) sorting :
  winningHandsForHoldem (∅ : gmap Z (option Hand)) t sorting = Ok ∅.
Proof. unfold winningHandsForHoldem. by rewrite map_fold_empty. Qed.

Lemma resultsFromWinners_empty fuel potNo chips button f :
  resultsFromWinners fuel potNo (∅ : gmap Z (option Hand)) chips button f = Panic.
Proof. unfold resultsFromWinners. by rewrite map_fold_empty. Qed.


Lemma foldl_stuck {A B} (f : result A -> B -> result A) (l : list B) acc :
  (forall acc b, (forall x, acc <> Ok x) -> forall x, f acc b <> Ok x) ->
  (forall x, acc <> Ok x) -> forall x, foldl f acc l <> Ok x.
Proof.
  intros Hf. revert acc. induction l as [|b l IH]; intros acc Hacc x; cbn.
  - apply Hacc.
  - apply IH. by apply Hf.
Qed.

Lemma handsForSeats_lookup (h : gmap Z (option Hand)) (seats : list Z) k :
  handsForSeats h seats !! k = if decide (k ∈ seats) then h !! k else None.
Proof.
  unfold handsForSeats. revert k.
  apply (map_fold_weak_ind
           (fun (r : gmap Z (option Hand)) m =>
              forall k, r !! k = if decide (k ∈ seats) then m !! k else None)).
  - intros k. rewrite lookup_empty. by case_decide.
  - intros i x m r Hi IH k.
    destruct (foldl (fun found s => found || (s =? i)) false seats) eqn:Hfound.
    + assert (i ∈ seats) as Hin.
      { assert (Hgen : forall l b,
                  foldl (fun found s => found || (s =? i)) b l = true ->
                  b = true \/ i ∈ l).
        { induction l as [|s l IHl]; intros b; cbn; [by left|].
          intros H. apply IHl in H as [H|H]; [|right; by right].
          apply orb_true_iff in H as [H|H]; [by left|].
          apply Z.eqb_eq in H as ->. right. left. }
        apply Hgen in Hfound as [|]; done. }
      rewrite !lookup_insert. destruct (decide (i = k)) as [<-|Hk]; [|apply IH].
      by destruct (decide (i ∈ seats)).
    + assert (i ∉ seats) as Hout.
      { assert (Hgen : forall l b,
                  foldl (fun found s => found || (s =? i)) b l = false ->
                  b = false /\ i ∉ l).
        { induction l as [|s l IHl]; intros b; cbn.
          - intros ->. split; [done|]. apply not_elem_of_nil.
          - intros H. apply IHl in H as [H Hl].
            apply orb_false_iff in H as [-> H]. split; [done|].
            apply Z.eqb_neq in H. intros [?|?]%elem_of_cons; [congruence|done]. }
        by apply Hgen in Hfound as [_ ?]. }
      rewrite lookup_insert. destruct (decide (i = k)) as [<-|Hk]; [|apply IH].
      destruct (decide (i ∈ seats)) as [|_]; [done|].
      rewrite IH, Hi. by case_decide.
Qed.

Lemma winningHandsForHoldem_nil (h : gmap Z (option Hand)) (t : Table Game) sorting :
  (forall seat x, h !! seat = Some x -> x = None) ->
  winningHandsForHoldem h t sorting = Ok ∅.
Proof.
  intros Hnil. unfold winningHandsForHoldem.
  assert (map_fold
            (fun seat hand (handsCopy : gmap Z (option Hand)) =>
               if negb (IsOut t seat) && notNil hand
               then <[seat := hand]> handsCopy else handsCopy) ∅ h = ∅) as ->; [|done].
  revert Hnil.
  apply (map_fold_weak_ind
           (fun (r : gmap Z (option Hand)) m =>
              (forall seat x, m !! seat = Some x -> x = None) -> r = ∅)); [done|].
  intros i x m r Hi IH Hnil.
  rewrite (Hnil i x) by apply lookup_insert_eq. rewrite andb_false_r.
  apply IH. intros seat y Hy. apply (Hnil seat).
  rewrite lookup_insert_ne; [done|]. intros <-. congruence.
Qed.

Lemma payout_total fuel :
  forall potNo (t : Table Game) (highHands lowHands : gmap Z (option Hand))
         sorting button p results,
    nonnegative p ->
    (forall seat x, lowHands !! seat = Some x -> x = None) ->
    payout fuel potNo t highHands lowHands sorting button p = Ok results ->
    resultsTotal results = Chips p.
Proof.
  induction fuel as [|fuel IH];
    intros potNo t highHands lowHands sorting button p results Hnn Hlow;
    cbn [payout]; [done|].
  pose proof (SidePots_potsTotal p (GetPlayerBeginChips t) Hnn) as Htotal.
  pose proof (SidePots_Forall_positive p (GetPlayerBeginChips t) Hnn) as Hpos.
  pose proof (SidePots_snd p (GetPlayerBeginChips t)) as Hsnd.
  destruct (SidePots p (GetPlayerBeginChips t)) as [sidePots p'].
  cbn [fst snd] in *. subst p'.
  destruct (1 <? length sidePots)%nat.
  - set (step := fun (acc : result (Z * gmap Z (list (Result Hand)))) sp =>
                   '(potNo, results) ← acc;
                   r ← payout fuel potNo t highHands lowHands sorting button sp;
                   Ok (potNo + 1, combineResults [results; r])).
    assert (Hstuck : forall acc b, (forall x, acc <> Ok x) ->
                                   forall x, step acc b <> Ok x).
    { intros acc b Hacc x. unfold step. destruct acc as [[]| | |]; cbn; try done.
      by destruct (Hacc (z, g)). }
    assert (Hloop : forall sps n0 r0 n r,
               Forall positivePot sps ->
               foldl step (Ok (n0, r0)) sps = Ok (n, r) ->
               resultsTotal r = resultsTotal r0 + potsTotal sps).
    { induction sps as [|sp sps IHs]; intros n0 r0 n r Hall; cbn [foldl].
      - intros [= <- <-]. unfold potsTotal. cbn. lia.
      - apply Forall_cons in Hall as [Hsp Hall].
        destruct (payout fuel n0 t highHands lowHands sorting button sp)
          as [r1| | |] eqn:Hsp1.
        + assert (step (Ok (n0, r0)) sp = Ok (n0 + 1, combineResults [r0; r1])) as ->
            by (unfold step; cbn; by rewrite Hsp1).
          intros H. apply IHs in H; [|done].
          rewrite combineResults_two_total in H.
          apply IH in Hsp1; [|by apply positivePot_nonnegative|done].
          rewrite potsTotal_cons. lia.
        + assert (step (Ok (n0, r0)) sp = Err e) as ->
            by (unfold step; cbn; by rewrite Hsp1).
          intros H. exfalso. revert H. by apply foldl_stuck.
        + assert (step (Ok (n0, r0)) sp = Panic) as ->
            by (unfold step; cbn; by rewrite Hsp1).
          intros H. exfalso. revert H. by apply foldl_stuck.
        + assert (step (Ok (n0, r0)) sp = OutOfFuel) as ->
            by (unfold step; cbn; by rewrite Hsp1).
          intros H. exfalso. revert H. by apply foldl_stuck. }
    destruct (foldl step (Ok (0, ∅)) sidePots) as [[n r]| | |] eqn:Hfold; cbn; try done.
    intros [= <-]. apply Hloop in Hfold; [|done].
    rewrite resultsTotal_empty in Hfold. lia.
  - set (sideHighHands := handsForSeats highHands (seats (sidePotAmounts p).2)).
    set (sideLowHands := handsForSeats lowHands (seats (sidePotAmounts p).2)).
    rewrite (winningHandsForHoldem_nil sideLowHands).
    2:{ intros seat x. unfold sideLowHands. rewrite handsForSeats_lookup.
        case_decide; [apply Hlow|done]. }
    assert (Hsplit :
      (highWinners ← winningHandsForHoldem sideHighHands t hand.SortingHigh;
       lowWinners ← Ok (∅ : gmap Z (option Hand));
       if Nat.eqb (size lowWinners) 0 then
         resultsFromWinners (S fuel) potNo highWinners
           (Chips (sidePotAmounts p).2) button highPotShare
       else
         highResults ← resultsFromWinners (S fuel) potNo highWinners
                         (let highAmount := Z.quot (Chips (sidePotAmounts p).2) 2 in
                          if Z.rem highAmount 2 =? 1 then highAmount + 1 else highAmount)
                         button highPotShare;
         lowResults ← resultsFromWinners (S fuel) potNo lowWinners
                        (Z.quot (Chips (sidePotAmounts p).2) 2) button lowPotShare;
         Ok (combineResults [highResults; lowResults])) = Ok results ->
      resultsTotal results = Chips p).
    { destruct (winningHandsForHoldem sideHighHands t hand.SortingHigh)
        as [highWinners| | |]; cbn; try done.
      intros H. apply resultsFromWinners_total in H as [H _].
      by rewrite H, sidePotAmounts_Chips. }
    destruct (negb (0 <? size sideLowHands)%nat); [|exact Hsplit].
    destruct (winningHands sideHighHands sorting) as [winners| | |]; cbn; try done.
    destruct sorting; [| |exact Hsplit];
      intros H; apply resultsFromWinners_total in H as [H _];
      by rewrite H, sidePotAmounts_Chips.
Qed.

Lemma payout_zero_pot fuel potNo (t : Table Game)
    (highHands lowHands : gmap Z (option Hand)) sorting button p :
  (forall seat, get (contributions p) seat = 0) ->
  payout (S fuel) potNo t highHands lowHands sorting button p = Panic.
Proof.
  intros Hzero. cbn [payout].
  pose proof (SidePots_snd p (GetPlayerBeginChips t)) as Hsnd.
  assert (Hnil : (SidePots p (GetPlayerBeginChips t)).1 = []).
  { unfold SidePots.
    destruct (sidePotAmounts_parts p) as (Hs & Hin & Hz & Hnz).
    destruct (sidePotAmounts p) as [amounts p']. cbn [fst snd] in *.
    destruct amounts as [|a rest]; [done|].
    assert (a ∈ a :: rest) as Ha by left.
    apply Hin in Ha as (Hne & k & Hk). specialize (Hzero k).
    rewrite (get_Some _ _ _ Hk) in Hzero. done. }
  assert (Hempty : contributions (sidePotAmounts p).2 = ∅).
  { destruct (sidePotAmounts_parts p) as (Hs & Hin & Hz & Hnz).
    apply map_eq. intros k. rewrite lookup_empty.
    destruct (contributions p !! k) as [v|] eqn:Hk.
    - apply Hz. specialize (Hzero k). rewrite (get_Some _ _ _ Hk) in Hzero.
      by subst.
    - rewrite Hnz by congruence. done. }
  destruct (SidePots p (GetPlayerBeginChips t)) as [sidePots p'].
  cbn [fst snd] in *. subst sidePots p'. cbn [length].
  change (1 <? 0)%nat with false. cbn match.
  assert (Hseats : seats (sidePotAmounts p).2 = []).
  { unfold seats. by rewrite Hempty, map_fold_empty. }
  rewrite Hseats, !handsForSeats_nil, map_size_empty.
  change (negb (0 <? 0)%nat) with true. cbn match.
  rewrite winningHands_empty, !winningHandsForHoldem_empty. cbn.
  destruct sorting; apply resultsFromWinners_empty.
Qed.

End payout_facts.

Section payoutResults_facts.
Context {Game : Type} {Hand : Type}.
Implicit Types (t : Table Game) (rs : gmap Z (list (Result Hand))).

Lemma set_chips_same (p : PlayerState) : set_chips (chips p + 0) p = p.
Proof. destruct p. unfold set_chips. cbn. f_equal. lia. Qed.

Lemma set_players_same t : set_players (players t) t = t.
Proof. by destruct t. Qed.

Lemma paySeat_Ok seat (l : list (Result Hand)) :
  forall ps t p,
    ps !! seat = Some p ->
    foldl
      (fun (acc : result (Table Game)) (result : Result Hand) =>
         t ← acc;
         match players t !! seat with
         | None => Panic
         | Some p =>
             Ok (set_players
                   (<[seat := set_chips (chips p + rChips result) p]>
                      (players t)) t)
         end)
      (Ok (set_players ps t)) l
    = Ok (set_players (<[seat := set_chips (chips p + awards l) p]> ps) t).
Proof.
  induction l as [|r l IH]; intros ps t p Hp; cbn [foldl].
  - change (awards []) with 0. by rewrite set_chips_same, insert_id.
  - cbn [mbind result_bind players set_players]. rewrite Hp.
    change (set_players ?a (set_players ?b ?c)) with (set_players a c).
    rewrite (IH _ t (set_chips (chips p + rChips r) p))
      by apply lookup_insert_eq.
    rewrite insert_insert_eq. do 3 f_equal.
    unfold awards. rewrite fmap_cons, Zsum_cons.
    destruct p. unfold set_chips. cbn. f_equal. lia.
Qed.

Lemma paySeat_Panic seat (l : list (Result Hand)) t :
  players t !! seat = None -> l <> [] ->
  foldl
    (fun (acc : result (Table Game)) (result : Result Hand) =>
       t ← acc;
       match players t !! seat with
       | None => Panic
       | Some p =>
           Ok (set_players
                 (<[seat := set_chips (chips p + rChips result) p]>
                    (players t)) t)
       end)
    (Ok t) l
  = Panic.
Proof.
  intros Hp Hl. destruct l as [|r l]; [done|]. cbn [foldl].
  cbn [mbind result_bind]. rewrite Hp. clear. induction l; [done|]. done.
Qed.

Lemma paySeat_stuck seat (l : list (Result Hand)) :
  foldl
    (fun (acc : result (Table Game)) (result : Result Hand) =>
       t ← acc;
       match players t !! seat with
       | None => Panic
       | Some p =>
           Ok (set_players
                 (<[seat := set_chips (chips p + rChips result) p]>
                    (players t)) t)
       end)
    Panic l
  = Panic.
Proof. induction l; [done|]. done. Qed.

Lemma payoutResults_spec t rs :
  ((exists seat l, rs !! seat = Some l /\ l <> [] /\ players t !! seat = None)
   /\ payoutResults t rs = Panic)
  \/ ((forall seat l, rs !! seat = Some l -> l <> [] ->
                      is_Some (players t !! seat))
      /\ exists ps,
           payoutResults t rs = Ok (set_players ps t)
           /\ (forall seat,
                 ps !! seat
                 = (fun p => set_chips (chips p + seatAwards rs seat) p)
                     <$> players t !! seat)
           /\ stackSum ps = stackSum (players t) + resultsTotal rs).
Proof.
  unfold payoutResults.
  apply (map_fold_weak_ind
    (fun (r : result (Table Game)) (m : gmap Z (list (Result Hand))) =>
       ((exists seat l, m !! seat = Some l /\ l <> [] /\ players t !! seat = None)
        /\ r = Panic)
       \/ ((forall seat l, m !! seat = Some l -> l <> [] ->
                           is_Some (players t !! seat))
           /\ exists ps,
                r = Ok (set_players ps t)
                /\ (forall seat,
                      ps !! seat
                      = (fun p => set_chips (chips p + seatAwards m seat) p)
                          <$> players t !! seat)
                /\ stackSum ps = stackSum (players t) + resultsTotal m))).
  - right. split; [intros seat l H; by rewrite lookup_empty in H|].
    exists (players t). rewrite set_players_same. split; [done|]. split.
    + intros seat. unfold seatAwards. rewrite lookup_empty.
      change (awards (default [] None)) with 0.
      destruct (players t !! seat) as [p|]; [|done]. cbn.
      by rewrite set_chips_same.
    + rewrite resultsTotal_empty. lia.
  - intros i x m r Hi [[(seat & l & Hs & Hl & Hp) ->]|[Hgood (ps & -> & Hps & Hsum)]].
    + left. split; [|apply paySeat_stuck].
      exists seat, l. split; [|done]. rewrite lookup_insert_ne; [done|].
      intros <-. congruence.
    + assert (Haw : forall seat, seat <> i ->
                      seatAwards (<[i := x]> m) seat = seatAwards m seat).
      { intros seat Hne. unfold seatAwards. by rewrite lookup_insert_ne. }
      assert (Hawi : seatAwards (<[i := x]> m) i = awards x
                     /\ seatAwards m i = 0).
      { unfold seatAwards. by rewrite lookup_insert_eq, Hi. }
      destruct Hawi as [Hawi Hawi0].
      destruct (players t !! i) as [p|] eqn:Hp.
      * right. split.
        { intros seat l. rewrite lookup_insert. case_decide as Hk.
          - subst. intros _ _. by rewrite Hp.
          - apply Hgood. }
        pose proof (Hps i) as Hpsi. rewrite Hp in Hpsi. cbn in Hpsi.
        rewrite Hawi0, set_chips_same in Hpsi.
        exists (<[i := set_chips (chips p + awards x) p]> ps).
        split; [by apply paySeat_Ok|]. split.
        { intros seat. rewrite lookup_insert. case_decide as Hk.
          - subst. by rewrite Hp, Hawi.
          - rewrite Haw by done. apply Hps. }
        rewrite (stackSum_insert ps i p) by done.
        rewrite resultsTotal_insert_None by done.
        destruct p. cbn. lia.
      * destruct x as [|r0 x].
        { right. split.
          - intros seat l. rewrite lookup_insert. case_decide as Hk.
            + subst. by intros [= <-].
            + apply Hgood.
          - exists ps. split; [done|]. split.
            + intros seat. destruct (decide (seat = i)) as [->|Hne].
              * by rewrite Hps, Hp.
              * rewrite Haw by done. apply Hps.
            + rewrite resultsTotal_insert_None by done.
              change (awards []) with 0. lia. }
        left. split.
        { exists i, (r0 :: x). by rewrite lookup_insert_eq. }
        apply paySeat_Panic; [|done]. cbn. by rewrite Hps, Hp.
Qed.

Lemma payoutResults_good t rs :
  (forall seat l, rs !! seat = Some l -> l <> [] -> is_Some (players t !! seat)) ->
  exists t',
    payoutResults t rs = Ok t'
    /\ t' = set_players (players t') t
    /\ (forall seat,
          players t' !! seat
          = (fun p => set_chips (chips p + seatAwards rs seat) p)
              <$> players t !! seat)
    /\ stackSum (players t') = stackSum (players t) + resultsTotal rs.
Proof.
  intros Hgood.
  destruct (payoutResults_spec t rs)
    as [[(seat & l & Hs & Hl & Hp) _]|[_ (ps & Hrun & Hps & Hsum)]].
  - destruct (Hgood seat l Hs Hl) as [p Hp']. congruence.
  - exists (set_players ps t). by destruct t.
Qed.

Lemma payoutResults_Ok t rs t' :
  payoutResults t rs = Ok t' ->
  t' = set_players (players t') t
  /\ (forall seat,
        players t' !! seat
        = (fun p => set_chips (chips p + seatAwards rs seat) p)
            <$> players t !! seat)
  /\ stackSum (players t') = stackSum (players t) + resultsTotal rs.
Proof.
  destruct (payoutResults_spec t rs)
    as [[_ Hpanic]|[Hgood (ps & Hrun & Hps & Hsum)]]; [congruence|].
  rewrite Hrun. intros [= <-]. by destruct t.
Qed.

End payoutResults_facts.

(** X5.  Whenever [resultsFromWinners] returns, the chips of the results
    add up to the chips it was given to split, and the seats with a result
    are the winners. *)
Theorem resultsFromWinners_pays_chips {Hand : Type} (fuel : nat) (potNo : Z)
    (winners : gmap Z (option Hand)) (chips button : Z) (f : Z -> Share)
    (results : gmap Z (list (Result Hand))) :
  resultsFromWinners fuel potNo winners chips button f = Ok results ->
  resultsTotal results = chips /\ dom results = dom winners.
Proof. apply resultsFromWinners_total. Qed.

Lemma resultsFromWinners_pays_chips_witness :
  exists results,
    resultsFromWinners 11 0 examples.winners23 33 2 highPotShare = Ok results
    /\ resultsTotal results = 33
    /\ dom results = dom examples.winners23.
Proof.
  destruct (resultsFromWinners 11 0 examples.winners23 33 2 highPotShare)
    as [results| | |] eqn:Hrun; try (vm_compute in Hrun; discriminate).
  exists results. split; [reflexivity|].
  exact (resultsFromWinners_pays_chips 11 0 examples.winners23 33 2
           highPotShare results Hrun).
Defined.

(** X7.  The remainder loop of [resultsFromWinners] walks the seats -9 to
    9 only: when the chips do not divide evenly and every winner sits on a
    seat from 10 on (or below -9), no winner is ever met and the loop does
    not end, whatever the number of iterations allowed. *)
Theorem resultsFromWinners_outside_ring {Hand : Type} (potNo : Z)
    (winners : gmap Z (option Hand)) (chips button : Z) (f : Z -> Share) :
  winners <> ∅ ->
  (forall seat, is_Some (winners !! seat) -> seat <= -10 \/ 10 <= seat) ->
  Z.rem chips (Z.of_nat (size winners)) <> 0 ->
  forall fuel,
    resultsFromWinners fuel potNo winners chips button f = OutOfFuel.
Proof.
  intros Hne Hseats Hrem fuel. unfold resultsFromWinners.
  pose proof (winners_fold potNo (Z.quot chips (Z.of_nat (size winners)))
                (f (Z.of_nat (size winners))) winners) as Hfold.
  cbv zeta in Hfold.
  destruct (map_fold _ _ winners) as [results0 ws]. cbn [fst snd] in Hfold.
  destruct Hfold as [_ Hws].
  destruct (Z.eqb_spec (Z.of_nat (size winners)) 0) as [Hn|Hn].
  { apply map_size_non_empty_iff in Hne. lia. }
  apply giveRemainder_outside; [|done|].
  - intros w Hw. apply Hseats.
    rewrite merge_sort_Permutation, Hws in Hw.
    apply list_elem_of_fmap in Hw as [[k v] [-> Hkv]].
    apply elem_of_map_to_list in Hkv. by exists v.
  - pose proof (Z.rem_bound_abs button 10).
    destruct (Z.rem_bound_pos_pos (Z.abs button) 10) as [_ ?]; [lia..|].
    rewrite Z.rem_abs_l in H0 by lia. lia.
Qed.

Lemma resultsFromWinners_outside_ring_witness :
  resultsFromWinners 1000 0 examples.winnersFar 3 0 highPotShare = OutOfFuel.
Proof.
  apply (resultsFromWinners_outside_ring 0 examples.winnersFar 3 0 highPotShare).
  - intros H. apply (f_equal (fun m => m !! 10)) in H. vm_compute in H. discriminate.
  - intros seat [x H]. unfold examples.winnersFar in H. cbn in H.
    rewrite !lookup_insert, lookup_empty in H.
    repeat case_decide; simplify_eq; lia.
  - vm_compute. discriminate.
Defined.

(** X8.  [combineResults] keeps every result: a seat has results in the
    combination exactly when it has some in one of the maps, its results
    are those of the maps in the order of the arguments, and the chips of
    the combination are the chips of the maps together. *)
Theorem combineResults_appends {Hand : Type}
    (rs : list (gmap Z (list (Result Hand)))) :
  (forall k,
      default [] (combineResults rs !! k)
      = concat ((fun m => default [] (m !! k)) <$> rs))
  /\ (forall k,
         is_Some (combineResults rs !! k)
         <-> exists m, m ∈ rs /\ is_Some (m !! k))
  /\ resultsTotal (combineResults rs) = Zsum (resultsTotal <$> rs).
Proof.
  induction rs as [|m rs (IH1 & IH2 & IH3)] using rev_ind.
  - unfold combineResults. cbn. split; [|split].
    + intros k. by rewrite lookup_empty.
    + intros k. rewrite lookup_empty. split; [by intros []|].
      intros (m & Hm & _). by apply elem_of_nil in Hm.
    + apply resultsTotal_empty.
  - split; [|split].
    + intros k. rewrite combineResults_snoc, fmap_app, concat_app. cbn.
      rewrite app_nil_r, <- IH1.
      destruct (m !! k); cbn; [done|by rewrite app_nil_r].
    + intros k. rewrite combineResults_snoc. split.
      * destruct (m !! k) eqn:Hm.
        -- intros _. exists m. rewrite Hm. split; [set_solver|done].
        -- intros H. apply IH2 in H as (m' & Hm' & Hk). exists m'.
           split; [set_solver|done].
      * intros (m' & Hm' & Hk). apply elem_of_app in Hm' as [Hm'|Hm'].
        -- destruct (m !! k); [done|]. apply IH2. eauto.
        -- apply list_elem_of_singleton in Hm' as ->.
           destruct (m !! k); [done|]. by destruct Hk.
    + rewrite Zsum_fmap_snoc, <- IH3. apply seatAwards_total_ext.
      * intros k. unfold seatAwards. rewrite combineResults_snoc.
        destruct (m !! k); cbn [default from_option id];
          rewrite ?awards_app; [done|]. change (awards []) with 0. lia.
      * intros k. rewrite combineResults_snoc. by destruct (m !! k).
Qed.

Lemma combineResults_appends_witness :
  is_Some (combineResults
             [examples.resultsThree; examples.resultsThree] !! 1).
Proof.
  apply (proj1 (proj2 (combineResults_appends
                         [examples.resultsThree; examples.resultsThree]))).
  exists examples.resultsThree. split; [left|]. by eexists.
Defined.

(** X6.  [payout] on a pot to which no seat has contributed a chip panics:
    no side pot and no seat is left, so there is no winner, and the chips
    are divided by the number of winners. *)
Theorem payout_without_chips {Game Hand : Type} `{!HandOps Hand}
    (fuel : nat) (potNo : Z) (t : Table Game)
    (highHands lowHands : gmap Z (option Hand)) (sorting : hand.Sorting)
    (button : Z) (p : Pot) :
  (forall seat, get (contributions p) seat = 0) ->
  payout (S fuel) potNo t highHands lowHands sorting button p = Panic.
Proof. apply payout_zero_pot. Qed.

Lemma payout_without_chips_witness :
  payout (HandOps0 := examples.strength_HandOps) 12 0 examples.tableHiLo
    examples.highHands examples.lowHands hand.SortingHigh 0 (newPot 6) = Panic.
Proof.
  apply (payout_without_chips (HandOps0 := examples.strength_HandOps)).
  intros seat. apply get_zero_list. apply Forall_fmap, Forall_forall. done.
Defined.

(** X9.  When no seat holds a low hand (all low hands are nil, as in a
    game played for the high hand only), whatever [payout] returns for a
    pot without negative contributions pays exactly the chips of the pot,
    over all its side pots. *)
Theorem payout_pays_pot {Game Hand : Type} `{!HandOps Hand}
    (fuel : nat) (potNo : Z) (t : Table Game)
    (highHands lowHands : gmap Z (option Hand)) (sorting : hand.Sorting)
    (button : Z) (p : Pot) (results : gmap Z (list (Result Hand))) :
  nonnegative p ->
  (forall seat x, lowHands !! seat = Some x -> x = None) ->
  payout fuel potNo t highHands lowHands sorting button p = Ok results ->
  resultsTotal results = Chips p.
Proof. apply payout_total. Qed.

Lemma payout_pays_pot_witness :
  payout (HandOps0 := examples.strength_HandOps) 12 0 examples.tableThreePots
    examples.handsThree examples.noLowHands hand.SortingHigh 0
    (pot_of_list [(0,5); (1,20); (2,50)]) = Ok examples.resultsThree
  /\ resultsTotal examples.resultsThree
     = Chips (pot_of_list [(0,5); (1,20); (2,50)]).
Proof.
  assert (Hrun : payout (HandOps0 := examples.strength_HandOps) 12 0
                   examples.tableThreePots examples.handsThree
                   examples.noLowHands hand.SortingHigh 0
                   (pot_of_list [(0,5); (1,20); (2,50)])
                 = Ok examples.resultsThree) by (vm_compute; reflexivity).
  split; [exact Hrun|].
  apply (payout_pays_pot (HandOps0 := examples.strength_HandOps) 12 0
           examples.tableThreePots examples.handsThree examples.noLowHands
           hand.SortingHigh 0 _ _) ; [| |exact Hrun].
  - intros seat chips H. unfold pot_of_list in H. cbn in H.
    rewrite !lookup_insert, lookup_empty in H.
    repeat case_decide; simplify_eq; lia.
  - intros seat x H. unfold examples.noLowHands in H. cbn in H.
    rewrite !lookup_insert, lookup_empty in H.
    repeat case_decide; simplify_eq; done.
Defined.

(** X10.  [payoutResults] adds to the stack of every seat the chips of
    its results and touches nothing else, so the stacks grow by the chips
    of the results; it panics exactly when a seat without player has a
    result. *)
Theorem payoutResults_pays {Game Hand : Type} (t : Table Game)
    (rs : gmap Z (list (Result Hand))) :
  ((exists seat l, rs !! seat = Some l /\ l <> [] /\ players t !! seat = None)
   -> payoutResults t rs = Panic)
  /\ ((forall seat l, rs !! seat = Some l -> l <> [] ->
                      is_Some (players t !! seat))
      -> exists t',
           payoutResults t rs = Ok t'
           /\ t' = set_players (players t') t
           /\ (forall seat,
                 players t' !! seat
                 = (fun p => set_chips (chips p + seatAwards rs seat) p)
                     <$> players t !! seat)
           /\ stackSum (players t') = stackSum (players t) + resultsTotal rs).
Proof.
  destruct (payoutResults_spec t rs)
    as [[(seat & l & Hs & Hl & Hp) Hpanic]|[Hgood (ps & Hrun & Hps & Hsum)]].
  - split; [done|]. intros Hgood. destruct (Hgood seat l Hs Hl) as [p Hp'].
    congruence.
  - split.
    + intros (seat & l & Hs & Hl & Hp). destruct (Hgood seat l Hs Hl) as [p Hp'].
      congruence.
    + intros _. exists (set_players ps t). by destruct t.
Qed.

Lemma payoutResults_pays_witness :
  payoutResults examples.emptyTable examples.resultsThree = Panic
  /\ exists t',
       payoutResults examples.tableThreePots examples.resultsThree = Ok t'
       /\ stackSum (players t')
          = stackSum (players examples.tableThreePots)
            + resultsTotal examples.resultsThree.
Proof.
  split.
  - apply (proj1 (payoutResults_pays examples.emptyTable examples.resultsThree)).
    exists 2, [mkResult 2 (Some 6) 30 WonHigh]. split; [reflexivity|].
    split; [discriminate|reflexivity].
  - destruct (proj2 (payoutResults_pays examples.tableThreePots
                       examples.resultsThree))
      as (t' & Hrun & _ & _ & Hsum).
    { intros seat l H _. unfold examples.resultsThree in H. cbn in H.
      rewrite !lookup_insert, lookup_empty in H.
      repeat case_decide; simplify_eq; by eexists. }
    exists t'. split; [exact Hrun|exact Hsum].
Defined.

Section hand_end_facts.
Context {Game : Type} {Hand : Type} `{!HandOps Hand}.
Implicit Types (t : Table Game).

Lemma stackSum_showHoleCards t :
  stackSum (players (showHoleCards t)) = stackSum (players t).
Proof.
  destruct (sameChips_showHoleCards t) as [Hc _].
  unfold chipsInPlay in Hc.
  assert (tpot (showHoleCards t) = tpot t) as Hp.
  { unfold showHoleCards. by destruct (_ >? 1). }
  rewrite Hp in Hc. lia.
Qed.

Lemma resultsTotal_take (p : Pot) seat :
  resultsTotal (take (Hand := Hand) p seat) = Chips p.
Proof.
  unfold take. rewrite <- insert_empty.
  rewrite resultsTotal_insert_None by apply lookup_empty.
  rewrite resultsTotal_empty. unfold awards. cbn. lia.
Qed.

End hand_end_facts.

(** X11.  At the showdown of a hand in which no seat holds a low hand,
    what [Next] pays out is the pot: when the branch returns, the results
    hold the chips of the pot, the stacks have grown by them, so that all
    the chips that were in play are in the stacks, and the hand is over
    with nobody in action. *)
Theorem showdown_pays_pot {Game Hand : Type} `{!HandOps Hand}
    (fuel : nat) (highHands lowHands : gmap Z (option Hand))
    (sorting : hand.Sorting) (t t' : Table Game)
    (results : gmap Z (list (Result Hand))) :
  nonnegative (tpot t) ->
  (forall seat x, lowHands !! seat = Some x -> x = None) ->
  showdownRound fuel highHands lowHands sorting t = Ok (t', results) ->
  resultsTotal results = Chips (tpot t)
  /\ stackSum (players t') = chipsInPlay t
  /\ Chips (tpot t') = Chips (tpot t)
  /\ startedHand t' = false /\ action t' = -1.
Proof.
  intros Hnn Hlow. unfold showdownRound.
  set (t1 := resetRoundPot (set_round (round t + 1) t)).
  assert (Hpot1 : tpot t1 = tpot t) by done.
  assert (Hstack1 : stackSum (players t1) = stackSum (players t)).
  { destruct (sameChips_resetRoundPot (set_round (round t + 1) t)) as [Hc _].
    unfold chipsInPlay in Hc. fold t1 in Hc. rewrite Hpot1 in Hc.
    cbn [tpot set_round players] in Hc. lia. }
  destruct (payout fuel 0 t1 highHands lowHands sorting (button t1) (tpot t1))
    as [rs| | |] eqn:Hpay; try done. cbn [mbind result_bind].
  apply payout_total in Hpay; [|by rewrite Hpot1|done].
  destruct (payoutResults _ rs) as [t2| | |] eqn:Hres; try done.
  cbn [mbind result_bind]. intros [= <- <-].
  apply payoutResults_Ok in Hres as (Ht2 & _ & Hsum).
  cbn [players set_tpot] in Hsum.
  split; [by rewrite Hpay, Hpot1|]. split; [|split; [|split]].
  - rewrite stackSum_showHoleCards. cbn [players set_action set_startedHand].
    unfold chipsInPlay. rewrite Hsum, Hstack1, Hpay, Hpot1. done.
  - assert (tpot (showHoleCards (set_action (-1) (set_startedHand false t2)))
            = tpot t2) as -> by (unfold showHoleCards; by destruct (_ >? 1)).
    rewrite Ht2. cbn [tpot set_players set_tpot].
    rewrite SidePots_snd, sidePotAmounts_Chips. by rewrite Hpot1.
  - unfold showHoleCards. by destruct (_ >? 1).
  - unfold showHoleCards. by destruct (_ >? 1).
Qed.


Lemma showdown_pays_pot_witness :
  exists t' results,
    showdownRound
      (HandOps0 := examples.strength_HandOps) 12 examples.handsThree
      examples.noLowHands hand.SortingHigh examples.tableAtShowdown
    = Ok (t', results)
    /\ resultsTotal results = Chips (tpot examples.tableAtShowdown)
    /\ stackSum (players t') = chipsInPlay examples.tableAtShowdown.
Proof.
  destruct (showdownRound
              (HandOps0 := examples.strength_HandOps) 12 examples.handsThree
              examples.noLowHands hand.SortingHigh examples.tableAtShowdown)
    as [[t' results]| | |] eqn:Hrun; try (vm_compute in Hrun; discriminate).
  exists t', results. split; [reflexivity|].
  destruct (showdown_pays_pot
              (HandOps0 := examples.strength_HandOps) 12 examples.handsThree
              examples.noLowHands hand.SortingHigh examples.tableAtShowdown
              t' results) as (H1 & H2 & _); [| |exact Hrun|by split].
  - intros seat chips H. cbn in H.
    rewrite !lookup_insert, lookup_empty in H.
    repeat case_decide; simplify_eq; lia.
  - intros seat x H. unfold examples.noLowHands in H. cbn in H.
    rewrite !lookup_insert, lookup_empty in H.
    repeat case_decide; simplify_eq; done.
Defined.

(** X12.  When the hand ends because everybody else has folded, [Next]
    gives the whole pot to the first player it meets that is neither out
    nor standing, so that all the chips in play are in the stacks; when
    every player is out or standing it pays nobody, and the chips of the
    pot stay in the pot. *)
Theorem takePot_pays {Game Hand : Type} (order : list Z) (t : Table Game) :
  ((exists seat player,
       seat ∈ order /\ players t !! seat = Some player
       /\ out player = false /\ stand player = false) ->
   exists t' winner player,
     takePot (Hand := Hand) order t = Ok (t', take (tpot t) winner)
     /\ players t !! winner = Some player
     /\ out player = false /\ stand player = false
     /\ players t' = <[winner := set_chips (chips player + Chips (tpot t)) player]>
                       (players t)
     /\ stackSum (players t') = chipsInPlay t
     /\ startedHand t' = false /\ action t' = -1)
  /\ ((forall seat player,
          seat ∈ order -> players t !! seat = Some player ->
          out player = true \/ stand player = true) ->
      takePot (Hand := Hand) order t
      = Ok (set_action (-1) (set_startedHand false t), ∅)).
Proof.
  unfold takePot. cbv zeta. split.
  - intros (seat & player & Hin & Hp & Hout & Hstand).
    destruct (filter _ order) as [|winner rest] eqn:Hf.
    { assert (Hs : seat ∈ @nil Z); [|by apply elem_of_nil in Hs].
      rewrite <- Hf. apply list_elem_of_filter. split; [|done].
      by rewrite Hp, Hout, Hstand. }
    assert (Hw : winner ∈ winner :: rest) by left.
    rewrite <- Hf in Hw.
    apply list_elem_of_filter in Hw as [Hw _].
    destruct (players t !! winner) as [pw|] eqn:Hpw; [|done].
    apply negb_true_iff, orb_false_iff in Hw as [Hwo Hws].
    destruct (payoutResults_good t (take (Hand := Hand) (tpot t) winner))
      as (t2 & Hrun & Ht2 & Hps & Hsum).
    { intros s l. unfold take. rewrite lookup_singleton.
      case_decide; [|done]. subst. intros _ _. by rewrite Hpw. }
    rewrite Hrun. cbn [mbind result_bind].
    exists (set_action (-1) (set_startedHand false t2)), winner, pw.
    split; [done|]. split; [done|]. split; [done|]. split; [done|].
    cbn [players set_action set_startedHand startedHand action].
    split; [|split; [|done]].
    + apply map_eq. intros s. rewrite Hps. unfold seatAwards, take.
      rewrite lookup_singleton, lookup_insert. case_decide.
      * subst. rewrite Hpw. cbn. unfold awards. cbn. do 3 f_equal. lia.
      * change (awards (default [] None)) with 0.
        destruct (players t !! s); cbn; [|done]. by rewrite set_chips_same.
    + rewrite Hsum, (resultsTotal_take (Hand := Hand)). done.
  - intros Hall.
    destruct (filter _ order) as [|w rest] eqn:Hf; [done|exfalso].
    assert (Hw : w ∈ w :: rest) by left.
    rewrite <- Hf in Hw.
    apply list_elem_of_filter in Hw as [Hw Hin].
    destruct (players t !! w) as [pw|] eqn:Hpw; [|done].
    apply negb_true_iff, orb_false_iff in Hw as [Hwo Hws].
    destruct (Hall w pw Hin Hpw); congruence.
Qed.

Lemma takePot_pays_witness :
  exists t' winner player,
    takePot (Hand := Z) [1; 2] examples.tableFolded
    = Ok (t', take (tpot examples.tableFolded) winner)
    /\ players examples.tableFolded !! winner = Some player
    /\ stackSum (players t') = chipsInPlay examples.tableFolded.
Proof.
  destruct (proj1 (takePot_pays (Hand := Z) [1; 2] examples.tableFolded))
    as (t' & winner & player & Hrun & Hp & _ & _ & _ & Hsum & _).
  { exists 2, (examples.seated 2 100). split; [set_solver|]. by split. }
  exists t', winner, player. by split.
Defined.

Section strconv_facts.
Import gostring strconv.

Lemma byte_of_ascii_of z : 0 <= z < 256 -> byte_of (ascii_of z) = z.
Proof.
  intros Hz. unfold byte_of, ascii_of.
  rewrite N_ascii_embedding; [lia|].
  change 256%N with (Z.to_N 256). lia.
Qed.

Lemma parse_formatDigits fuel :
  forall n acc,
    0 <= n < 2 ^ Z.of_nat fuel -> (1 <= fuel)%nat ->
    parseDigits (formatDigits fuel n acc) 0 = parseDigits acc n.
Proof.
  induction fuel as [|fuel IH]; intros n acc Hn Hfuel; [lia|].
  cbn [formatDigits].
  assert (Hd : 0 <= n mod 10 < 10) by (apply Z.mod_pos_bound; lia).
  assert (Hstep : forall a, parseDigits (String (ascii_of (48 + n mod 10)) acc) a
                            = parseDigits acc (a * 10 + n mod 10)).
  { intros a. cbn [parseDigits]. rewrite byte_of_ascii_of by lia.
    destruct (Z.leb_spec 48 (48 + n mod 10)); [|lia].
    destruct (Z.leb_spec (48 + n mod 10) 57); [|lia]. cbn. f_equal. lia. }
  destruct (Z.ltb_spec n 10) as [Hlt|Hge].
  - rewrite Hstep. f_equal. rewrite Z.mod_small by lia. lia.
  - rewrite IH.
    + rewrite Hstep. f_equal. pose proof (Z.div_mod n 10). lia.
    + rewrite Nat2Z.inj_succ, Z.pow_succ_r in Hn by lia.
      split; [apply Z.div_pos; lia|].
      apply Z.div_lt_upper_bound; lia.
    + destruct fuel; [|lia]. cbn in Hn. lia.
Qed.

Lemma formatDigits_head fuel n acc :
  0 <= n ->
  exists d rest,
    0 <= d < 10
    /\ formatDigits (S fuel) n acc = String (ascii_of (48 + d)) rest.
Proof.
  revert n acc. induction fuel as [|fuel IH]; intros n acc Hn.
  - cbn [formatDigits]. exists (n mod 10), acc.
    split; [apply Z.mod_pos_bound; lia|]. by destruct (n <? 10).
  - change (formatDigits (S (S fuel)) n acc)
      with (let acc := String (ascii_of (48 + n mod 10)) acc in
            if n <? 10 then acc else formatDigits (S fuel) (n / 10) acc).
    cbv zeta. destruct (Z.ltb_spec n 10).
    + exists (n mod 10), acc. split; [apply Z.mod_pos_bound; lia|done].
    + apply IH. apply Z.div_pos; lia.
Qed.

Lemma log2_fuel n : 0 <= n -> n < 2 ^ Z.of_nat (S (Z.to_nat (Z.log2 n))).
Proof.
  intros Hn. rewrite Nat2Z.inj_succ, Z2Nat.id by apply Z.log2_nonneg.
  destruct (decide (n = 0)) as [->|]; [done|].
  apply Z.log2_spec. lia.
Qed.

Lemma ParseInt_digits d rest :
  0 <= d < 10 ->
  ParseInt (String (ascii_of (48 + d)) rest)
  = match parseDigits (String (ascii_of (48 + d)) rest) 0 with
    | None => Err (ErrOther "strconv.ParseInt: invalid syntax")
    | Some n =>
        if (- 2 ^ 63 <=? n) && (n <? 2 ^ 63) then Ok n
        else Err (ErrOther "strconv.ParseInt: value out of range")
    end.
Proof.
  intros Hd.
  assert (d = 0 \/ d = 1 \/ d = 2 \/ d = 3 \/ d = 4 \/ d = 5 \/ d = 6 \/ d = 7
          \/ d = 8 \/ d = 9) as Hcases by lia.
  repeat (destruct Hcases as [->|Hcases]; [reflexivity|]). by subst.
Qed.

Lemma ParseInt_FormatInt i : int64 i -> ParseInt (FormatInt i) = Ok i.
Proof.
  unfold int64, FormatInt. intros Hi.
  destruct (Z.ltb_spec i 0) as [Hneg|Hpos].
  - set (fuel := Z.to_nat (Z.log2 (- i))).
    destruct (formatDigits_head fuel (- i) EmptyString) as (d & rest & Hd & Hhead);
      [lia|].
    pose proof (parse_formatDigits (S fuel) (- i) EmptyString) as Hparse.
    rewrite Hhead in Hparse |- *.
    change (ParseInt (String "-" (String (ascii_of (48 + d)) rest)))
      with (match parseDigits (String (ascii_of (48 + d)) rest) 0 with
            | None => Err (ErrOther "strconv.ParseInt: invalid syntax")
            | Some n =>
                if (- 2 ^ 63 <=? - n) && (- n <? 2 ^ 63) then Ok (- n)
                else Err (ErrOther "strconv.ParseInt: value out of range")
            end).
    rewrite Hparse by (first [lia | split; [lia|apply log2_fuel; lia]]).
    cbn [parseDigits]. rewrite Z.opp_involutive.
    destruct (Z.leb_spec (- 2 ^ 63) i); [|lia].
    destruct (Z.ltb_spec i (2 ^ 63)); [done|lia].
  - set (fuel := Z.to_nat (Z.log2 i)).
    destruct (formatDigits_head fuel i EmptyString) as (d & rest & Hd & Hhead);
      [lia|].
    pose proof (parse_formatDigits (S fuel) i EmptyString) as Hparse.
    rewrite Hhead in Hparse |- *.
    rewrite ParseInt_digits by done.
    rewrite Hparse by (first [lia | split; [lia|apply log2_fuel; lia]]).
    cbn [parseDigits].
    destruct (Z.leb_spec (- 2 ^ 63) i); [|lia].
    destruct (Z.ltb_spec i (2 ^ 63)); [done|lia].
Qed.

Lemma FormatInt_inj i j : int64 i -> int64 j -> FormatInt i = FormatInt j -> i = j.
Proof.
  intros Hi Hj Heq. apply (f_equal ParseInt) in Heq.
  rewrite !ParseInt_FormatInt in Heq by done. by injection Heq.
Qed.

End strconv_facts.

Section snapshot_facts.
Import strconv.

Lemma format_keys_lookup {A B} (g : A -> B) (m : gmap Z A) :
  (forall k, is_Some (m !! k) -> int64 k) ->
  (forall seat, int64 seat ->
     map_fold (fun seat x (M : gmap string B) => <[FormatInt seat := g x]> M) ∅ m
       !! FormatInt seat = g <$> m !! seat)
  /\ (forall key,
        is_Some (map_fold (fun seat x (M : gmap string B) =>
                             <[FormatInt seat := g x]> M) ∅ m !! key) ->
        exists seat, int64 seat /\ key = FormatInt seat).
Proof.
  apply (map_fold_weak_ind
           (fun (r : gmap string B) (m : gmap Z A) =>
              (forall k, is_Some (m !! k) -> int64 k) ->
              (forall seat, int64 seat -> r !! FormatInt seat = g <$> m !! seat)
              /\ (forall key, is_Some (r !! key) ->
                              exists seat, int64 seat /\ key = FormatInt seat))).
  - intros _. split; [intros; by rewrite !lookup_empty|].
    intros key [x Hx]. by rewrite lookup_empty in Hx.
  - intros i x m' r Hi IH Hkeys.
    assert (Hi64 : int64 i) by (apply Hkeys; rewrite lookup_insert_eq; eauto).
    destruct IH as [IH1 IH2].
    { intros k Hk. apply Hkeys. rewrite lookup_insert_ne; [done|].
      intros <-. rewrite Hi in Hk. by destruct Hk. }
    split.
    + intros seat Hseat. destruct (decide (i = seat)) as [->|Hne].
      * by rewrite !lookup_insert_eq.
      * rewrite !lookup_insert_ne;
          [by apply IH1| | ];
          first [done | intros Heq; by apply FormatInt_inj in Heq].
    + intros key. destruct (decide (FormatInt i = key)) as [<-|Hne].
      * intros _. eauto.
      * rewrite lookup_insert_ne by done. apply IH2.
Qed.

Lemma parse_keys {A} (M : gmap string A) (m : gmap Z A) :
  (forall seat, int64 seat -> M !! FormatInt seat = m !! seat) ->
  (forall key, is_Some (M !! key) -> exists seat, int64 seat /\ key = FormatInt seat) ->
  (forall k, is_Some (m !! k) -> int64 k) ->
  map_fold (fun seatStr x (acc : result (gmap Z A)) =>
              m ← acc; seat ← ParseInt seatStr; Ok (<[seat := x]> m))
           (Ok ∅) M
  = Ok m.
Proof.
  intros HM Hkeys Hm.
  assert (Hfold : exists m',
             map_fold (fun seatStr x (acc : result (gmap Z A)) =>
                         m ← acc; seat ← ParseInt seatStr; Ok (<[seat := x]> m))
                      (Ok ∅) M = Ok m'
             /\ (forall seat, int64 seat -> m' !! seat = M !! FormatInt seat)
             /\ (forall seat, is_Some (m' !! seat) -> int64 seat)).
  { revert Hkeys. clear HM Hm.
    apply (map_fold_weak_ind
             (fun (r : result (gmap Z A)) (M : gmap string A) =>
                (forall key, is_Some (M !! key) ->
                             exists seat, int64 seat /\ key = FormatInt seat) ->
                exists m',
                  r = Ok m'
                  /\ (forall seat, int64 seat -> m' !! seat = M !! FormatInt seat)
                  /\ (forall seat, is_Some (m' !! seat) -> int64 seat))).
    - intros _. exists ∅. split; [done|]. split; [intros; by rewrite !lookup_empty|].
      intros seat [x Hx]. by rewrite lookup_empty in Hx.
    - intros key x M' r Hfresh IH Hkeys.
      destruct (Hkeys key) as (i & Hi & ->); [rewrite lookup_insert_eq; eauto|].
      destruct IH as (m' & -> & Hm1 & Hm2).
      { intros k Hk. apply Hkeys. rewrite lookup_insert_ne; [done|].
        intros <-. rewrite Hfresh in Hk. by destruct Hk. }
      exists (<[i := x]> m'). cbn [mbind result_bind].
      rewrite ParseInt_FormatInt by done. split; [done|]. split.
      + intros seat Hseat. destruct (decide (i = seat)) as [->|Hne].
        * by rewrite !lookup_insert_eq.
        * rewrite !lookup_insert_ne;
            [by apply Hm1| | ];
            first [done | intros Heq; by apply FormatInt_inj in Heq].
      + intros seat. destruct (decide (i = seat)) as [->|Hne]; [done|].
        rewrite lookup_insert_ne by done. apply Hm2. }
  destruct Hfold as (m' & -> & Hm1 & Hm2). f_equal. apply map_eq. intros seat.
  destruct (m' !! seat) as [x|] eqn:E1.
  - assert (int64 seat) as Hs by (apply Hm2; eauto).
    by rewrite <- HM, <- Hm1, E1.
  - destruct (m !! seat) as [y|] eqn:E2; [|done].
    assert (int64 seat) as Hs by (apply Hm; eauto).
    by rewrite <- E2, <- HM, <- Hm1.
Qed.

Lemma Pot_roundtrip p :
  (forall seat, is_Some (contributions p !! seat) -> int64 seat) ->
  Pot_UnmarshalJSON (Pot_PotJSON p) = Ok p.
Proof.
  intros Hkeys. unfold Pot_UnmarshalJSON, Pot_PotJSON. cbn [jContributions].
  destruct (format_keys_lookup (fun x : Z => x) (contributions p) Hkeys) as [H1 H2].
  rewrite (parse_keys _ (contributions p)); [by destruct p| |done..].
  intros seat Hseat. rewrite H1 by done. by destruct (contributions p !! seat).
Qed.




End snapshot_facts.

(** X13.  A pot read back from its own JSON form is the pot again:
    [UnmarshalJSON] after [MarshalJSON] restores every contribution (the
    seats being Go integers), [strconv.ParseInt] undoing
    [strconv.FormatInt] on every key; the field [chips] of the JSON form
    is written and never read. *)
Theorem Pot_JSON_roundtrip (p : Pot) :
  (forall seat, is_Some (contributions p !! seat) -> int64 seat) ->
  Pot_UnmarshalJSON (Pot_PotJSON p) = Ok p
  /\ jChips (Pot_PotJSON p) = Chips p
  /\ forall chips,
       Pot_UnmarshalJSON (mkPotJSON (jContributions (Pot_PotJSON p)) chips) = Ok p.
Proof.
  intros Hkeys. split; [by apply Pot_roundtrip|]. split; [done|].
  intros chips. by apply Pot_roundtrip.
Qed.

Lemma Pot_JSON_roundtrip_witness :
  Pot_UnmarshalJSON (Pot_PotJSON (pot_of_list [(0,5); (1,20); (2,50)]))
  = Ok (pot_of_list [(0,5); (1,20); (2,50)]).
Proof.
  apply (Pot_JSON_roundtrip (pot_of_list [(0,5); (1,20); (2,50)])).
  intros seat [x H]. unfold pot_of_list in H. cbn in H.
  rewrite !lookup_insert, lookup_empty in H. unfold int64.
  repeat case_decide; simplify_eq; lia.
Defined.

(** X14.  A player state read back from its own JSON form is the state
    again except for the straddle flag, which [PlayerStateJSON] does not
    write and which is therefore false afterwards; this needs the
    registered player to return the player of the identifier.  Without a
    registered player, and when [FromID] fails, [UnmarshalJSON] returns an
    error. *)
Theorem PlayerState_JSON_roundtrip (state : PlayerState)
    (FromID : Z -> result Player) :
  (FromID (ID (player state)) = Ok (player state) ->
   PlayerState_UnmarshalJSON (Some FromID) (PlayerState_PlayerStateJSON state)
   = Ok (set_straddle false state))
  /\ (forall e, FromID (ID (player state)) = Err e ->
        exists e', PlayerState_UnmarshalJSON (Some FromID)
                     (PlayerState_PlayerStateJSON state) = Err e')
  /\ exists e', PlayerState_UnmarshalJSON None (PlayerState_PlayerStateJSON state)
                = Err e'.
Proof.
  unfold PlayerState_UnmarshalJSON, PlayerState_PlayerStateJSON. cbn.
  split; [|split].
  - intros ->. by destruct state.
  - intros e ->. eauto.
  - eauto.
Qed.

Lemma PlayerState_JSON_roundtrip_witness :
  PlayerState_UnmarshalJSON examples.registered
    (PlayerState_PlayerStateJSON (set_straddle true (examples.seated 1 100)))
  = Ok (examples.seated 1 100).
Proof.
  apply (proj1 (PlayerState_JSON_roundtrip
                  (set_straddle true (examples.seated 1 100))
                  (fun id => Ok (mkPlayer id EmptyString EmptyString false 0)))).
  reflexivity.
Defined.



Section seating_facts.
Context {Game : Type}.
Implicit Type t : Table Game.

Lemma isSeated_spec t p : isSeated t p = true <-> seatedId t (ID p).
Proof.
  unfold isSeated, seatedId.
  apply (map_fold_weak_ind
           (fun (r : bool) (m : gmap Z PlayerState) =>
              r = true <-> exists seat pl, m !! seat = Some pl
                                           /\ ID (player pl) = ID p)).
  - split; [done|]. intros (seat & pl & H & _). by rewrite lookup_empty in H.
  - intros i x m r Hi IH. rewrite orb_true_iff, IH, Z.eqb_eq. split.
    + intros [(seat & pl & Hs & Hid)|Hid].
      * exists seat, pl. split; [|done]. rewrite lookup_insert_ne; [done|].
        intros <-. congruence.
      * exists i, x. by rewrite lookup_insert_eq.
    + intros (seat & pl & Hs & Hid).
      apply lookup_insert_Some in Hs as [[<- <-]|[_ Hs]]; [by right|].
      left. eauto.
Qed.

Lemma validSeat_spec t seat :
  validSeat t seat = true <-> 0 <= seat < NumOfSeats (opts t).
Proof. unfold validSeat. rewrite andb_true_iff, Z.geb_le, Z.ltb_lt. lia. Qed.

Lemma elem_of_EmptySeats t seat :
  seat ∈ EmptySeats t <-> validSeat t seat = true /\ players t !! seat = None.
Proof.
  unfold EmptySeats. rewrite list_elem_of_filter, elem_of_seqZ, validSeat_spec.
  tauto.
Qed.

Lemma Sit_facts t p seat chips straddle :
  (~ (0 <= seat < NumOfSeats (opts t)) ->
   Sit t p seat chips straddle = Err ErrInvalidSeat)
  /\ (0 <= seat < NumOfSeats (opts t) -> seatedId t (ID p) ->
      Sit t p seat chips straddle = Err ErrAlreadySeated)
  /\ (0 <= seat < NumOfSeats (opts t) -> ~ seatedId t (ID p) ->
      is_Some (players t !! seat) ->
      Sit t p seat chips straddle = Err ErrSeatOccupied)
  /\ (0 <= seat < NumOfSeats (opts t) -> ~ seatedId t (ID p) ->
      players t !! seat = None ->
      Sit t p seat chips straddle
      = Ok (set_players
              (<[seat := mkPlayerState p [] chips chips false false false
                           false 0 0 false straddle]> (players t)) t)).
Proof.
  unfold Sit.
  pose proof (validSeat_spec t seat) as Hv. pose proof (isSeated_spec t p) as Hs.
  destruct (validSeat t seat); cbn [negb].
  - destruct (isSeated t p).
    + split; [intros H; destruct H; by apply Hv|]. split; [done|].
      split; intros _ Hnot; destruct Hnot; by apply Hs.
    + split; [intros H; destruct H; by apply Hv|].
      split; [intros _ H; apply Hs in H; done|].
      destruct (players t !! seat) as [pl|].
      * split; [done|]. intros _ _ H. discriminate H.
      * split; [|done]. intros _ _ H. by destruct H.
  - split; [done|].
    split; [|split]; intros H; apply Hv in H; done.
Qed.

End seating_facts.

(** X16.  [Sit] checks the seat first, then the player, then the
    occupant: it returns ErrInvalidSeat for a seat outside the table,
    otherwise ErrAlreadySeated when a player with the same identifier sits
    at the table, otherwise ErrSeatOccupied when the seat is taken; in all
    other cases, whatever the chips, it seats the player with the chips as
    stack and as begin chips and changes nothing else.  It never returns
    ErrInvalidBuyin. *)
Theorem Sit_cases {Game : Type} (t : Table Game) (p : Player)
    (seat chips : Z) (straddle : bool) :
  (~ (0 <= seat < NumOfSeats (opts t)) ->
   Sit t p seat chips straddle = Err ErrInvalidSeat)
  /\ (0 <= seat < NumOfSeats (opts t) -> seatedId t (ID p) ->
      Sit t p seat chips straddle = Err ErrAlreadySeated)
  /\ (0 <= seat < NumOfSeats (opts t) -> ~ seatedId t (ID p) ->
      is_Some (players t !! seat) ->
      Sit t p seat chips straddle = Err ErrSeatOccupied)
  /\ (0 <= seat < NumOfSeats (opts t) -> ~ seatedId t (ID p) ->
      players t !! seat = None ->
      Sit t p seat chips straddle
      = Ok (set_players
              (<[seat := mkPlayerState p [] chips chips false false false
                           false 0 0 false straddle]> (players t)) t))
  /\ Sit t p seat chips straddle <> Err ErrInvalidBuyin.
Proof.
  destruct (Sit_facts t p seat chips straddle) as (H1 & H2 & H3 & H4).
  split; [done|]. split; [done|]. split; [done|]. split; [done|].
  destruct (decide (0 <= seat < NumOfSeats (opts t))) as [Hin|Hout];
    [|by rewrite H1].
  destruct (isSeated t p) eqn:Hs.
  - apply isSeated_spec in Hs. by rewrite H2.
  - assert (~ seatedId t (ID p)) as Hnot
      by (intros H; apply isSeated_spec in H; congruence).
    destruct (players t !! seat) as [pl|] eqn:Hp.
    + rewrite H3 by eauto. done.
    + by rewrite H4.
Qed.

Lemma Sit_cases_witness :
  Sit examples.tableHiLo (mkPlayer 7 EmptyString EmptyString false 0) 6 50 false
  = Err ErrInvalidSeat
  /\ Sit examples.tableHiLo (mkPlayer 1 EmptyString EmptyString false 0) 3 50 false
     = Err ErrAlreadySeated
  /\ Sit examples.tableHiLo (mkPlayer 7 EmptyString EmptyString false 0) 2 50 false
     = Err ErrSeatOccupied.
Proof.
  split; [|split].
  - apply (proj1 (Sit_cases examples.tableHiLo
                    (mkPlayer 7 EmptyString EmptyString false 0) 6 50 false)).
    cbn. lia.
  - apply (proj1 (proj2 (Sit_cases examples.tableHiLo
                    (mkPlayer 1 EmptyString EmptyString false 0) 3 50 false))).
    + cbn. lia.
    + exists 1, (examples.seated 1 100). by split.
  - apply (proj1 (proj2 (proj2 (Sit_cases examples.tableHiLo
                    (mkPlayer 7 EmptyString EmptyString false 0) 2 50 false)))).
    + cbn. lia.
    + intros (seat & pl & H & Hid). cbn in H.
      rewrite !lookup_insert, lookup_empty in H.
      repeat case_decide; simplify_eq; cbn in Hid; lia.
    + by eexists.
Defined.

(** X17.  [Sit] succeeds exactly on the seats that [EmptySeats] reports,
    for a player that is not seated; afterwards the seat is no longer
    reported and the others still are, and [Stand] of that player gives
    the table back.  [Stand] of a player that is not seated changes
    nothing. *)
Theorem Sit_Stand {Game : Type} (t : Table Game) (p : Player)
    (seat chips : Z) (straddle : bool) (order : list Z) :
  ((exists t', Sit t p seat chips straddle = Ok t')
   <-> seat ∈ EmptySeats t /\ ~ seatedId t (ID p))
  /\ (forall t',
        Sit t p seat chips straddle = Ok t' ->
        EmptySeats t' = filter (fun s => s <> seat) (EmptySeats t)
        /\ seatedId t' (ID p)
        /\ (seat ∈ order -> Table_Stand order t' p = t))
  /\ (~ seatedId t (ID p) -> Table_Stand order t p = t).
Proof.
  assert (Hnoop : forall t0 : Table Game,
             ~ seatedId t0 (ID p) -> Table_Stand order t0 p = t0).
  { intros t0 Hnot. unfold Table_Stand.
    destruct (filter _ order) as [|w rest] eqn:Hf; [done|exfalso].
    assert (Hw : w ∈ w :: rest) by left. rewrite <- Hf in Hw.
    apply list_elem_of_filter in Hw as [Hw _].
    destruct (players t0 !! w) as [pl|] eqn:Hpl; [|done].
    apply Z.eqb_eq in Hw. apply Hnot. by exists w, pl. }
  destruct (Sit_facts t p seat chips straddle) as (H1 & H2 & H3 & Hok).
  assert (Hinv : forall t', Sit t p seat chips straddle = Ok t' ->
                   0 <= seat < NumOfSeats (opts t) /\ ~ seatedId t (ID p)
                   /\ players t !! seat = None).
  { intros t' Ht'.
    destruct (decide (0 <= seat < NumOfSeats (opts t))) as [Hin|Hout];
      [|rewrite H1 in Ht'; done].
    destruct (isSeated t p) eqn:Hs.
    { apply isSeated_spec in Hs. rewrite H2 in Ht'; done. }
    assert (~ seatedId t (ID p)) as Hnot
      by (intros H; apply isSeated_spec in H; congruence).
    destruct (players t !! seat) as [pl|] eqn:Hp; [|done].
    rewrite H3 in Ht' by eauto. done. }
  split; [|split; [|apply Hnoop]].
  - rewrite elem_of_EmptySeats, validSeat_spec. split.
    + intros [t' Ht']. apply Hinv in Ht'. tauto.
    + intros [[Hin Hp] Hnot]. eexists. by apply Hok.
  - intros t' Ht'. pose proof Ht' as Ht''. apply Hinv in Ht'' as (Hin & Hnot & Hp).
    rewrite Hok in Ht' by done. injection Ht' as <-.
    split; [|split].
    + unfold EmptySeats. cbn [players opts set_players].
      rewrite list_filter_filter. apply list_filter_iff. intros s.
      rewrite lookup_insert. case_decide as Hs; split.
      * intros Hx. discriminate Hx.
      * intros [Hne _]. congruence.
      * intros Hx. split; [congruence|done].
      * by intros [_ Hx].
    + exists seat. eexists. cbn [players set_players].
      rewrite lookup_insert_eq. split; done.
    + intros Hseat. unfold Table_Stand. cbn [players set_players].
      destruct (filter _ order) as [|w rest] eqn:Hf.
      * assert (seat ∈ @nil Z) as Hs; [|by apply elem_of_nil in Hs].
        rewrite <- Hf. apply list_elem_of_filter. split; [|done].
        rewrite lookup_insert_eq. cbn. apply Z.eqb_refl.
      * assert (Hw : w ∈ w :: rest) by left. rewrite <- Hf in Hw.
        apply list_elem_of_filter in Hw as [Hw _].
        rewrite lookup_insert in Hw. case_decide as Hsw.
        -- subst w. rewrite delete_insert_eq, delete_id by done. by destruct t.
        -- destruct (players t !! w) as [pl|] eqn:Hpl; [|done].
           apply Z.eqb_eq in Hw. destruct Hnot. by exists w, pl.
Qed.

Lemma Sit_Stand_witness :
  exists t',
    Sit examples.tableHiLo (mkPlayer 7 EmptyString EmptyString false 0) 3 50 false
    = Ok t'
    /\ Table_Stand [1; 2; 3] t' (mkPlayer 7 EmptyString EmptyString false 0)
       = examples.tableHiLo.
Proof.
  destruct (Sit_Stand examples.tableHiLo
              (mkPlayer 7 EmptyString EmptyString false 0) 3 50 false [1; 2; 3])
    as (Hiff & Hafter & _).
  destruct (proj2 Hiff) as [t' Ht'].
  { split.
    - apply elem_of_EmptySeats. split; reflexivity.
    - intros (seat & pl & H & Hid). cbn in H.
      rewrite !lookup_insert, lookup_empty in H.
      repeat case_decide; simplify_eq; cbn in Hid; lia. }
  exists t'. split; [exact Ht'|]. apply (Hafter t' Ht'). set_solver.
Defined.

Section nextSeat_facts.
Context {Game : Type}.
Implicit Type t : Table Game.

Lemma nextSeatLoop_step c n ps cur playing :
  nextSeatLoop (S c) n ps cur playing
  = if canTake ps playing cur then cur
    else nextSeatLoop c n ps (Z.rem (cur + 1) n) playing.
Proof.
  unfold canTake. cbn [nextSeatLoop]. destruct (ps !! cur) as [p|]; [|done].
  by destruct (negb playing || _).
Qed.

Lemma nextSeatLoop_spec n ps playing :
  0 < n ->
  forall c cur,
    0 <= cur < n ->
    (nextSeatLoop c n ps cur playing = -1
     /\ forall d, 0 <= d < Z.of_nat c ->
                  canTake ps playing ((cur + d) mod n) = false)
    \/ (exists d,
          0 <= d < Z.of_nat c
          /\ nextSeatLoop c n ps cur playing = (cur + d) mod n
          /\ canTake ps playing ((cur + d) mod n) = true
          /\ forall d', 0 <= d' < d ->
                        canTake ps playing ((cur + d') mod n) = false).
Proof.
  intros Hn. induction c as [|c IH]; intros cur Hcur.
  - left. split; [done|]. intros d Hd. lia.
  - rewrite nextSeatLoop_step.
    destruct (canTake ps playing cur) eqn:Hc.
    + right. exists 0. rewrite Z.add_0_r, Z.mod_small by lia.
      split; [lia|]. split; [done|]. split; [done|]. intros d' Hd'. lia.
    + assert (Hrem : Z.rem (cur + 1) n = (cur + 1) mod n)
        by (apply Z.rem_mod_nonneg; lia).
      rewrite Hrem.
      assert (Hshift : forall d, ((cur + 1) mod n + d) mod n = (cur + (d + 1)) mod n).
      { intros d. rewrite Zplus_mod_idemp_l. f_equal. lia. }
      destruct (IH ((cur + 1) mod n)) as [[Hr Hall]|(d & Hd & Hr & Hd1 & Hd2)];
        [by apply Z.mod_pos_bound| |].
      * left. split; [done|]. intros d Hd.
        destruct (decide (d = 0)) as [->|Hd0].
        -- by rewrite Z.add_0_r, Z.mod_small by lia.
        -- specialize (Hall (d - 1)). rewrite Hshift in Hall.
           replace (d - 1 + 1) with d in Hall by lia. apply Hall. lia.
      * right. exists (d + 1). rewrite Hshift in Hr, Hd1.
        split; [lia|]. split; [done|]. split; [done|]. intros d' Hd'.
        destruct (decide (d' = 0)) as [->|Hd0].
        -- by rewrite Z.add_0_r, Z.mod_small by lia.
        -- specialize (Hd2 (d' - 1)). rewrite Hshift in Hd2.
           replace (d' - 1 + 1) with d' in Hd2 by lia. apply Hd2. lia.
Qed.

Lemma nextSeat_spec t seat playing :
  0 < NumOfSeats (opts t) -> 0 <= seat ->
  exists s,
    nextSeat t seat playing = Ok s
    /\ ((s = -1
         /\ forall k, 0 <= k < NumOfSeats (opts t) ->
                      canTake (players t) playing k = false)
        \/ (0 <= s < NumOfSeats (opts t)
            /\ canTake (players t) playing s = true
            /\ exists d,
                 0 <= d < NumOfSeats (opts t)
                 /\ s = (seat + d) mod NumOfSeats (opts t)
                 /\ forall d', 0 <= d' < d ->
                      canTake (players t) playing
                        ((seat + d') mod NumOfSeats (opts t)) = false)).
Proof.
  intros Hn Hseat. unfold nextSeat. generalize dependent (NumOfSeats (opts t)).
  intros n Hn. destruct (Z.eqb_spec n 0); [lia|]. eexists. split; [done|].
  rewrite Z.rem_mod_nonneg by lia.
  assert (Hshift : forall d, (seat mod n + d) mod n = (seat + d) mod n).
  { intros d. by rewrite Zplus_mod_idemp_l. }
  destruct (nextSeatLoop_spec n (players t) playing Hn (Z.to_nat n) (seat mod n))
    as [[Hr Hall]|(d & Hd & Hr & Hd1 & Hd2)]; [by apply Z.mod_pos_bound| |].
  - left. split; [done|]. intros k Hk.
    specialize (Hall ((k - seat) mod n)). rewrite Hshift in Hall.
    rewrite Zplus_mod_idemp_r in Hall.
    replace (seat + (k - seat)) with k in Hall by lia.
    rewrite (Z.mod_small k n) in Hall by lia. apply Hall.
    rewrite Z2Nat.id by lia. by apply Z.mod_pos_bound.
  - right. rewrite Hshift in Hr, Hd1. rewrite Z2Nat.id in Hd by lia.
    rewrite Hr. split; [by apply Z.mod_pos_bound|]. split; [done|].
    exists d. split; [done|]. split; [done|]. intros d' Hd'.
    specialize (Hd2 d' Hd'). by rewrite Hshift in Hd2.
Qed.

End nextSeat_facts.

(** X18.  [nextSeat] walks the seats of the table once around, upwards
    from the given seat and wrapping after the last one, and returns the
    first seat with a player (with a player still to act, when [playing]
    is set): never an empty seat, never a seat outside the table, and -1
    exactly when no seat of the table qualifies.  On a table without
    seats the seat number is divided by zero. *)
Theorem nextSeat_first {Game : Type} (t : Table Game) (seat : Z)
    (playing : bool) :
  (NumOfSeats (opts t) = 0 -> nextSeat t seat playing = Panic)
  /\ (0 < NumOfSeats (opts t) -> 0 <= seat ->
      exists s,
        nextSeat t seat playing = Ok s
        /\ ((s = -1
             /\ forall k, 0 <= k < NumOfSeats (opts t) ->
                          canTake (players t) playing k = false)
            \/ (0 <= s < NumOfSeats (opts t)
                /\ canTake (players t) playing s = true
                /\ exists d,
                     0 <= d < NumOfSeats (opts t)
                     /\ s = (seat + d) mod NumOfSeats (opts t)
                     /\ forall d', 0 <= d' < d ->
                          canTake (players t) playing
                            ((seat + d') mod NumOfSeats (opts t)) = false))).
Proof.
  split.
  - intros Hn. unfold nextSeat. by rewrite Hn.
  - apply nextSeat_spec.
Qed.

Lemma nextSeat_first_witness :
  exists s,
    nextSeat examples.tableHiLo 3 false = Ok s
    /\ ((s = -1
         /\ forall k, 0 <= k < NumOfSeats (opts examples.tableHiLo) ->
                      canTake (players examples.tableHiLo) false k = false)
        \/ (0 <= s < NumOfSeats (opts examples.tableHiLo)
            /\ canTake (players examples.tableHiLo) false s = true
            /\ exists d,
                 0 <= d < NumOfSeats (opts examples.tableHiLo)
                 /\ s = (3 + d) mod NumOfSeats (opts examples.tableHiLo)
                 /\ forall d', 0 <= d' < d ->
                      canTake (players examples.tableHiLo) false
                        ((3 + d') mod NumOfSeats (opts examples.tableHiLo))
                      = false)).
Proof.
  apply (proj2 (nextSeat_first examples.tableHiLo 3 false)); cbn; lia.
Defined.
